(** * form-watcher: the network resilience and caching layer

    A shallow embedding of the TypeScript sources

      - [infrastructure/cache/index.ts]                          (module [Cache])
      - [shared/api-clients/circuit-breaker.api-client.ts]       (module [CircuitBreaker])
      - [shared/utils/rate.limiter.util.ts]                      (module [RateLimiter])
      - [shared/utils/retry.util.ts]                             (module [RetryPolicy])
      - [shared/api-clients/request-deduplicator.api-client.ts]  (module [RequestDeduplicator])
      - [shared/utils/content.fetcher.util.ts] and
        [shared/utils/http.client.util.ts]                       (module [Fetch])
      - [core/custom.errors.ts]                                  ([Thrown])

    Conventions of the embedding.
      - JavaScript numbers that hold timestamps, counters and thresholds are
        integers ([Z]); [Date.now()] is an explicit argument [now] of every
        operation that reads the clock.  The delays of the retry policy are
        fractional: they are doubles, the rationals they denote, and their
        arithmetic rounds to the nearest double (module [Double]).
      - A JS [Map] whose iteration order is observable (the cache store) is an
        insertion-ordered association list; maps that are only looked up and
        updated by key are [gmap string _].
      - A [Map] stores object references.  The components keep no reference
        to a stored object from one call to the next, so a mutation in place
        ([state.count = 0] on the object returned by [states.get(key)]) is
        written as an update of the map at that key.
      - Values stored in the cache are defined values; [undefined] is what
        [get] returns for a miss ([T | undefined]) and is [None] here.
      - [throw]/[catch] and promise settlement are results of type [Outcome];
        thrown values are the constructors of [Thrown].
      - an [async] function is cut at its suspension points ([await]): the
        code between two suspension points runs atomically on the event loop
        and is one function on the component's state. *)

From Stdlib Require Import ZArith QArith Lqa Qround Qpower Qreduction.
From stdpp Require Import gmap strings list fin_maps pretty sorting.

Open Scope Z_scope.
Set Warnings "-register-all".

(** ** JavaScript values shared by the components *)

(** A JS number that may be [NaN] (the result of [parseInt]). *)
Inductive Num : Type :=
  | NaN : Num
  | Fin (z : Z) : Num.

(** Truthiness of [x?: number]: [undefined], [NaN] and [0] are falsy. *)
Definition truthy_num (x : option Num) : bool :=
  match x with
  | Some (Fin z) => negb (z =? 0)
  | _ => false
  end.

(** Truthiness of a [number | null] timestamp. *)
Definition truthy_time (t : option Z) : bool :=
  match t with
  | Some z => negb (z =? 0)
  | None => false
  end.

(** [x || 0] for a [number | null]. *)
Definition or_zero (t : option Z) : Z :=
  match t with
  | Some z => if z =? 0 then 0 else z
  | None => 0
  end.

(** [Math.ceil(x / d)] for an integer [x] and a positive integer [d]. *)
Definition ceil_div (x d : Z) : Z := - ((- x) / d).

(** Values that can be thrown: the classes of [core/custom.errors.ts] with
    the fields the components read, the plain [Error], node-fetch's
    [AbortError] and non-[Error] values (kept by their [String(_)]). *)
Inductive Thrown : Type :=
  | NetworkError (message : string) (url : option string) (status : option Z)
  | ValidationError (message : string) (field : option string)
  | RateLimitError (message : string) (retryAfter : option Num)
  | TimeoutError (message : string) (operation : string)
  | ServiceUnavailableError (message : string) (retryAfter : Z)
      (circuit : string) (lastFailure : option Z)
  | InternalServerError (message : string) (cause : option Thrown)
      (maxRetries baseDelayMs : Z) (lastError : option string)
  | AbortError (message : string)
  | PlainError (message : string)
  | NonError (repr : string).

(** [error.message] for a value that is an [Error]. *)
Definition message_of (e : Thrown) : option string :=
  match e with
  | NetworkError m _ _ | ValidationError m _ | RateLimitError m _
  | TimeoutError m _ | ServiceUnavailableError m _ _ _
  | InternalServerError m _ _ _ _ | AbortError m | PlainError m => Some m
  | NonError _ => None
  end.

(** [error instanceof Error ? error : new Error(String(error))] *)
Definition as_error (e : Thrown) : Thrown :=
  match e with
  | NonError repr => PlainError repr
  | _ => e
  end.

(** The taxonomy of the typed signals (AppError.code). *)
Inductive SignalKind : Type :=
  | KNetwork | KValidation | KRateLimited | KTimeout
  | KServiceUnavailable | KOperationExhausted | KUntyped.

Definition kind_of (e : Thrown) : SignalKind :=
  match e with
  | NetworkError _ _ _ => KNetwork
  | ValidationError _ _ => KValidation
  | RateLimitError _ _ => KRateLimited
  | TimeoutError _ _ => KTimeout
  | ServiceUnavailableError _ _ _ _ => KServiceUnavailable
  | InternalServerError _ _ _ _ _ => KOperationExhausted
  | AbortError _ | PlainError _ | NonError _ => KUntyped
  end.

(** How a call or a promise ends. *)
Inductive Outcome (T : Type) : Type :=
  | Returned (v : T)
  | Threw (e : Thrown).
Arguments Returned {T} v.
Arguments Threw {T} e.

(** An operation handed to a component ([() => Promise<T>]): it acts on the
    caller's world [W] and settles with an outcome. *)
Definition Operation (W T : Type) : Type := W -> W * Outcome T.

(** An operation that rejects, respectively resolves, whenever it is called. *)
Definition always_throws {W T : Type} (operation : Operation W T) : Prop :=
  forall w, exists e, snd (operation w) = Threw e.

Definition always_returns {W T : Type} (operation : Operation W T) : Prop :=
  forall w, exists v, snd (operation w) = Returned v.

(** The world after the given operations have run one after the other. *)
Definition after_operations {W T : Type} (ops : list (Operation W T)) (w : W) : W :=
  foldl (fun w operation => fst (operation w)) w ops.

(** ** Cache  ([src/infrastructure/cache/index.ts]) *)
Module Cache.

Record CacheItem (T : Type) : Type := mkItem {
  value : T;
  expiresAt : Z;
  lastAccess : Z;
  isFetching : bool
}.
Arguments mkItem {T} _ _ _ _.
Arguments value {T} _.
Arguments expiresAt {T} _.
Arguments lastAccess {T} _.
Arguments isFetching {T} _.

Record CacheOptions : Type := mkOptions {
  ttl : Z;
  maxSize : Z;
  staleWhileRevalidate : bool
}.

(** The constructor's defaults. *)
Definition make_options (ttl maxSize : option Z) (swr : option bool) : CacheOptions :=
  {| ttl := default 300000 ttl;
     maxSize := default 100 maxSize;
     staleWhileRevalidate := default false swr |}.

(** [Map<string, CacheItem<T>>] in insertion order. *)
Abbreviation Store T := (list (string * CacheItem T)) (only parsing).

Section WithValue.
Context {T : Type}.

Fixpoint map_get (key : string) (m : Store T) : option (CacheItem T) :=
  match m with
  | [] => None
  | (k, item) :: rest => if String.eqb k key then Some item else map_get key rest
  end.

(** [Map.set]: an existing key keeps its position, a new key goes last. *)
Fixpoint map_set (key : string) (item : CacheItem T) (m : Store T) : Store T :=
  match m with
  | [] => [(key, item)]
  | (k, old) :: rest =>
      if String.eqb k key then (k, item) :: rest
      else (k, old) :: map_set key item rest
  end.

Definition map_delete (key : string) (m : Store T) : Store T :=
  filter (fun kv => negb (String.eqb (fst kv) key)) m.

(** The cache object: the store, and the calls made to the optional
    [onEvict(key, value)] callback, oldest first (the callback's own
    errors are caught and logged, so it has no other effect here). *)
Record State : Type := mkState {
  store : Store T;
  evictions : list (string * T)
}.

Definition size (st : State) : Z := Z.of_nat (length (store st)).

(** [evict(key, item)] *)
Definition evict (key : string) (item : CacheItem T) (st : State) : State :=
  {| store := map_delete key (store st);
     evictions := evictions st ++ [(key, value item)] |}.

(** [set(key, value, ttl?)] at clock [now]. *)
Definition set (o : CacheOptions) (key : string) (v : T) (ttl_arg : option Z)
    (now : Z) (st : State) : State :=
  let expires := now + default (ttl o) ttl_arg in
  {| store := map_set key (mkItem v expires now false) (store st);
     evictions := evictions st |}.

(** [get(key)] at clock [now]; [None] is [undefined]. *)
Definition get (o : CacheOptions) (key : string) (now : Z) (st : State)
    : option T * State :=
  match map_get key (store st) with
  | None => (None, st)
  | Some item =>
      if expiresAt item <=? now then
        if negb (staleWhileRevalidate o) || isFetching item then
          (None, {| store := map_delete key (store st); evictions := evictions st |})
        else
          (Some (value item),
           {| store := map_set key
                (mkItem (value item) (expiresAt item) (lastAccess item) true) (store st);
              evictions := evictions st |})
      else
        (Some (value item),
         {| store := map_set key
              (mkItem (value item) (expiresAt item) now (isFetching item)) (store st);
            evictions := evictions st |})
  end.

(** [delete(key)] *)
Definition delete (key : string) (st : State) : bool * State :=
  match map_get key (store st) with
  | Some item => (true, evict key item st)
  | None => (false, st)
  end.

(** [clear()] *)
Definition clear (st : State) : State :=
  {| store := [];
     evictions := evictions st ++ map (fun kv => (fst kv, value (snd kv))) (store st) |}.

(** The first loop of [cleanup]: every entry of the store is visited in
    insertion order (deleting the visited entry does not disturb the
    iteration of a JS Map) and evicted if it has expired. *)
Fixpoint evict_expired (now : Z) (entries : Store T) (st : State) : State :=
  match entries with
  | [] => st
  | (key, item) :: rest =>
      if expiresAt item <=? now then evict_expired now rest (evict key item st)
      else evict_expired now rest st
  end.

(** [Array.prototype.sort((a, b) => a[1].lastAccess - b[1].lastAccess)]:
    a stable sort by ascending [lastAccess]. *)
Fixpoint sort_insert (e : string * CacheItem T) (l : Store T) : Store T :=
  match l with
  | [] => [e]
  | x :: rest =>
      if lastAccess (snd e) <=? lastAccess (snd x) then e :: x :: rest
      else x :: sort_insert e rest
  end.

Fixpoint sort_by_lastAccess (l : Store T) : Store T :=
  match l with
  | [] => []
  | e :: rest => sort_insert e (sort_by_lastAccess rest)
  end.

(** [while (this.store.size > maxSize && entries.length > 0)
       { const [key, item] = entries.shift()!; this.evict(key, item); }] *)
Fixpoint evict_oldest (o : CacheOptions) (entries : Store T) (st : State) : State :=
  match entries with
  | [] => st
  | (key, item) :: rest =>
      if size st >? maxSize o then evict_oldest o rest (evict key item st)
      else st
  end.

(** [cleanup()] at clock [now]. *)
Definition cleanup (o : CacheOptions) (now : Z) (st : State) : State :=
  let st1 := evict_expired now (store st) st in
  if size st1 >? maxSize o then
    evict_oldest o (sort_by_lastAccess (store st1)) st1
  else st1.

(** The result of [compareAndSet]. *)
Inductive Comparison : Type := initial | changed | unchanged.

(** [compareAndSet(key, newValue)].  [stringify] is [JSON.stringify]
    ([None] when it yields [undefined]); [now_get] and [now_set] are the
    clock readings of the inner [get] and [set]. *)
Definition compareAndSet (stringify : T -> option string) (o : CacheOptions)
    (key : string) (newValue : T) (now_get now_set : Z) (st : State)
    : Comparison * State :=
  let (previousValue, st1) := get o key now_get st in
  let st2 := set o key newValue None now_set st1 in
  match previousValue with
  | None => (initial, st2)
  | Some prev =>
      if decide (stringify prev = stringify newValue) then (unchanged, st2)
      else (changed, st2)
  end.

(** Keys of a JS Map are pairwise distinct. *)
Definition wf_store (m : Store T) : Prop := NoDup (fst <$> m).

(** What [onEvict] is told about an entry. *)
Definition reported (kv : string * CacheItem T) : string * T :=
  (fst kv, value (snd kv)).

(** The cache as constructed. *)
Definition empty : State := {| store := []; evictions := [] |}.

(** An entry that has expired at clock [now]. *)
Definition is_expired (now : Z) (kv : string * CacheItem T) : Prop :=
  expiresAt (snd kv) <= now.

#[global] Instance is_expired_dec (now : Z) (kv : string * CacheItem T) :
  Decision (is_expired now kv).
Proof. unfold is_expired. apply _. Defined.

(** Entries compared by their last access. *)
Definition older (a b : string * CacheItem T) : Prop :=
  lastAccess (snd a) <= lastAccess (snd b).

(** [wrap(fn, keyOrOptions, ...args)]: [key] is the generated key and
    [ttl_arg] is [options.ttl] ([undefined] when a plain string key is
    given); [now_get] and [now_set] are the clock readings of the inner
    [get] and [set], the latter after [fn] has settled. *)
Definition wrap {W : Type} (o : CacheOptions) (key : string) (ttl_arg : option Z)
    (now_get now_set : Z) (fn : Operation W T) (st : State * W)
    : (State * W) * Outcome T :=
  let (s, w) := st in
  let (cached, s1) := get o key now_get s in
  match cached with
  | Some v => ((s1, w), Returned v)
  | None =>
      let (w', r) := fn w in
      match r with
      | Returned result => ((set o key result ttl_arg now_set s1, w'), Returned result)
      | Threw e => ((s1, w'), Threw e)
      end
  end.

End WithValue.
Arguments State : clear implicits.

End Cache.

(** ** CircuitBreaker  ([shared/api-clients/circuit-breaker.api-client.ts]) *)
Module CircuitBreaker.

Record CircuitState : Type := mkCircuit {
  failures : Z;
  lastFailureTime : option Z;
  isOpen : bool;
  successCount : Z
}.

Record CircuitBreakerOptions : Type := mkOptions {
  timeoutMs : Z;
  failureThreshold : Z;
  successThreshold : Z
}.

(** The constructor's defaults. *)
Definition make_options (timeout failure success : option Z) : CircuitBreakerOptions :=
  {| timeoutMs := default 10000 timeout;
     failureThreshold := default 3 failure;
     successThreshold := default 2 success |}.

(** The state of a key that has none yet, and of a circuit that is reset. *)
Definition closed : CircuitState :=
  {| failures := 0; lastFailureTime := None; isOpen := false; successCount := 0 |}.

(** [getState(key)] *)
Definition getState (key : string) (states : gmap string CircuitState) : CircuitState :=
  default closed (states !! key).

(** [setState(key, state)] *)
Definition setState (key : string) (s : CircuitState) (states : gmap string CircuitState)
    : gmap string CircuitState :=
  <[key := s]> states.

Definition unavailable (key : string) (retryAfter : Z) (s : CircuitState) : Thrown :=
  ServiceUnavailableError
    ("Service " +:+ key +:+ " is temporarily unavailable due to circuit breaker")
    retryAfter key (lastFailureTime s).

(** [execute], from its entry to the call of [operation]: either the
    circuit-open rejection, or the states with which the operation is
    started. *)
Definition on_entry (o : CircuitBreakerOptions) (key : string) (now : Z)
    (states : gmap string CircuitState) : Thrown + gmap string CircuitState :=
  let state := getState key states in
  if isOpen state then
    if truthy_time (lastFailureTime state)
       && (now - or_zero (lastFailureTime state) >? timeoutMs o)
    then inr (setState key
                {| failures := failures state;
                   lastFailureTime := lastFailureTime state;
                   isOpen := false;
                   successCount := 0 |} states)
    else
      let retryAfter :=
        ceil_div (timeoutMs o - (now - or_zero (lastFailureTime state))) 1000 in
      inl (unavailable key retryAfter state)
  else inr states.

(** [execute], after [operation] has resolved. *)
Definition on_success (o : CircuitBreakerOptions) (key : string)
    (states : gmap string CircuitState) : gmap string CircuitState :=
  let currentState := getState key states in
  let successCount' := successCount currentState + 1 in
  if successCount' >=? successThreshold o then setState key closed states
  else setState key
         {| failures := failures currentState;
            lastFailureTime := lastFailureTime currentState;
            isOpen := isOpen currentState;
            successCount := successCount' |} states.

(** [execute], after [operation] has rejected; [now] is the clock reading
    taken on entry. *)
Definition on_failure (o : CircuitBreakerOptions) (key : string) (now : Z)
    (states : gmap string CircuitState) : gmap string CircuitState :=
  let currentState := getState key states in
  let failures' := failures currentState + 1 in
  setState key
    {| failures := failures';
       lastFailureTime := Some now;
       isOpen := failures' >=? failureThreshold o;
       successCount := 0 |} states.

Section Execute.
Context {W T : Type}.

(** [execute(key, operation)] entered at clock [now], with no other task
    touching this key while the operation is awaited. *)
Definition execute (o : CircuitBreakerOptions) (key : string) (now : Z)
    (operation : Operation W T) (st : gmap string CircuitState * W)
    : (gmap string CircuitState * W) * Outcome T :=
  let (states, w) := st in
  match on_entry o key now states with
  | inl e => ((states, w), Threw e)
  | inr states1 =>
      let (w', r) := operation w in
      match r with
      | Returned v => ((on_success o key states1, w'), Returned v)
      | Threw e => ((on_failure o key now states1, w'), Threw e)
      end
  end.

(** A sequence of calls on one key, each with its clock reading and its
    operation, run one after the other; the outcomes come back in call
    order. *)
Fixpoint run (o : CircuitBreakerOptions) (key : string)
    (calls : list (Z * Operation W T)) (st : gmap string CircuitState * W)
    : (gmap string CircuitState * W) * list (Outcome T) :=
  match calls with
  | [] => (st, [])
  | (now, operation) :: rest =>
      let (st1, r) := execute o key now operation st in
      let (st2, rs) := run o key rest st1 in
      (st2, r :: rs)
  end.
End Execute.

(** A state in which an open circuit has reached the failure threshold and
    has recorded when it last failed. *)
Definition consistent (o : CircuitBreakerOptions) (s : CircuitState) : Prop :=
  isOpen s = true ->
  failureThreshold o <= failures s /\ exists t, lastFailureTime s = Some t.

End CircuitBreaker.

(** ** RateLimiter  ([shared/api-clients/rate-limiter.api-client.ts]) *)
Module RateLimiter.

Record RateLimitState : Type := mkWindow {
  count : Z;
  resetTime : Z
}.

Record InternalRateLimitOptions : Type := mkOptions {
  maxRequests : Z;
  timeWindow : Z;
  throwOnLimit : bool
}.

(** The constructor's defaults. *)
Definition make_options (max windowMs : option Z) (throwOn : option bool)
    : InternalRateLimitOptions :=
  {| maxRequests := default 100 max;
     timeWindow := default 60000 windowMs;
     throwOnLimit := default true throwOn |}.

(** What [isAllowed] returns. *)
Record Verdict : Type := mkVerdict {
  allowed : bool;
  remaining : Z;
  retryAfter : Z;
  verdictResetTime : Z
}.

(** The two statements guarded by [now > state.resetTime]. *)
Definition roll (o : InternalRateLimitOptions) (now : Z) (state : RateLimitState)
    : RateLimitState :=
  if now >? resetTime state then {| count := 0; resetTime := now + timeWindow o |}
  else state.

Definition verdict_of (o : InternalRateLimitOptions) (state : RateLimitState) : Verdict :=
  {| allowed := true;
     remaining := Z.max 0 (maxRequests o - count state);
     retryAfter := 0;
     verdictResetTime := resetTime state |}.

(** [isAllowed(key)] at clock [now].  When the key has a state, [state] is
    the object held by the map and the reset writes into it; otherwise
    [state] is a fresh object that is never stored. *)
Definition isAllowed (o : InternalRateLimitOptions) (key : string) (now : Z)
    (states : gmap string RateLimitState) : Verdict * gmap string RateLimitState :=
  match states !! key with
  | Some stored =>
      let state := roll o now stored in
      (verdict_of o state, <[key := state]> states)
  | None =>
      let state := roll o now {| count := 0; resetTime := now + timeWindow o |} in
      (verdict_of o state, states)
  end.

(** [getState(key)] *)
Definition getState (key : string) (states : gmap string RateLimitState)
    : option RateLimitState :=
  states !! key.

(** Admission checks of one key made one after the other at the clock
    readings [nows]; the verdicts come back in call order. *)
Fixpoint checks (o : InternalRateLimitOptions) (key : string) (nows : list Z)
    (states : gmap string RateLimitState) : list Verdict * gmap string RateLimitState :=
  match nows with
  | [] => ([], states)
  | now :: rest =>
      let (v, states1) := isAllowed o key now states in
      let (vs, states2) := checks o key rest states1 in
      (v :: vs, states2)
  end.

(** The request count of the key's current window at clock [now], in the
    words of the specification: zero when the key has no window or its
    window has passed ([now > windowResetAt]), the stored count otherwise. *)
Definition spec_window_count (key : string) (now : Z)
    (states : gmap string RateLimitState) : Z :=
  match states !! key with
  | Some s => if decide (resetTime s < now) then 0 else count s
  | None => 0
  end.

(** [reset(key)] and [resetAll()] *)
Definition reset (key : string) (states : gmap string RateLimitState)
    : gmap string RateLimitState :=
  base.delete key states.

Definition resetAll (states : gmap string RateLimitState) : gmap string RateLimitState := ∅.

(** The [catch] block of [execute], at clock [now]. *)
Definition on_error (o : InternalRateLimitOptions) (key : string) (now : Z)
    (error : Thrown) (states : gmap string RateLimitState)
    : gmap string RateLimitState :=
  match error with
  | RateLimitError _ (Some (Fin secs)) =>
      if truthy_num (Some (Fin secs)) then
        <[key := {| count := maxRequests o; resetTime := now + secs * 1000 |}]> states
      else states
  | _ => states
  end.

Section Execute.
Context {W T : Type}.

(** [execute(key, fn)]: [now] is the clock reading of [isAllowed],
    [now_caught] the one of the [catch] block. *)
Definition execute (o : InternalRateLimitOptions) (key : string) (now now_caught : Z)
    (fn : Operation W T) (st : gmap string RateLimitState * W)
    : (gmap string RateLimitState * W) * Outcome T :=
  let (states, w) := st in
  let (v, states1) := isAllowed o key now states in
  if negb (allowed v) then
    if throwOnLimit o then
      ((states1, w),
       Threw (RateLimitError
                ("Rate limit exceeded. Try again in " +:+ pretty (retryAfter v)
                   +:+ " seconds")
                (Some (Fin (retryAfter v)))))
    else ((states1, w), Threw (PlainError "Rate limit exceeded"))
  else
    let (w', r) := fn w in
    match r with
    | Returned x => ((states1, w'), Returned x)
    | Threw error => ((on_error o key now_caught error states1, w'), Threw error)
    end.
End Execute.

End RateLimiter.

(** ** Double-precision arithmetic

    A finite JavaScript number is the rational it denotes.  An arithmetic
    operation returns the double nearest to the exact result, a tie going
    to the double whose significand is even (IEEE 754 binary64: 53
    significant bits).  The exponent is not bounded here: the model is the
    arithmetic of numbers whose magnitude lies between [2^-1022] and
    [2^1024], with neither subnormal numbers nor [Infinity]. *)
Module Double.

(** The integer nearest to [q], a tie going to the even one. *)
Definition nearest_even (q : Q) : Z :=
  let f := Qfloor q in
  match ((q - inject_Z f) ?= (1 # 2))%Q with
  | Lt => f
  | Eq => if Z.even f then f else f + 1
  | Gt => f + 1
  end.

(** The binary exponent of a positive [x]: [2^e <= x < 2^(e+1)]. *)
Definition exponent (x : Q) : Z :=
  let e := Z.log2 (Qnum x) - Z.log2 (Zpos (Qden x)) in
  if Qle_bool (2 ^ e) x then e else e - 1.

(** The double nearest to a positive [x]: its significand, scaled to an
    integer of 53 bits, is rounded. *)
Definition round_pos (x : Q) : Q :=
  let e := exponent x in
  (inject_Z (nearest_even (x * 2 ^ (52 - e))) * 2 ^ (e - 52))%Q.

(** The double nearest to [x], as a reduced fraction. *)
Definition round (x : Q) : Q :=
  Qred match Qnum x with
       | Z0 => 0
       | Zpos _ => round_pos x
       | Zneg _ => - round_pos (- x)
       end.

(** [a + b] and [a * b] on doubles. *)
Definition add (a b : Q) : Q := round (a + b).
Definition mul (a b : Q) : Q := round (a * b).

End Double.

(** ** RetryPolicy  ([retryOperation], [shared/utils/retry.util.ts]) *)
Module RetryPolicy.

(** What [retryOperation] does to the outside, in order: a call of
    [operation] and a [setTimeout] wait, each tagged with the loop's
    [attempt]. *)
Inductive Event : Type :=
  | Invoked (attempt : Z)
  | Waited (attempt : Z) (delay : Q).

(** The literal [0.1]. *)
Definition tenth : Q := Double.round (1 # 10).

(** [1 + Math.random() * 0.1] for a draw [r] *)
Definition jitter (r : Q) : Q := Double.add 1 (Double.mul r tenth).

(** [baseDelayMs * Math.pow(2, attempt) * jitter]; a power of two is a
    double. *)
Definition delay (baseDelayMs attempt : Z) (r : Q) : Q :=
  Double.mul (Double.mul (inject_Z baseDelayMs) (inject_Z (2 ^ attempt))) (jitter r).

(** The error thrown after the loop. *)
Definition exhausted (maxRetries baseDelayMs : Z) (lastError : option Thrown) : Thrown :=
  let text := lastError ≫= message_of in
  InternalServerError
    ("Operation failed after " +:+ pretty maxRetries +:+ " attempts: "
       +:+ default "undefined" text)
    lastError maxRetries baseDelayMs text.

Definition is_invoked (ev : Event) : bool :=
  match ev with
  | Invoked _ => true
  | Waited _ _ => false
  end.

(** How often [operation] was called. *)
Definition invocations (log : list Event) : nat :=
  length (filter (fun ev => is_invoked ev) log).

(** The waits, in order. *)
Definition waits (log : list Event) : list (Z * Q) :=
  omap (fun ev => match ev with Waited a d => Some (a, d) | Invoked _ => None end) log.

Section Retry.
Context {W T : Type}.
(** [random a] is what [Math.random()] returns in the [catch] block of
    attempt [a]. *)
Variable random : Z -> Q.

(** The [for] loop from its test [attempt < maxRetries] on; [fuel]
    bounds the iterations still to run. *)
Fixpoint attempts (fuel : nat) (operation : Operation W T)
    (maxRetries baseDelayMs attempt : Z) (lastError : option Thrown)
    (st : W * list Event) : option ((W * list Event) * Outcome T) :=
  if attempt <? maxRetries then
    match fuel with
    | O => None
    | S fuel' =>
        let (w, log) := st in
        let (w', r) := operation w in
        let log1 := log ++ [Invoked attempt] in
        match r with
        | Returned v => Some ((w', log1), Returned v)
        | Threw error =>
            let lastError' := Some (as_error error) in
            let d := delay baseDelayMs attempt (random attempt) in
            let log2 :=
              if attempt <? maxRetries - 1 then log1 ++ [Waited attempt d] else log1 in
            attempts fuel' operation maxRetries baseDelayMs (attempt + 1) lastError'
              (w', log2)
        end
    end
  else Some (st, Threw (exhausted maxRetries baseDelayMs lastError)).

(** The log of [n] invocations starting with attempt [attempt], in the
    words of the specification: a wait of
    [baseDelayMs * 2^attempt * jitter] between consecutive attempts and
    none after the last. *)
Fixpoint spec_events (baseDelayMs attempt : Z) (n : nat) : list Event :=
  match n with
  | O => []
  | S O => [Invoked attempt]
  | S n' =>
      Invoked attempt :: Waited attempt (delay baseDelayMs attempt (random attempt))
        :: spec_events baseDelayMs (attempt + 1) n'
  end.

(** [retryOperation(operation, maxRetries, baseDelayMs)] *)
Definition retryOperation (operation : Operation W T) (maxRetries baseDelayMs : Z)
    (w : W) : option ((W * list Event) * Outcome T) :=
  attempts (Z.to_nat maxRetries) operation maxRetries baseDelayMs 0 None (w, []).
End Retry.

End RetryPolicy.

(** ** RequestDeduplicator
       ([shared/api-clients/request-deduplicator.api-client.ts]) *)
Module RequestDeduplicator.

(** A promise is named by the order of its creation. *)
Record PendingRequest : Type := mkPending {
  promise : nat;
  timestamp : Z
}.

Record RequestDeduplicatorOptions : Type := mkOptions {
  maxAge : Z;
  cleanupInterval : Z
}.

Section WithResult.
(** [F] names the functions handed to [execute]. *)
Context {F T : Type}.

(** The deduplicator on the event loop: the pending map, the promises
    it created that have settled (a created promise that is absent is
    still pending), how many it created, and the functions it invoked,
    oldest first. *)
Record State : Type := mkState {
  pendingRequests : gmap string PendingRequest;
  settled : gmap nat (Outcome T);
  created : nat;
  invoked : list (string * F)
}.

(** What a caller of [execute] holds when the call reaches its first
    suspension point. *)
Inductive Handle : Type :=
  | Shares (p : nat)      (* [return existing.promise] *)
  | Awaits (p : nat).     (* suspended in [await fn()], having stored [p] *)

(** [execute(key, fn)] at clock [now], up to its first suspension. *)
Definition execute (key : string) (fn : F) (now : Z) (st : State) : Handle * State :=
  match pendingRequests st !! key with
  | Some existing => (Shares (promise existing), st)
  | None =>
      let p := created st in
      (Awaits p,
       {| pendingRequests :=
            <[key := {| promise := p; timestamp := now |}]> (pendingRequests st);
          settled := settled st;
          created := S p;
          invoked := invoked st ++ [(key, fn)] |})
  end.

(** [resolve!(result)] / [reject!(error)]: settling a promise twice
    keeps the first settlement. *)
Definition settle_promise (p : nat) (r : Outcome T) (m : gmap nat (Outcome T))
    : gmap nat (Outcome T) :=
  match m !! p with
  | Some _ => m
  | None => <[p := r]> m
  end.

(** [execute] resumed when [fn()] settles with [r]: the stored promise
    is settled, the [finally] block deletes the key, and the call itself
    completes with [r]. *)
Definition resume (key : string) (p : nat) (r : Outcome T) (st : State)
    : Outcome T * State :=
  (r,
   {| pendingRequests := base.delete key (pendingRequests st);
      settled := settle_promise p r (settled st);
      created := created st;
      invoked := invoked st |}).

(** What the holder of a handle has observed so far: the settlement of
    the shared promise, or, for the invoking caller, the completion
    [own] of its own call once resumed. *)
Definition observed (h : Handle) (own : option (Outcome T)) (st : State)
    : option (Outcome T) :=
  match h with
  | Shares p => settled st !! p
  | Awaits _ => own
  end.

(** [cleanup()] at clock [now]. *)
Definition cleanup (o : RequestDeduplicatorOptions) (now : Z) (st : State) : State :=
  {| pendingRequests :=
       filter (fun kv => negb (now - timestamp (snd kv) >? maxAge o)) (pendingRequests st);
     settled := settled st;
     created := created st;
     invoked := invoked st |}.

(** Promises that are not created yet are not settled. *)
Definition wf (st : State) : Prop :=
  forall p, (created st <= p)%nat -> settled st !! p = None.

(** The deduplicator as constructed. *)
Definition init : State :=
  {| pendingRequests := ∅; settled := ∅; created := 0; invoked := [] |}.

(** [getPendingRequestCount()] *)
Definition getPendingRequestCount (st : State) : nat := size (pendingRequests st).

(** [clear()] (the sweep timer it stops is not part of the state). *)
Definition clear (st : State) : State :=
  {| pendingRequests := ∅;
     settled := settled st;
     created := created st;
     invoked := invoked st |}.

(** How often a key's function has been invoked. *)
Definition invocation_count (key : string) (st : State) : nat :=
  length (filter (fun kf => String.eqb (fst kf) key) (invoked st)).

(** What the event loop can run on the deduplicator while a call is
    suspended: another call of [execute], up to its suspension; the
    resumption of a suspended call whose function has settled; a pass of
    the sweep timer; [clear()]. *)
Inductive Task : Type :=
  | Call (key : string) (fn : F) (now : Z)
  | Settle (key : string) (p : nat) (r : Outcome T)
  | Sweep (now : Z)
  | Clear.

Definition step (o : RequestDeduplicatorOptions) (t : Task) (st : State) : State :=
  match t with
  | Call key fn now => snd (execute key fn now st)
  | Settle key p r => snd (resume key p r st)
  | Sweep now => cleanup o now st
  | Clear => clear st
  end.

Definition run_tasks (o : RequestDeduplicatorOptions) (ts : list Task) (st : State)
    : State :=
  foldl (fun st t => step o t st) st ts.

(** The tasks that can run while the call for [key] that started at clock
    [started] and holds promise [p] is suspended and its entry stays: any
    call of [execute]; resumptions of the calls for other keys; passes of
    the sweep no later than [maxAge] after [started].  [clear()] is not
    one of them. *)
Definition leaves_entry (o : RequestDeduplicatorOptions) (key : string) (p : nat)
    (started : Z) (t : Task) : Prop :=
  match t with
  | Call _ _ _ => True
  | Settle k q _ => k <> key /\ q <> p
  | Sweep now => now - started <= maxAge o
  | Clear => False
  end.

(** What holds of the deduplicator while that call is suspended and its
    entry stays: the entry is the one the call stored, its promise is not
    settled, and the key's function has been invoked [count] times. *)
Definition in_flight (key : string) (p : nat) (started : Z) (count : nat) (st : State)
    : Prop :=
  pendingRequests st !! key = Some {| promise := p; timestamp := started |}
  /\ settled st !! p = None
  /\ invocation_count key st = count
  /\ (p < created st)%nat.

End WithResult.
Arguments State : clear implicits.
Arguments Task : clear implicits.

End RequestDeduplicator.

(** ** The fetch attempt of [ContentFetcher.fetch] and [HttpClient.request] *)
Module Fetch.

(** The part of node-fetch's [Response] the code reads. *)
Record Response : Type := mkResponse {
  status : Z;
  statusText : string;
  url : string;
  retryAfterHeader : option string;   (* [headers.get('retry-after')] *)
  body : string
}.

(** node-fetch: [ok] is [status >= 200 && status < 300]. *)
Definition ok (res : Response) : bool := (200 <=? status res) && (status res <? 300).

Record FetchResult : Type := mkResult {
  content : string;
  finalUrl : string
}.

(** [parseInt(s, 10)] on ASCII input. *)
Definition is_space (a : Ascii.ascii) : bool :=
  match Ascii.nat_of_ascii a with
  | 9%nat | 10%nat | 11%nat | 12%nat | 13%nat | 32%nat => true
  | _ => false
  end.

Fixpoint skip_spaces (s : string) : string :=
  match s with
  | String a rest => if is_space a then skip_spaces rest else s
  | EmptyString => s
  end.

Definition digit_of (a : Ascii.ascii) : option Z :=
  let n := Z.of_nat (Ascii.nat_of_ascii a) in
  if (48 <=? n) && (n <=? 57) then Some (n - 48) else None.

Fixpoint read_digits (s : string) (acc : option Z) : option Z :=
  match s with
  | String a rest =>
      match digit_of a with
      | Some d => read_digits rest (Some (10 * default 0 acc + d))
      | None => acc
      end
  | EmptyString => acc
  end.

Definition parseInt (s : string) : Num :=
  let s1 := skip_spaces s in
  let (sign, s2) :=
    match s1 with
    | String a rest =>
        match Ascii.nat_of_ascii a with
        | 45%nat => (-1, rest)     (* '-' *)
        | 43%nat => (1, rest)      (* '+' *)
        | _ => (1, s1)
        end
    | EmptyString => (1, s1)
    end in
  match read_digits s2 None with
  | Some n => Fin (sign * n)
  | None => NaN
  end.

(** [retryAfter ? parseInt(retryAfter, 10) : undefined] *)
Definition retry_after_of (header : option string) : option Num :=
  match header with
  | Some EmptyString | None => None
  | Some s => Some (parseInt s)
  end.

(** The closure [fetchWithRetry] of [ContentFetcher.fetch], that is one
    fetch attempt: [net] is how [await fetch(url, fetchOptions)] settles
    (it rejects with an [AbortError] when the 10 s timer has aborted the
    request), [now] the clock reading of [cache.set]. *)
Definition fetchWithRetry (o : Cache.CacheOptions) (url_arg : string) (now : Z)
    (net : Outcome Response) (cache : Cache.State FetchResult)
    : Cache.State FetchResult * Outcome FetchResult :=
  match net with
  | Returned res =>
      if negb (ok res) then
        (cache, Threw (NetworkError "Failed to fetch content" (Some url_arg)
                         (Some (status res))))
      else
        let result :=
          {| content := body res;
             finalUrl := if String.eqb (url res) "" then url_arg else url res |} in
        (Cache.set o ("fetch:" +:+ url_arg) result None now cache, Returned result)
  | Threw e => (cache, Threw e)
  end.

(** The [try] block of [HttpClient.request] after [await fetch(..)] has
    resolved with [res]. *)
Definition classify (res : Response) : Outcome (Z * string) :=
  if negb (ok res) then
    if status res =? 429 then
      Threw (RateLimitError "Rate limit exceeded" (retry_after_of (retryAfterHeader res)))
    else if status res >=? 500 then
      Threw (NetworkError
               ("Server error: " +:+ pretty (status res) +:+ " " +:+ statusText res)
               (Some (url res)) (Some (status res)))
    else if status res >=? 400 then
      Threw (ValidationError
               ("Client error: " +:+ pretty (status res) +:+ " " +:+ statusText res)
               (Some "request"))
    else
      Threw (NetworkError
               ("HTTP error: " +:+ pretty (status res) +:+ " " +:+ statusText res)
               (Some (url res)) (Some (status res)))
  else Returned (status res, body res).

(** The [catch] block of [HttpClient.request]. *)
Definition caught (url_arg : string) (timeout : Z) (error : Thrown) : Thrown :=
  match error with
  | AbortError _ =>
      TimeoutError ("Request timed out after " +:+ pretty timeout +:+ "ms") "http_request"
  | NetworkError _ _ _ | RateLimitError _ _ | ValidationError _ _ => error
  | NonError _ =>
      NetworkError "An unknown error occurred during the request" (Some url_arg) None
  | _ => NetworkError (default "" (message_of error)) (Some url_arg) None
  end.

(** [HttpClient.request(url, options, timeout)] *)
Definition request (url_arg : string) (timeout : Z) (net : Outcome Response)
    : Outcome (Z * string) :=
  match net with
  | Returned res =>
      match classify res with
      | Returned r => Returned r
      | Threw e => Threw (caught url_arg timeout e)
      end
  | Threw e => Threw (caught url_arg timeout e)
  end.

(** The classification of a non-success status in the words of the
    specification: 429 is rate-limited, 500 and above network, the other
    4xx validation, anything else network. *)
Definition spec_signal_kind (status : Z) : SignalKind :=
  if decide (status = 429) then KRateLimited
  else if decide (500 <= status) then KNetwork
  else if decide (400 <= status) then KValidation
  else KNetwork.

(** The retry-after carried by a rate-limited signal. *)
Definition retry_after (e : Thrown) : option Num :=
  match e with
  | RateLimitError _ r => r
  | _ => None
  end.

(** *** [InputValidator.validateUrl] and [ContentFetcher.fetch] *)

(** What the validator reads of a parsed [URL]. *)
Record ParsedURL : Type := mkURL {
  protocol : string;
  hostname : string
}.

(** [haystack.includes(needle)] *)
Fixpoint includes (needle haystack : string) : bool :=
  String.prefix needle haystack
  || match haystack with
     | String _ rest => includes needle rest
     | EmptyString => false
     end.

(** [this.userAgents[Math.floor(Math.random() * this.userAgents.length)]]
    for a draw [r]; [None] is [undefined]. *)
Definition randomAgent (userAgents : list string) (r : Q) : option string :=
  userAgents !! Z.to_nat (Qfloor (r * inject_Z (Z.of_nat (length userAgents)))).

(** What a [ContentFetcher] acts on: its cache, the module's deduplicator
    (its functions are named by the URL they fetch), the calls made to
    [metrics.counter(name, 1, {watcher})] and the [User-Agent] header of the
    requests sent, both oldest first. *)
Record World : Type := mkWorld {
  cache : Cache.State FetchResult;
  dedup : RequestDeduplicator.State string FetchResult;
  counters : list (string * string);
  sent : list (option string)
}.

(** How a call of [fetch] ends when no other task runs in between: settled,
    or waiting on the shared promise of a fetch that is in flight. *)
Inductive FetchEnd : Type :=
  | Settled (r : Outcome FetchResult)
  | Joined (p : nat).

Section Pipeline.
(** [new URL(url)]: the parsed URL, or the [TypeError] it throws. *)
Variable parse_url : string -> Outcome ParsedURL.
(** The [InputValidator.validateUrl] that the fetcher imports: it returns
    the URL or throws. *)
Variable validate : string -> Outcome string.
(** The fetcher's [name], user agents and cache options. *)
Variable name : string.
Variable userAgents : list string.
Variable o : Cache.CacheOptions.
(** How the [n]-th request sent settles, and the clock reading then. *)
Variable net : nat -> Outcome Response.
Variable arrival : nat -> Z.
(** The draws of [Math.random()]: for the user agent of the [n]-th request,
    and for the jitter after a failed attempt. *)
Variable agent_draw : nat -> Q.
Variable jitter_draw : Z -> Q.

(** [InputValidator.validateUrl(url)], the variant that parses the URL
    itself. *)
Definition validateUrl (url_arg : string) : Outcome string :=
  let checked : Outcome string :=
    match parse_url url_arg with
    | Threw e => Threw e
    | Returned parsed =>
        if negb (String.eqb (protocol parsed) "https:") then
          Threw (PlainError "Only HTTPS URLs are allowed")
        else if String.eqb (hostname parsed) ""
                || includes ".." (hostname parsed)
                || includes "localhost" (hostname parsed) then
          Threw (ValidationError "Invalid hostname in URL" None)
        else Returned url_arg
    end in
  match checked with
  | Returned u => Returned u
  | Threw error =>
      Threw (ValidationError
               ("Invalid URL: " +:+ default "undefined" (message_of error)) None)
  end.

(** One call of the closure [fetchWithRetry]: the request is sent with a
    random user agent and settles as [net] says. *)
Definition attempt (url_arg : string) : Operation World FetchResult :=
  fun w =>
    let n := length (sent w) in
    let agent := randomAgent userAgents (agent_draw n) in
    let (cache', r) := fetchWithRetry o url_arg (arrival n) (net n) (cache w) in
    ({| cache := cache'; dedup := dedup w; counters := counters w;
        sent := sent w ++ [agent] |}, r).

(** [ContentFetcher.fetch(url)] called at clock [now] without extra
    options; the log is the one of the retries. *)
Definition fetch (url_arg : string) (now : Z) (w : World)
    : option ((World * list RetryPolicy.Event) * FetchEnd) :=
  match validate url_arg with
  | Threw e => Some ((w, []), Settled (Threw e))
  | Returned _ =>
      let cacheKey := "fetch:" +:+ url_arg in
      let (cached, cache1) := Cache.get o cacheKey now (cache w) in
      match cached with
      | Some result =>
          Some (({| cache := cache1; dedup := dedup w;
                    counters := counters w ++ [("fetch_cache_hits_total", name)];
                    sent := sent w |}, []),
                Settled (Returned result))
      | None =>
          let counted := counters w ++ [("fetch_cache_misses_total", name)] in
          let (handle, dedup1) :=
            RequestDeduplicator.execute cacheKey url_arg now (dedup w) in
          match handle with
          | RequestDeduplicator.Shares p =>
              Some (({| cache := cache1; dedup := dedup1; counters := counted;
                        sent := sent w |}, []),
                    Joined p)
          | RequestDeduplicator.Awaits p =>
              match RetryPolicy.retryOperation jitter_draw (attempt url_arg) 3 1000
                      {| cache := cache1; dedup := dedup1; counters := counted;
                         sent := sent w |} with
              | None => None
              | Some ((w', log), r) =>
                  let (own, dedup2) :=
                    RequestDeduplicator.resume cacheKey p r (dedup w') in
                  Some (({| cache := cache w'; dedup := dedup2; counters := counters w';
                            sent := sent w' |}, log),
                        Settled own)
              end
          end
      end
  end.

End Pipeline.

(** A settlement of the network call with which an attempt fails, and the
    error the attempt then throws. *)
Definition failed_attempt (x : Outcome Response) : Prop :=
  match x with
  | Returned res => ok res = false
  | Threw _ => True
  end.

Definition attempt_error (url_arg : string) (x : Outcome Response) : Thrown :=
  match x with
  | Returned res =>
      NetworkError "Failed to fetch content" (Some url_arg) (Some (status res))
  | Threw e => e
  end.

End Fetch.

(** * Sample data

    Concrete options, states and operations on which the properties below
    are exercised. *)

Definition too_many_requests : Fetch.Response :=
  {| Fetch.status := 429; Fetch.statusText := "Too Many Requests";
     Fetch.url := "https://example.org/form"; Fetch.retryAfterHeader := Some "30";
     Fetch.body := "" |}.

Definition empty_cache : Cache.State Fetch.FetchResult :=
  {| Cache.store := []; Cache.evictions := [] |}.

Definition default_cache_options : Cache.CacheOptions :=
  Cache.make_options None None None.

Definition default_limiter_options : RateLimiter.InternalRateLimitOptions :=
  RateLimiter.make_options None None None.

(** A key that went through the failure-recording path of [execute] with a
    rate-limit error (retry after 1 s, caught at clock 0). *)
Definition limited_states : gmap string RateLimiter.RateLimitState :=
  RateLimiter.on_error default_limiter_options "api" 0
    (RateLimitError "Rate limit exceeded" (Some (Fin 1))) ∅.

Definition default_breaker_options : CircuitBreaker.CircuitBreakerOptions :=
  CircuitBreaker.make_options None None None.

(** A circuit opened by its third failure at clock 300. *)
Definition tripped_states : gmap string CircuitBreaker.CircuitState :=
  {[ "form-1" := {| CircuitBreaker.failures := 3;
                    CircuitBreaker.lastFailureTime := Some 300;
                    CircuitBreaker.isOpen := true;
                    CircuitBreaker.successCount := 0 |} ]}.

(** An operation that counts its invocations and rejects. *)
Definition failing_operation : Operation nat Z :=
  fun calls => (S calls, Threw (PlainError "connect ECONNREFUSED")).

(** An operation that counts its invocations and resolves. *)
Definition succeeding_operation : Operation nat Z :=
  fun calls => (S calls, Returned 200).

(** A breaker that has seen no call yet. *)
Definition no_circuits : gmap string CircuitBreaker.CircuitState := ∅.

Definition slow_result : Outcome Z := Returned 42.

Definition swr_off : Cache.CacheOptions := Cache.make_options (Some 300000) (Some 2) None.

(** [JSON.stringify] on strings that need no escaping. *)
Definition stringify_string (s : string) : option string :=
  Some (String (Ascii.ascii_of_nat 34) (s +:+ String (Ascii.ascii_of_nat 34) EmptyString)).

(** Three entries, none expired at clock 100, in a cache of capacity 2;
    "b" was read last, at 40. *)
Definition crowded : Cache.State string :=
  {| Cache.store :=
       [("a", Cache.mkItem "A" 1000 10 false);
        ("b", Cache.mkItem "B" 1000 40 false);
        ("c", Cache.mkItem "C" 1000 30 false)];
     Cache.evictions := [] |}.

(** The cache as the module's default instance configures it. *)
Definition swr_on : Cache.CacheOptions := Cache.make_options (Some 300000) (Some 100) (Some true).

(** An operation that is answered with 429, retry after 30 s. *)
Definition throttled_operation : Operation nat Z :=
  fun calls => (S calls, Threw (RateLimitError "Rate limit exceeded" (Some (Fin 30)))).

(** An operation that fails until it has been called twice. *)
Definition flaky_operation : Operation nat Z :=
  fun calls =>
    (S calls,
     if (calls <? 2)%nat then Threw (PlainError "socket hang up") else Returned 200).

Definition default_dedup_options : RequestDeduplicator.RequestDeduplicatorOptions :=
  {| RequestDeduplicator.maxAge := 30000; RequestDeduplicator.cleanupInterval := 60000 |}.

(** A stand-in for the platform's URL parser on three URLs. *)
Definition sample_parse (url : string) : Outcome Fetch.ParsedURL :=
  if String.eqb url "https://example.org/form" then
    Returned {| Fetch.protocol := "https:"; Fetch.hostname := "example.org" |}
  else if String.eqb url "https://mylocalhost.example.org/" then
    Returned {| Fetch.protocol := "https:"; Fetch.hostname := "mylocalhost.example.org" |}
  else if String.eqb url "http://example.org/form" then
    Returned {| Fetch.protocol := "http:"; Fetch.hostname := "example.org" |}
  else Threw (PlainError "Invalid URL").

(** A healthy answer to the sample URL. *)
Definition page : Fetch.Response :=
  {| Fetch.status := 200; Fetch.statusText := "OK";
     Fetch.url := "https://example.org/form"; Fetch.retryAfterHeader := None;
     Fetch.body := "<form>open</form>" |}.

(** A fetcher that has done nothing yet. *)
Definition idle_world : Fetch.World :=
  {| Fetch.cache := Cache.empty; Fetch.dedup := RequestDeduplicator.init;
     Fetch.counters := []; Fetch.sent := [] |}.

(** * Properties *)

(** ** The fetch attempt *)

(** C1, counterexample.  A fetch attempt of [ContentFetcher.fetch] that is
    answered with status 429 (retry-after: 30) fails with a network signal,
    not with the rate-limited signal the classification asks for; and an
    attempt aborted by its 10 s timer fails with the abort error itself, not
    with a timeout signal. *)
Lemma fetch_attempt_not_classified :
  (exists e,
      snd (Fetch.fetchWithRetry default_cache_options "https://example.org/form" 0
             (Returned too_many_requests) empty_cache) = Threw e
      /\ kind_of e = KNetwork
      /\ kind_of e <> Fetch.spec_signal_kind (Fetch.status too_many_requests)
      /\ Fetch.retry_after e = None)
  /\ (exists e,
      snd (Fetch.fetchWithRetry default_cache_options "https://example.org/form" 0
             (Threw (AbortError "The user aborted a request.")) empty_cache) = Threw e
      /\ kind_of e <> KTimeout).
Proof.
  split.
  - eexists. split; [reflexivity|]. cbn. repeat split; discriminate.
  - eexists. split; [reflexivity|]. discriminate.
Qed.

(** C1, as amended.  In a fetch attempt of [ContentFetcher.fetch] every
    non-success response fails with a network signal that carries the URL
    and the status, whatever the status, and leaves the cache alone; a
    rejection of the network call (the abort of a timed-out attempt
    included) is rethrown unchanged.  The classification by status is what
    [HttpClient.request] does: 429 gives a rate-limited signal carrying the
    parsed retry-after header if present, 500 and above a network signal,
    other statuses from 400 a validation signal, any other non-OK status a
    network signal, and an aborted request a timeout signal. *)
Theorem fetch_attempt_signals (o : Cache.CacheOptions) (url : string) (now timeout : Z)
    (res : Fetch.Response) (cache : Cache.State Fetch.FetchResult) :
  Fetch.ok res = false ->
  Fetch.fetchWithRetry o url now (Returned res) cache
    = (cache, Threw (NetworkError "Failed to fetch content" (Some url)
                       (Some (Fetch.status res))))
  /\ (forall e, Fetch.fetchWithRetry o url now (Threw e) cache = (cache, Threw e))
  /\ (exists e,
        Fetch.request url timeout (Returned res) = Threw e
        /\ kind_of e = Fetch.spec_signal_kind (Fetch.status res)
        /\ (Fetch.status res = 429 ->
            Fetch.retry_after e = Fetch.retry_after_of (Fetch.retryAfterHeader res)))
  /\ (forall m, exists e,
        Fetch.request url timeout (Threw (AbortError m)) = Threw e /\ kind_of e = KTimeout).
Proof.
  intros Hok. repeat split.
  - unfold Fetch.fetchWithRetry. now rewrite Hok.
  - unfold Fetch.request, Fetch.classify, Fetch.spec_signal_kind. rewrite Hok. cbn.
    destruct (Z.eqb_spec (Fetch.status res) 429) as [E|E].
    + eexists. split; [reflexivity|]. rewrite E. cbn. split; [reflexivity|]. reflexivity.
    + rewrite decide_False by exact E.
      destruct (Z.geb_spec (Fetch.status res) 500) as [G|G].
      * eexists. split; [reflexivity|]. rewrite decide_True by lia. split; [reflexivity|].
        intros; contradiction.
      * rewrite decide_False by lia.
        destruct (Z.geb_spec (Fetch.status res) 400) as [G4|G4].
        -- eexists. split; [reflexivity|]. rewrite decide_True by lia.
           split; [reflexivity|]. intros; contradiction.
        -- eexists. split; [reflexivity|]. rewrite decide_False by lia.
           split; [reflexivity|]. intros; contradiction.
  - intros m. eexists. split; reflexivity.
Qed.

(** On the 429 response of the sample data, [HttpClient.request] gives the
    rate-limited signal with the parsed retry-after. *)
Lemma fetch_attempt_signals_witness :
  Fetch.ok too_many_requests = false
  /\ exists e,
       Fetch.request "https://example.org/form" 10000 (Returned too_many_requests) = Threw e
       /\ kind_of e = KRateLimited
       /\ Fetch.retry_after e = Some (Fin 30).
Proof.
  split; [reflexivity|].
  destruct (fetch_attempt_signals default_cache_options "https://example.org/form" 0 10000
              too_many_requests empty_cache eq_refl) as (_ & _ & (e & He & Hk & Hr) & _).
  exists e. split; [exact He|]. split; [exact Hk|]. exact (Hr eq_refl).
Defined.

(** ** The rate limiter *)

Lemma roll_count (o : RateLimiter.InternalRateLimitOptions) (now : Z)
    (s : RateLimiter.RateLimitState) :
  RateLimiter.count (RateLimiter.roll o now s)
    = if decide (RateLimiter.resetTime s < now) then 0 else RateLimiter.count s.
Proof.
  unfold RateLimiter.roll.
  destruct (Z.gtb_spec now (RateLimiter.resetTime s)); case_decide; try lia; reflexivity.
Qed.

Lemma isAllowed_allowed (o : RateLimiter.InternalRateLimitOptions) (key : string) (now : Z)
    (states : gmap string RateLimiter.RateLimitState) :
  RateLimiter.allowed (fst (RateLimiter.isAllowed o key now states)) = true.
Proof. unfold RateLimiter.isAllowed. destruct (states !! key); reflexivity. Qed.

Lemma isAllowed_lookup (o : RateLimiter.InternalRateLimitOptions) (key k : string) (now : Z)
    (states : gmap string RateLimiter.RateLimitState) :
  snd (RateLimiter.isAllowed o key now states) !! k
    = match states !! k with
      | Some s =>
          if decide (k = key) then Some (RateLimiter.roll o now s) else Some s
      | None => None
      end.
Proof.
  unfold RateLimiter.isAllowed.
  destruct (states !! key) as [stored|] eqn:Hkey; cbn.
  - destruct (decide (k = key)) as [->|Hne].
    + rewrite lookup_insert_eq, Hkey. reflexivity.
    + rewrite lookup_insert_ne by congruence. destruct (states !! k); reflexivity.
  - destruct (states !! k) eqn:Hk; [|reflexivity].
    case_decide; [congruence|reflexivity].
Qed.

Lemma checks_allowed (o : RateLimiter.InternalRateLimitOptions) (key : string)
    (nows : list Z) (states : gmap string RateLimiter.RateLimitState) :
  Forall (fun v => RateLimiter.allowed v = true) (fst (RateLimiter.checks o key nows states)).
Proof.
  revert states. induction nows as [|now rest IH]; intros states; cbn.
  - constructor.
  - pose proof (isAllowed_allowed o key now states) as Ha.
    destruct (RateLimiter.isAllowed o key now states) as [v states1].
    specialize (IH states1).
    destruct (RateLimiter.checks o key rest states1) as [vs states2].
    constructor; assumption.
Qed.

(** C2.  Whatever the limiter's state (so after any sequence of calls),
    [isAllowed(key)] reports [allowed = true] and
    [remaining = max(0, maxRequests - count)] for the count of the key's
    current window; the check never increments a counter (a stored count
    stays as it is or is reset to 0), every check of a sequence of checks is
    allowed, and [execute(key, fn)] always invokes [fn] and completes as
    [fn] does, never with a rejection of its own. *)
Theorem rate_limiter_never_throttles {W T : Type}
    (o : RateLimiter.InternalRateLimitOptions) (key : string) (now now_caught : Z)
    (states : gmap string RateLimiter.RateLimitState) (fn : Operation W T) (w : W) :
  RateLimiter.allowed (fst (RateLimiter.isAllowed o key now states)) = true
  /\ RateLimiter.remaining (fst (RateLimiter.isAllowed o key now states))
      = Z.max 0 (RateLimiter.maxRequests o - RateLimiter.spec_window_count key now states)
  /\ (forall k s',
        snd (RateLimiter.isAllowed o key now states) !! k = Some s' ->
        exists s, states !! k = Some s
                  /\ (RateLimiter.count s' = RateLimiter.count s
                      \/ RateLimiter.count s' = 0))
  /\ (forall nows,
        Forall (fun v => RateLimiter.allowed v = true)
          (fst (RateLimiter.checks o key nows states)))
  /\ snd (RateLimiter.execute o key now now_caught fn (states, w)) = snd (fn w)
  /\ snd (fst (RateLimiter.execute o key now now_caught fn (states, w))) = fst (fn w).
Proof.
  split; [apply isAllowed_allowed|].
  split.
  { unfold RateLimiter.isAllowed, RateLimiter.spec_window_count.
    destruct (states !! key) as [stored|]; cbn.
    - rewrite roll_count. reflexivity.
    - unfold RateLimiter.roll. destruct (_ >? _); reflexivity. }
  split.
  { intros k s' Hs'. rewrite isAllowed_lookup in Hs'.
    destruct (states !! k) as [s|]; [|discriminate].
    exists s. split; [reflexivity|].
    case_decide; inversion Hs'; subst; [|left; reflexivity].
    rewrite roll_count. case_decide; [right|left]; reflexivity. }
  split; [intros nows; apply checks_allowed|].
  unfold RateLimiter.execute.
  pose proof (isAllowed_allowed o key now states) as Ha.
  destruct (RateLimiter.isAllowed o key now states) as [v states1]. cbn in Ha.
  rewrite Ha. cbn.
  destruct (fn w) as [w' [x|e]]; split; reflexivity.
Qed.

(** On the sample limiter: a key marked as limited is still allowed, with
    nothing remaining, and [execute] runs the operation. *)
Lemma rate_limiter_never_throttles_witness :
  RateLimiter.remaining (fst (RateLimiter.isAllowed default_limiter_options "api" 500
                                limited_states)) = 0
  /\ snd (RateLimiter.execute default_limiter_options "api" 500 600 failing_operation
            (limited_states, 0%nat)) = Threw (PlainError "connect ECONNREFUSED")
  /\ exists s,
       limited_states !! "api" = Some s
       /\ (RateLimiter.count {| RateLimiter.count := 0; RateLimiter.resetTime := 62000 |}
           = RateLimiter.count s
           \/ RateLimiter.count {| RateLimiter.count := 0; RateLimiter.resetTime := 62000 |}
              = 0).
Proof.
  destruct (rate_limiter_never_throttles default_limiter_options "api" 500 600
              limited_states failing_operation 0%nat) as (_ & Hrem & _ & _ & Hout & _).
  destruct (rate_limiter_never_throttles default_limiter_options "api" 2000 2100
              limited_states failing_operation 0%nat) as (_ & _ & Hcount & _).
  split; [rewrite Hrem; reflexivity|]. split; [exact Hout|].
  exact (Hcount "api" {| RateLimiter.count := 0; RateLimiter.resetTime := 62000 |} eq_refl).
Defined.

(** C10, counterexample.  For a key whose recorded window has passed, one
    [isAllowed] call rewrites the stored state ([count] 100 becomes 0,
    [resetTime] 1000 becomes 62000), so [getState] differs before and after,
    and a later check at clock 3000 observes another [resetTime] than it
    would have without the earlier check. *)
Lemma isAllowed_mutates_expired_window :
  RateLimiter.getState "api" limited_states
    = Some {| RateLimiter.count := 100; RateLimiter.resetTime := 1000 |}
  /\ RateLimiter.getState "api"
       (snd (RateLimiter.isAllowed default_limiter_options "api" 2000 limited_states))
     = Some {| RateLimiter.count := 0; RateLimiter.resetTime := 62000 |}
  /\ RateLimiter.getState "api"
       (snd (RateLimiter.isAllowed default_limiter_options "api" 2000 limited_states))
     <> RateLimiter.getState "api" limited_states
  /\ RateLimiter.verdictResetTime
       (fst (RateLimiter.isAllowed default_limiter_options "api" 3000
               (snd (RateLimiter.isAllowed default_limiter_options "api" 2000
                       limited_states))))
     <> RateLimiter.verdictResetTime
          (fst (RateLimiter.isAllowed default_limiter_options "api" 3000 limited_states)).
Proof. vm_compute. repeat split; discriminate. Qed.

(** C10, as amended.  [isAllowed(key)] never adds a key to the state map
    nor removes one, and leaves the state of every other key as it is; the
    state of [key] itself is left as it is unless its window has passed
    ([now > resetTime]), in which case it is reset in place to count 0 and
    [resetTime = now + timeWindow].  For a key without a state (one that
    never went through the failure-recording path of [execute]) any number
    of checks leaves the whole map unchanged, so [getState(key)] stays
    undefined. *)
Theorem isAllowed_frame (o : RateLimiter.InternalRateLimitOptions) (key : string) (now : Z)
    (states : gmap string RateLimiter.RateLimitState) :
  (forall k,
      RateLimiter.getState k (snd (RateLimiter.isAllowed o key now states))
      = match RateLimiter.getState k states with
        | Some s =>
            if decide (k = key /\ RateLimiter.resetTime s < now)
            then Some {| RateLimiter.count := 0;
                         RateLimiter.resetTime := now + RateLimiter.timeWindow o |}
            else Some s
        | None => None
        end)
  /\ (RateLimiter.getState key states = None ->
      forall nows,
        snd (RateLimiter.checks o key nows states) = states
        /\ RateLimiter.getState key (snd (RateLimiter.checks o key nows states)) = None).
Proof.
  split.
  - intros k. unfold RateLimiter.getState. rewrite isAllowed_lookup.
    destruct (states !! k) as [s|]; [|reflexivity].
    unfold RateLimiter.roll.
    destruct (decide (k = key)) as [->|Hne].
    + destruct (Z.gtb_spec now (RateLimiter.resetTime s)).
      * rewrite decide_True by (split; [reflexivity|lia]). reflexivity.
      * rewrite decide_False by lia. reflexivity.
    + rewrite decide_False by tauto. reflexivity.
  - unfold RateLimiter.getState. intros Hnone nows.
    assert (Hsame : snd (RateLimiter.checks o key nows states) = states).
    { induction nows as [|t rest IH]; cbn; [reflexivity|].
      unfold RateLimiter.isAllowed. rewrite Hnone.
      destruct (RateLimiter.checks o key rest states) as [vs states2]. exact IH. }
    rewrite Hsame. split; [reflexivity|exact Hnone].
Qed.

(** Three checks of a key without state leave the sample limiter as it is. *)
Lemma isAllowed_frame_witness :
  RateLimiter.getState "fresh" limited_states = None
  /\ snd (RateLimiter.checks default_limiter_options "fresh" [0; 70000; 200000]
            limited_states) = limited_states.
Proof.
  assert (H : RateLimiter.getState "fresh" limited_states = None) by reflexivity.
  split; [exact H|].
  exact (proj1 (proj2 (isAllowed_frame default_limiter_options "fresh" 0 limited_states)
                  H [0; 70000; 200000])).
Defined.

(** ** The circuit breaker *)

Lemma ceil_div_1000 (x : Z) :
  1000 * (ceil_div x 1000 - 1) < x <= 1000 * ceil_div x 1000.
Proof.
  unfold ceil_div.
  pose proof (Z.div_mod (- x) 1000 ltac:(lia)).
  pose proof (Z.mod_pos_bound (- x) 1000 ltac:(lia)).
  lia.
Qed.

Lemma getState_setState (key : string) (s : CircuitBreaker.CircuitState)
    (states : gmap string CircuitBreaker.CircuitState) :
  CircuitBreaker.getState key (CircuitBreaker.setState key s states) = s.
Proof.
  unfold CircuitBreaker.getState, CircuitBreaker.setState.
  now rewrite lookup_insert_eq.
Qed.

Section CircuitBreakerFacts.
Context {W T : Type}.
Variable o : CircuitBreaker.CircuitBreakerOptions.
Variable key : string.

Lemma on_entry_closed (now : Z) (states : gmap string CircuitBreaker.CircuitState) :
  CircuitBreaker.isOpen (CircuitBreaker.getState key states) = false ->
  CircuitBreaker.on_entry o key now states = inr states.
Proof. intros H. unfold CircuitBreaker.on_entry. now rewrite H. Qed.

Lemma on_entry_open_within (now t : Z) (states : gmap string CircuitBreaker.CircuitState) :
  CircuitBreaker.isOpen (CircuitBreaker.getState key states) = true ->
  CircuitBreaker.lastFailureTime (CircuitBreaker.getState key states) = Some t ->
  now - t <= CircuitBreaker.timeoutMs o ->
  CircuitBreaker.on_entry o key now states
    = inl (CircuitBreaker.unavailable key
             (ceil_div (CircuitBreaker.timeoutMs o - (now - t)) 1000)
             (CircuitBreaker.getState key states)).
Proof.
  intros Hopen Ht Hle. unfold CircuitBreaker.on_entry. rewrite Hopen, Ht. cbn.
  destruct (Z.eqb_spec t 0) as [->|Hne]; cbn.
  - reflexivity.
  - destruct (Z.gtb_spec (now - t) (CircuitBreaker.timeoutMs o)); [lia|reflexivity].
Qed.

Lemma on_entry_open_elapsed (now t : Z) (states : gmap string CircuitBreaker.CircuitState) :
  CircuitBreaker.isOpen (CircuitBreaker.getState key states) = true ->
  CircuitBreaker.lastFailureTime (CircuitBreaker.getState key states) = Some t ->
  t <> 0 ->
  CircuitBreaker.timeoutMs o < now - t ->
  CircuitBreaker.on_entry o key now states
    = inr (CircuitBreaker.setState key
             {| CircuitBreaker.failures :=
                  CircuitBreaker.failures (CircuitBreaker.getState key states);
                CircuitBreaker.lastFailureTime := Some t;
                CircuitBreaker.isOpen := false;
                CircuitBreaker.successCount := 0 |} states).
Proof.
  intros Hopen Ht Hne Hlt. unfold CircuitBreaker.on_entry. rewrite Hopen, Ht. cbn.
  destruct (Z.eqb_spec t 0); [contradiction|]. cbn.
  destruct (Z.gtb_spec (now - t) (CircuitBreaker.timeoutMs o)); [reflexivity|lia].
Qed.

Lemma execute_open_within (now t : Z) (operation : Operation W T)
    (states : gmap string CircuitBreaker.CircuitState) (w : W) :
  CircuitBreaker.isOpen (CircuitBreaker.getState key states) = true ->
  CircuitBreaker.lastFailureTime (CircuitBreaker.getState key states) = Some t ->
  now - t <= CircuitBreaker.timeoutMs o ->
  CircuitBreaker.execute o key now operation (states, w)
    = ((states, w),
       Threw (ServiceUnavailableError
                ("Service " +:+ key +:+ " is temporarily unavailable due to circuit breaker")
                (ceil_div (CircuitBreaker.timeoutMs o - (now - t)) 1000) key (Some t))).
Proof.
  intros Hopen Ht Hle. unfold CircuitBreaker.execute.
  rewrite (on_entry_open_within now t) by assumption.
  unfold CircuitBreaker.unavailable. rewrite Ht. reflexivity.
Qed.

Lemma execute_closed (now : Z) (operation : Operation W T)
    (states : gmap string CircuitBreaker.CircuitState) (w : W) :
  CircuitBreaker.isOpen (CircuitBreaker.getState key states) = false ->
  CircuitBreaker.execute o key now operation (states, w)
    = match snd (operation w) with
      | Returned v =>
          ((CircuitBreaker.on_success o key states, fst (operation w)), Returned v)
      | Threw e =>
          ((CircuitBreaker.on_failure o key now states, fst (operation w)), Threw e)
      end.
Proof.
  intros H. unfold CircuitBreaker.execute. rewrite on_entry_closed by exact H.
  destruct (operation w) as [w' [v|e]]; reflexivity.
Qed.

(** An open circuit whose timeout has elapsed is first half-closed, then
    the call goes on as through a closed circuit. *)
Lemma execute_elapsed (now t : Z) (operation : Operation W T)
    (states : gmap string CircuitBreaker.CircuitState) (w : W) :
  CircuitBreaker.isOpen (CircuitBreaker.getState key states) = true ->
  CircuitBreaker.lastFailureTime (CircuitBreaker.getState key states) = Some t ->
  t <> 0 ->
  CircuitBreaker.timeoutMs o < now - t ->
  CircuitBreaker.execute o key now operation (states, w)
    = CircuitBreaker.execute o key now operation
        (CircuitBreaker.setState key
           {| CircuitBreaker.failures :=
                CircuitBreaker.failures (CircuitBreaker.getState key states);
              CircuitBreaker.lastFailureTime := Some t;
              CircuitBreaker.isOpen := false;
              CircuitBreaker.successCount := 0 |} states, w).
Proof.
  intros Hopen Ht Hne Hlt. unfold CircuitBreaker.execute at 1.
  rewrite (on_entry_open_elapsed now t) by assumption.
  unfold CircuitBreaker.execute.
  rewrite on_entry_closed by (now rewrite getState_setState).
  reflexivity.
Qed.

Lemma run_app (calls1 calls2 : list (Z * Operation W T))
    (st : gmap string CircuitBreaker.CircuitState * W) :
  CircuitBreaker.run o key (calls1 ++ calls2) st
    = let (st1, rs1) := CircuitBreaker.run o key calls1 st in
      let (st2, rs2) := CircuitBreaker.run o key calls2 st1 in
      (st2, rs1 ++ rs2).
Proof.
  revert st. induction calls1 as [|[now operation] rest IH]; intros st; cbn.
  - destruct (CircuitBreaker.run o key calls2 st). reflexivity.
  - destruct (CircuitBreaker.execute o key now operation st) as [st1 r].
    rewrite IH.
    destruct (CircuitBreaker.run o key rest st1) as [st2 rs].
    destruct (CircuitBreaker.run o key calls2 st2) as [st3 rs2]. reflexivity.
Qed.

(** Successes through a circuit that is not open: the counter climbs and
    the success that reaches the threshold resets the state. *)
Lemma run_successes (calls : list (Z * Operation W T)) :
  Forall (fun c => always_returns (snd c)) calls ->
  forall (states : gmap string CircuitBreaker.CircuitState) (w : W),
    calls <> [] ->
    CircuitBreaker.isOpen (CircuitBreaker.getState key states) = false ->
    CircuitBreaker.successCount (CircuitBreaker.getState key states)
      + Z.of_nat (length calls) = CircuitBreaker.successThreshold o ->
    exists states' vs,
      CircuitBreaker.run o key calls (states, w)
        = ((states', after_operations (map snd calls) w), map Returned vs)
      /\ length vs = length calls
      /\ CircuitBreaker.getState key states' = CircuitBreaker.closed.
Proof.
  induction 1 as [|[now operation] rest Hret Hrest IH]; intros states w Hne Hclosed Hcount.
  - contradiction.
  - cbn [CircuitBreaker.run]. rewrite execute_closed by exact Hclosed.
    destruct (Hret w) as [v Hv]. cbn in Hv. rewrite Hv.
    destruct rest as [|c rest'].
    + cbn. exists (CircuitBreaker.on_success o key states), [v].
      split; [reflexivity|]. split; [reflexivity|].
      unfold CircuitBreaker.on_success. cbn in Hcount.
      destruct (Z.geb_spec
                  (CircuitBreaker.successCount (CircuitBreaker.getState key states) + 1)
                  (CircuitBreaker.successThreshold o)); [|lia].
      apply getState_setState.
    + destruct (IH (CircuitBreaker.on_success o key states) (fst (operation w)))
        as (states' & vs & Hrun & Hlen & Hfinal).
      * discriminate.
      * unfold CircuitBreaker.on_success. cbn [length] in Hcount.
        destruct (Z.geb_spec
                    (CircuitBreaker.successCount (CircuitBreaker.getState key states) + 1)
                    (CircuitBreaker.successThreshold o)); [lia|].
        rewrite getState_setState. exact Hclosed.
      * unfold CircuitBreaker.on_success. cbn [length] in Hcount |- *.
        destruct (Z.geb_spec
                    (CircuitBreaker.successCount (CircuitBreaker.getState key states) + 1)
                    (CircuitBreaker.successThreshold o)); [lia|].
        rewrite getState_setState. cbn. lia.
      * rewrite Hrun. exists states', (v :: vs).
        split; [reflexivity|]. split; [cbn; now rewrite Hlen|exact Hfinal].
Qed.

End CircuitBreakerFacts.

(** C3.  When the circuit of a key is open and [now - lastFailureTime] is at
    most [timeoutMs], [execute(key, operation)] rejects at once with a
    service-unavailable signal whose [retryAfter] is
    [ceil((timeoutMs - elapsed) / 1000)], and the operation is not invoked:
    the breaker's states and the caller's world are as before, whatever the
    operation. *)
Theorem open_circuit_fails_fast {W T : Type} (o : CircuitBreaker.CircuitBreakerOptions)
    (key : string) (now t : Z) (states : gmap string CircuitBreaker.CircuitState)
    (operation : Operation W T) (w : W) :
  CircuitBreaker.isOpen (CircuitBreaker.getState key states) = true ->
  CircuitBreaker.lastFailureTime (CircuitBreaker.getState key states) = Some t ->
  now - t <= CircuitBreaker.timeoutMs o ->
  exists message retryAfter,
    CircuitBreaker.execute o key now operation (states, w)
      = ((states, w), Threw (ServiceUnavailableError message retryAfter key (Some t)))
    /\ retryAfter = ceil_div (CircuitBreaker.timeoutMs o - (now - t)) 1000
    /\ 1000 * (retryAfter - 1) < CircuitBreaker.timeoutMs o - (now - t) <= 1000 * retryAfter.
Proof.
  intros Hopen Ht Hle.
  eexists _, (ceil_div (CircuitBreaker.timeoutMs o - (now - t)) 1000).
  split; [|split; [reflexivity|apply ceil_div_1000]].
  now apply execute_open_within.
Qed.

(** The sample circuit, tripped at 300, rejects a call at 400 with a
    retry-after of 10 s. *)
Lemma open_circuit_fails_fast_witness :
  exists message,
    CircuitBreaker.execute default_breaker_options "form-1" 400 failing_operation
      (tripped_states, 0%nat)
    = ((tripped_states, 0%nat), Threw (ServiceUnavailableError message 10 "form-1" (Some 300))).
Proof.
  destruct (open_circuit_fails_fast default_breaker_options "form-1" 400 300 tripped_states
              failing_operation 0%nat eq_refl eq_refl ltac:(vm_compute; discriminate))
    as (message & retryAfter & Hrun & Hceil & _).
  exists message. rewrite Hrun, Hceil. reflexivity.
Defined.

(** C4.  With [failureThreshold = 3], on a key with no failures and a
    circuit that is not open: three calls whose operations fail leave the
    circuit open; a fourth call before the timeout has elapsed fails fast
    with a service-unavailable signal and a positive retry-after, without
    invoking its operation; once the clock is past [timeoutMs] after the
    last failure the next call is let through to its operation; and when
    that call and the following ones, [successThreshold] in all, succeed,
    the key's state is reset to [{0, 0, null, false}]. *)
Theorem circuit_opens_and_recovers {W T : Type} (o : CircuitBreaker.CircuitBreakerOptions)
    (key : string) (states : gmap string CircuitBreaker.CircuitState) (w0 : W)
    (t1 t2 t3 t4 t5 : Z) (f1 f2 f3 op4 op5 g : Operation W T)
    (gs : list (Z * Operation W T)) :
  CircuitBreaker.failureThreshold o = 3 ->
  CircuitBreaker.failures (CircuitBreaker.getState key states) = 0 ->
  CircuitBreaker.isOpen (CircuitBreaker.getState key states) = false ->
  always_throws f1 -> always_throws f2 -> always_throws f3 ->
  t3 <> 0 ->
  t4 - t3 < CircuitBreaker.timeoutMs o ->
  CircuitBreaker.timeoutMs o < t5 - t3 ->
  always_returns g ->
  Forall (fun c => always_returns (snd c)) gs ->
  Z.of_nat (S (length gs)) = CircuitBreaker.successThreshold o ->
  exists opened e1 e2 e3 message retryAfter final vs,
    let w3 := after_operations [f1; f2; f3] w0 in
    CircuitBreaker.run o key [(t1, f1); (t2, f2); (t3, f3)] (states, w0)
      = ((opened, w3), [Threw e1; Threw e2; Threw e3])
    /\ CircuitBreaker.getState key opened
       = {| CircuitBreaker.failures := 3;
            CircuitBreaker.lastFailureTime := Some t3;
            CircuitBreaker.isOpen := true;
            CircuitBreaker.successCount := 0 |}
    /\ CircuitBreaker.execute o key t4 op4 (opened, w3)
       = ((opened, w3), Threw (ServiceUnavailableError message retryAfter key (Some t3)))
    /\ 0 < retryAfter
    /\ snd (fst (CircuitBreaker.execute o key t5 op5 (opened, w3))) = fst (op5 w3)
    /\ snd (CircuitBreaker.execute o key t5 op5 (opened, w3)) = snd (op5 w3)
    /\ CircuitBreaker.run o key
         ([(t1, f1); (t2, f2); (t3, f3); (t4, op4)] ++ (t5, g) :: gs) (states, w0)
       = ((final, after_operations ([f1; f2; f3] ++ g :: map snd gs) w0),
          [Threw e1; Threw e2; Threw e3;
           Threw (ServiceUnavailableError message retryAfter key (Some t3))]
            ++ map Returned vs)
    /\ length vs = S (length gs)
    /\ CircuitBreaker.getState key final = CircuitBreaker.closed.
Proof.
  intros Hthr Hfail Hclosed Hf1 Hf2 Hf3 Ht3 Hbefore Hafter Hg Hgs Hlen.
  (* the three failures *)
  destruct (Hf1 w0) as [e1 He1].
  set (w1 := fst (f1 w0)). set (s1 := CircuitBreaker.on_failure o key t1 states).
  assert (R1 : CircuitBreaker.execute o key t1 f1 (states, w0) = ((s1, w1), Threw e1)).
  { rewrite execute_closed by exact Hclosed. now rewrite He1. }
  assert (G1 : CircuitBreaker.getState key s1
               = {| CircuitBreaker.failures := 1; CircuitBreaker.lastFailureTime := Some t1;
                    CircuitBreaker.isOpen := false; CircuitBreaker.successCount := 0 |}).
  { unfold s1, CircuitBreaker.on_failure. rewrite getState_setState, Hfail, Hthr.
    reflexivity. }
  destruct (Hf2 w1) as [e2 He2].
  set (w2 := fst (f2 w1)). set (s2 := CircuitBreaker.on_failure o key t2 s1).
  assert (R2 : CircuitBreaker.execute o key t2 f2 (s1, w1) = ((s2, w2), Threw e2)).
  { rewrite execute_closed by (now rewrite G1). now rewrite He2. }
  assert (G2 : CircuitBreaker.getState key s2
               = {| CircuitBreaker.failures := 2; CircuitBreaker.lastFailureTime := Some t2;
                    CircuitBreaker.isOpen := false; CircuitBreaker.successCount := 0 |}).
  { unfold s2, CircuitBreaker.on_failure. rewrite getState_setState, G1, Hthr.
    reflexivity. }
  destruct (Hf3 w2) as [e3 He3].
  set (w3 := fst (f3 w2)). set (s3 := CircuitBreaker.on_failure o key t3 s2).
  assert (R3 : CircuitBreaker.execute o key t3 f3 (s2, w2) = ((s3, w3), Threw e3)).
  { rewrite execute_closed by (now rewrite G2). now rewrite He3. }
  assert (G3 : CircuitBreaker.getState key s3
               = {| CircuitBreaker.failures := 3; CircuitBreaker.lastFailureTime := Some t3;
                    CircuitBreaker.isOpen := true; CircuitBreaker.successCount := 0 |}).
  { unfold s3, CircuitBreaker.on_failure. rewrite getState_setState, G2, Hthr.
    reflexivity. }
  assert (Run3 : CircuitBreaker.run o key [(t1, f1); (t2, f2); (t3, f3)] (states, w0)
                 = ((s3, w3), [Threw e1; Threw e2; Threw e3])).
  { cbn [CircuitBreaker.run]. rewrite R1, R2, R3. reflexivity. }
  (* the fast failure *)
  set (r := ceil_div (CircuitBreaker.timeoutMs o - (t4 - t3)) 1000).
  pose proof (ceil_div_1000 (CircuitBreaker.timeoutMs o - (t4 - t3))) as Hbound.
  fold r in Hbound.
  set (message := "Service " +:+ key +:+ " is temporarily unavailable due to circuit breaker").
  assert (R4 : CircuitBreaker.execute o key t4 op4 (s3, w3)
               = ((s3, w3), Threw (ServiceUnavailableError message r key (Some t3)))).
  { apply execute_open_within; try (now rewrite G3). lia. }
  (* the calls after the timeout *)
  set (half := CircuitBreaker.setState key
                 {| CircuitBreaker.failures := CircuitBreaker.failures
                                                 (CircuitBreaker.getState key s3);
                    CircuitBreaker.lastFailureTime := Some t3;
                    CircuitBreaker.isOpen := false;
                    CircuitBreaker.successCount := 0 |} s3).
  assert (Through : forall operation : Operation W T,
             CircuitBreaker.execute o key t5 operation (s3, w3)
             = CircuitBreaker.execute o key t5 operation (half, w3)).
  { intros operation. apply execute_elapsed; try (now rewrite G3); assumption. }
  assert (Hhalf : CircuitBreaker.getState key half
                  = {| CircuitBreaker.failures := 3; CircuitBreaker.lastFailureTime := Some t3;
                       CircuitBreaker.isOpen := false; CircuitBreaker.successCount := 0 |}).
  { unfold half. rewrite getState_setState, G3. reflexivity. }
  destruct (run_successes o key ((t5, g) :: gs) ltac:(constructor; assumption) half w3)
    as (final & vs & Run5 & Hvs & Hfinal).
  { discriminate. }
  { now rewrite Hhalf. }
  { rewrite Hhalf. cbn [CircuitBreaker.successCount length]. lia. }
  exists s3, e1, e2, e3, message, r, final, vs.
  cbn zeta. change (after_operations [f1; f2; f3] w0) with w3.
  split; [exact Run3|]. split; [exact G3|]. split; [exact R4|].
  split; [lia|].
  split.
  { rewrite Through, execute_closed by (now rewrite Hhalf).
    destruct (snd (op5 w3)); reflexivity. }
  split.
  { rewrite Through, execute_closed by (now rewrite Hhalf).
    destruct (snd (op5 w3)); reflexivity. }
  split; [|split; [exact Hvs|exact Hfinal]].
  change [(t1, f1); (t2, f2); (t3, f3); (t4, op4)]
    with ([(t1, f1); (t2, f2); (t3, f3)] ++ [(t4, op4)]).
  rewrite <- app_assoc, run_app, Run3.
  cbn [app CircuitBreaker.run]. rewrite R4, Through.
  cbn [CircuitBreaker.run] in Run5.
  destruct (CircuitBreaker.execute o key t5 g (half, w3)) as [st5 r5].
  destruct (CircuitBreaker.run o key gs st5) as [st6 rs6].
  inversion Run5; subst.
  reflexivity.
Qed.

Lemma no_circuits_closed (key : string) :
  CircuitBreaker.getState key no_circuits = CircuitBreaker.closed.
Proof. unfold CircuitBreaker.getState, no_circuits. now rewrite lookup_empty. Qed.

Lemma failing_operation_throws : always_throws failing_operation.
Proof. intros w. eexists. reflexivity. Qed.

Lemma succeeding_operation_returns : always_returns succeeding_operation.
Proof. intros w. eexists. reflexivity. Qed.

(** The default breaker through three failures, a fast failure, and two
    successes after the timeout. *)
Lemma circuit_opens_and_recovers_witness :
  exists final retryAfter,
    fst (fst (CircuitBreaker.run default_breaker_options "form-1"
                [(100, failing_operation); (200, failing_operation);
                 (300, failing_operation); (400, failing_operation);
                 (10400, succeeding_operation); (10500, succeeding_operation)]
                (no_circuits, 0%nat))) = final
    /\ 0 < retryAfter
    /\ CircuitBreaker.getState "form-1" final = CircuitBreaker.closed.
Proof.
  destruct (circuit_opens_and_recovers default_breaker_options "form-1" no_circuits 0%nat
              100 200 300 400 10400
              failing_operation failing_operation failing_operation failing_operation
              succeeding_operation succeeding_operation [(10500, succeeding_operation)]
              eq_refl
              (f_equal CircuitBreaker.failures (no_circuits_closed "form-1"))
              (f_equal CircuitBreaker.isOpen (no_circuits_closed "form-1"))
              failing_operation_throws failing_operation_throws failing_operation_throws
              ltac:(discriminate) eq_refl eq_refl
              succeeding_operation_returns
              ltac:(repeat constructor; exact succeeding_operation_returns)
              eq_refl)
    as (opened & e1 & e2 & e3 & message & retryAfter & final & vs
        & _ & _ & _ & Hpos & _ & _ & Hrun & _ & Hfinal).
  exists final, retryAfter.
  split; [exact (f_equal (fun x => fst (fst x)) Hrun)|].
  split; [exact Hpos|exact Hfinal].
Defined.

(** ** The retry policy *)

(** ** Rounding to the nearest double *)

Section DoubleFacts.
Local Open Scope Q_scope.

Lemma pow2_pos (k : Z) : 0 < 2 ^ k.
Proof. apply Qpower_0_lt. reflexivity. Qed.

Lemma pow2_plus (a b : Z) : 2 ^ (a + b) == 2 ^ a * 2 ^ b.
Proof. apply Qpower_plus. discriminate. Qed.

Lemma pow2_Z (k : Z) : (0 <= k)%Z -> inject_Z (2 ^ k) == 2 ^ k.
Proof. intros Hk. now rewrite Zpower_Qpower. Qed.

Lemma nearest_even_cases (q : Q) :
  let f := Qfloor q in
  (Double.nearest_even q = f /\ q - inject_Z f <= 1 # 2)
  \/ (Double.nearest_even q = (f + 1)%Z /\ 1 # 2 <= q - inject_Z f).
Proof.
  cbn zeta. unfold Double.nearest_even.
  destruct ((q - inject_Z (Qfloor q)) ?= (1 # 2)) eqn:Hc.
  - apply Qeq_alt in Hc. destruct (Z.even (Qfloor q)); [left|right]; (split; [reflexivity|]); lra.
  - apply Qlt_alt in Hc. left. split; [reflexivity|lra].
  - apply Qgt_alt in Hc. right. split; [reflexivity|lra].
Qed.

Lemma floor_bounds (q : Q) : inject_Z (Qfloor q) <= q /\ q < inject_Z (Qfloor q) + 1.
Proof.
  split; [apply Qfloor_le|].
  pose proof (Qlt_floor q) as H. rewrite inject_Z_plus in H. exact H.
Qed.

Lemma nearest_even_error (q : Q) :
  q - (1 # 2) <= inject_Z (Double.nearest_even q) <= q + (1 # 2).
Proof.
  destruct (floor_bounds q) as [Hl Hu].
  destruct (nearest_even_cases q) as [[-> H]|[-> H]].
  - split; lra.
  - rewrite inject_Z_plus. change (inject_Z 1) with 1. split; lra.
Qed.

Lemma nearest_even_Z (z : Z) : Double.nearest_even (inject_Z z) = z.
Proof.
  unfold Double.nearest_even. rewrite Qfloor_Z.
  assert (H : ((inject_Z z - inject_Z z) ?= (1 # 2)) = Lt).
  { apply (proj1 (Qlt_alt _ _)). lra. }
  now rewrite H.
Qed.

Lemma nearest_even_mono (p q : Q) :
  p <= q -> (Double.nearest_even p <= Double.nearest_even q)%Z.
Proof.
  intros Hpq.
  pose proof (Qfloor_resp_le _ _ Hpq) as Hf.
  destruct (Z.eq_dec (Qfloor p) (Qfloor q)) as [Heq|Hne].
  - unfold Double.nearest_even. rewrite Heq.
    destruct ((p - inject_Z (Qfloor q)) ?= (1 # 2)) eqn:Hp;
      destruct ((q - inject_Z (Qfloor q)) ?= (1 # 2)) eqn:Hq;
      try (destruct (Z.even (Qfloor q))); try lia;
      first [apply Qeq_alt in Hp | apply Qlt_alt in Hp | apply Qgt_alt in Hp];
      first [apply Qeq_alt in Hq | apply Qlt_alt in Hq | apply Qgt_alt in Hq];
      exfalso; lra.
  - destruct (nearest_even_cases p) as [[-> _]|[-> _]];
      destruct (nearest_even_cases q) as [[-> _]|[-> _]]; lia.
Qed.

Lemma exponent_spec (x : Q) :
  0 < x -> 2 ^ Double.exponent x <= x /\ x < 2 ^ (Double.exponent x + 1).
Proof.
  intros Hx. destruct x as [n d]. unfold Double.exponent. cbn [Qnum Qden].
  assert (Hn : (0 < n)%Z).
  { unfold Qlt in Hx. cbn in Hx. lia. }
  set (a := Z.log2 n). set (b := Z.log2 (Z.pos d)).
  destruct (Z.log2_spec n Hn) as [Hn1 Hn2]. fold a in Hn1, Hn2.
  destruct (Z.log2_spec (Z.pos d) ltac:(lia)) as [Hd1 Hd2]. fold b in Hd1, Hd2.
  assert (Ha : (0 <= a)%Z) by apply Z.log2_nonneg.
  assert (Hb : (0 <= b)%Z) by apply Z.log2_nonneg.
  assert (Hx' : n # d == inject_Z n / inject_Z (Z.pos d)) by apply Qmake_Qdiv.
  assert (HdQ : 0 < inject_Z (Z.pos d)) by reflexivity.
  assert (Hn1Q : 2 ^ a <= inject_Z n) by (rewrite <- pow2_Z by lia; now rewrite <- Zle_Qle).
  assert (Hn2Q : inject_Z n < 2 ^ (a + 1)) by (rewrite <- pow2_Z by lia; now rewrite <- Zlt_Qlt).
  assert (Hd1Q : 2 ^ b <= inject_Z (Z.pos d)) by (rewrite <- pow2_Z by lia; now rewrite <- Zle_Qle).
  assert (Hd2Q : inject_Z (Z.pos d) < 2 ^ (b + 1)) by (rewrite <- pow2_Z by lia; now rewrite <- Zlt_Qlt).
  assert (Hmul : (n # d) * inject_Z (Z.pos d) == inject_Z n).
  { rewrite Hx'. field. lra. }
  (* x < 2^(a-b+1) and 2^(a-b-1) < x *)
  assert (Hup : n # d < 2 ^ (a - b + 1)).
  { replace (a - b + 1)%Z with ((a + 1) + - b)%Z by lia.
    rewrite pow2_plus, Qpower_opp.
    pose proof (pow2_pos b) as Hpb. pose proof (pow2_pos (a + 1)) as Hpa.
    apply Qlt_shift_div_l; [exact Hpb|].
    apply Qle_lt_trans with ((n # d) * inject_Z (Z.pos d)).
    - apply Qmult_le_l; [exact Hx|exact Hd1Q].
    - rewrite Hmul. exact Hn2Q. }
  assert (Hlow : 2 ^ (a - b - 1) < n # d).
  { replace (a - b - 1)%Z with (a + - (b + 1))%Z by lia.
    rewrite pow2_plus, Qpower_opp.
    pose proof (pow2_pos (b + 1)) as Hpb.
    apply Qlt_shift_div_r; [exact Hpb|].
    apply Qle_lt_trans with ((n # d) * inject_Z (Z.pos d)).
    - rewrite Hmul. exact Hn1Q.
    - apply Qmult_lt_l; [exact Hx|exact Hd2Q]. }
  destruct (Qle_bool (2 ^ (a - b)) (n # d)) eqn:Hle.
  - apply Qle_bool_iff in Hle. split; [exact Hle|exact Hup].
  - split; [apply Qlt_le_weak; exact Hlow|].
    replace (a - b - 1 + 1)%Z with (a - b)%Z by lia.
    apply Qnot_le_lt. intros H. apply Qle_bool_iff in H. congruence.
Qed.


Lemma exponent_mono (x y : Q) :
  0 < x -> x <= y -> (Double.exponent x <= Double.exponent y)%Z.
Proof.
  intros Hx Hxy.
  destruct (exponent_spec x Hx) as [Hx1 _].
  destruct (exponent_spec y ltac:(lra)) as [_ Hy2].
  assert (H : 2 ^ Double.exponent x < 2 ^ (Double.exponent y + 1)) by lra.
  apply Qpower_lt_compat_l_inv in H; [lia|reflexivity].
Qed.

(** The significand of a positive number: an integer of 53 bits. *)
Lemma scaled_bounds (x : Q) :
  0 < x ->
  let s := x * 2 ^ (52 - Double.exponent x) in
  inject_Z (2 ^ 52) <= s /\ s < inject_Z (2 ^ 53).
Proof.
  intros Hx s. destruct (exponent_spec x Hx) as [H1 H2].
  set (e := Double.exponent x) in *.
  pose proof (pow2_pos (52 - e)) as Hp.
  rewrite !pow2_Z by lia.
  split.
  - replace 52%Z with (e + (52 - e))%Z at 1 by lia. rewrite pow2_plus.
    unfold s. apply Qmult_le_r; [exact Hp|exact H1].
  - replace 53%Z with ((e + 1) + (52 - e))%Z at 1 by lia. rewrite pow2_plus.
    unfold s. apply Qmult_lt_r; [exact Hp|exact H2].
Qed.

Lemma significand_bounds (x : Q) :
  0 < x ->
  (2 ^ 52 <= Double.nearest_even (x * 2 ^ (52 - Double.exponent x)) <= 2 ^ 53)%Z.
Proof.
  intros Hx. destruct (scaled_bounds x Hx) as [H1 H2].
  split.
  - rewrite <- (nearest_even_Z (2 ^ 52)). now apply nearest_even_mono.
  - rewrite <- (nearest_even_Z (2 ^ 53)). apply nearest_even_mono. lra.
Qed.

Lemma round_pos_bounds (x : Q) :
  0 < x ->
  2 ^ Double.exponent x <= Double.round_pos x
  /\ Double.round_pos x <= 2 ^ (Double.exponent x + 1).
Proof.
  intros Hx. destruct (significand_bounds x Hx) as [H1 H2].
  unfold Double.round_pos. set (e := Double.exponent x) in *.
  set (m := Double.nearest_even _) in *.
  pose proof (pow2_pos (e - 52)) as Hp.
  rewrite Zle_Qle in H1, H2. rewrite !pow2_Z in H1, H2 by lia.
  split.
  - replace e with (52 + (e - 52))%Z at 1 by lia. rewrite pow2_plus.
    apply Qmult_le_r; [exact Hp|exact H1].
  - replace (e + 1)%Z with (53 + (e - 52))%Z by lia. rewrite pow2_plus.
    apply Qmult_le_r; [exact Hp|exact H2].
Qed.

Lemma round_pos_mono (x y : Q) :
  0 < x -> x <= y -> Double.round_pos x <= Double.round_pos y.
Proof.
  intros Hx Hxy.
  assert (Hy : 0 < y) by lra.
  pose proof (exponent_mono x y Hx Hxy) as He.
  destruct (Z.eq_dec (Double.exponent x) (Double.exponent y)) as [Heq|Hne].
  - unfold Double.round_pos. rewrite Heq.
    set (e := Double.exponent y).
    apply Qmult_le_r; [apply pow2_pos|].
    rewrite <- Zle_Qle. apply nearest_even_mono.
    apply Qmult_le_r; [apply pow2_pos|exact Hxy].
  - destruct (round_pos_bounds x Hx) as [_ Hx2].
    destruct (round_pos_bounds y Hy) as [Hy1 _].
    assert (Hpow : 2 ^ (Double.exponent x + 1) <= 2 ^ Double.exponent y).
    { apply Qpower_le_compat_l; [lia|discriminate]. }
    lra.
Qed.

(** Rounding moves a positive number by at most half a unit in the last
    place, that is by at most the fraction [2^-53] of the number. *)
Lemma round_pos_error (x : Q) :
  0 < x ->
  x * (1 - (1 # 9007199254740992)) <= Double.round_pos x
  /\ Double.round_pos x <= x * (1 + (1 # 9007199254740992)).
Proof.
  change (1 # 9007199254740992) with (1 # 2 ^ 53).
  intros Hx. destruct (exponent_spec x Hx) as [H1 _].
  unfold Double.round_pos. set (e := Double.exponent x) in *.
  destruct (nearest_even_error (x * 2 ^ (52 - e))) as [Hl Hu].
  set (m := inject_Z (Double.nearest_even (x * 2 ^ (52 - e)))) in *.
  pose proof (pow2_pos (e - 52)) as Hp.
  assert (Hinv : 2 ^ (52 - e) * 2 ^ (e - 52) == 1).
  { rewrite <- pow2_plus. replace (52 - e + (e - 52))%Z with 0%Z by lia. reflexivity. }
  assert (Hhalf : (1 # 2) * 2 ^ (e - 52) <= x * (1 # 2 ^ 53)).
  { assert (He : 2 ^ e == 2 ^ (e - 52) * 2 ^ 52).
    { rewrite <- pow2_plus. now replace (e - 52 + 52)%Z with e by lia. }
    rewrite He in H1.
    assert (H52 : (2 : Q) ^ 52 == inject_Z (2 ^ 52)) by (now rewrite pow2_Z).
    rewrite H52 in H1. set (p := 2 ^ (e - 52)) in *.
    assert (Hc : (1 # 2) * p == p * inject_Z (2 ^ 52) * (1 # 2 ^ 53)).
    { assert (Hk : inject_Z (2 ^ 52) * (1 # 2 ^ 53) == 1 # 2) by reflexivity.
      rewrite <- Qmult_assoc, Hk. ring. }
    rewrite Hc. apply Qmult_le_r; [reflexivity|exact H1]. }
  assert (Hx' : x == x * 2 ^ (52 - e) * 2 ^ (e - 52)).
  { rewrite <- Qmult_assoc, Hinv. ring. }
  set (s := x * 2 ^ (52 - e)) in *. set (p := 2 ^ (e - 52)) in *.
  assert (Hlo : (s - (1 # 2)) * p <= m * p) by (apply Qmult_le_r; [exact Hp|exact Hl]).
  assert (Hhi : m * p <= (s + (1 # 2)) * p) by (apply Qmult_le_r; [exact Hp|exact Hu]).
  split.
  - apply Qle_trans with ((s - (1 # 2)) * p); [|exact Hlo].
    assert (E : (s - (1 # 2)) * p == s * p - (1 # 2) * p) by ring.
    rewrite E, <- Hx'. lra.
  - apply Qle_trans with ((s + (1 # 2)) * p); [exact Hhi|].
    assert (E : (s + (1 # 2)) * p == s * p + (1 # 2) * p) by ring.
    rewrite E, <- Hx'. lra.
Qed.

Lemma round_unfold (x : Q) :
  Double.round x
  == match Qnum x with
     | Z0 => 0
     | Zpos _ => Double.round_pos x
     | Zneg _ => - Double.round_pos (- x)
     end.
Proof. apply Qred_correct. Qed.

Lemma round_positive (x : Q) : 0 < x -> Double.round x == Double.round_pos x.
Proof.
  intros Hx. rewrite round_unfold. destruct x as [[|n|n] d]; try reflexivity;
    unfold Qlt in Hx; cbn in Hx; lia.
Qed.

Lemma round_negative (x : Q) : x < 0 -> Double.round x == - Double.round_pos (- x).
Proof.
  intros Hx. rewrite round_unfold. destruct x as [[|n|n] d]; try reflexivity;
    unfold Qlt in Hx; cbn in Hx; lia.
Qed.

Lemma round_zero (x : Q) : x == 0 -> Double.round x == 0.
Proof.
  intros Hx. rewrite round_unfold. destruct x as [[|n|n] d]; try reflexivity;
    unfold Qeq in Hx; cbn in Hx; lia.
Qed.

Lemma round_pos_positive (x : Q) : 0 < x -> 0 < Double.round_pos x.
Proof.
  intros Hx. destruct (round_pos_bounds x Hx) as [H _].
  pose proof (pow2_pos (Double.exponent x)). lra.
Qed.

(** Rounding to the nearest double is monotone. *)
Lemma round_mono (x y : Q) : x <= y -> Double.round x <= Double.round y.
Proof.
  intros Hxy.
  destruct (Q_dec x 0) as [[Hx|Hx]|Hx]; destruct (Q_dec y 0) as [[Hy|Hy]|Hy];
    try (exfalso; lra).
  - rewrite (round_negative x Hx), (round_negative y Hy).
    pose proof (round_pos_mono (- y) (- x) ltac:(lra) ltac:(lra)). lra.
  - rewrite (round_negative x Hx), (round_positive y Hy).
    pose proof (round_pos_positive (- x) ltac:(lra)).
    pose proof (round_pos_positive y Hy). lra.
  - rewrite (round_negative x Hx), (round_zero y Hy).
    pose proof (round_pos_positive (- x) ltac:(lra)). lra.
  - rewrite (round_positive x Hx), (round_positive y Hy).
    now apply round_pos_mono.
  - rewrite (round_zero x Hx), (round_positive y Hy).
    pose proof (round_pos_positive y Hy). lra.
  - rewrite (round_zero x Hx), (round_zero y Hy). lra.
Qed.

Lemma round_error (x : Q) :
  0 <= x ->
  x * (1 - (1 # 9007199254740992)) <= Double.round x
  /\ Double.round x <= x * (1 + (1 # 9007199254740992)).
Proof.
  intros Hx. destruct (Q_dec x 0) as [[H|H]|H]; [exfalso; lra| |].
  - rewrite (round_positive x H). now apply round_pos_error.
  - rewrite (round_zero x H), H. split; lra.
Qed.

End DoubleFacts.

Lemma jitter_at_least_one (r : Q) : (0 <= r)%Q -> (1 <= RetryPolicy.jitter r)%Q.
Proof.
  intros H0. unfold RetryPolicy.jitter, Double.add, Double.mul.
  assert (Htenth : (0 <= RetryPolicy.tenth)%Q) by (vm_compute; discriminate).
  assert (Hlow : (0 <= Double.round (r * RetryPolicy.tenth))%Q).
  { change 0%Q with (Double.round 0) at 1. apply round_mono.
    apply Qmult_le_0_compat; assumption. }
  change 1%Q with (Double.round 1) at 1. apply round_mono. lra.
Qed.

(** The jitter lies between [1.0] and the double [1.1], both included. *)
Lemma jitter_bounds (r : Q) :
  (0 <= r)%Q -> (r < 1)%Q ->
  (1 <= RetryPolicy.jitter r)%Q /\ (RetryPolicy.jitter r <= Double.round (11 # 10))%Q.
Proof.
  intros H0 H1. split; [now apply jitter_at_least_one|].
  unfold RetryPolicy.jitter, Double.add, Double.mul.
  assert (Htenth : (0 <= RetryPolicy.tenth)%Q) by (vm_compute; discriminate).
  assert (Hhigh : (Double.round (r * RetryPolicy.tenth) <= RetryPolicy.tenth)%Q).
  { assert (Hfix : Double.round RetryPolicy.tenth = RetryPolicy.tenth)
      by (vm_compute; reflexivity).
    rewrite <- Hfix at 2. apply round_mono.
    rewrite <- (Qmult_1_l RetryPolicy.tenth) at 2.
    apply Qmult_le_compat_r; [lra|exact Htenth]. }
  assert (Htop : Double.round (1 + RetryPolicy.tenth) = Double.round (11 # 10))
    by (vm_compute; reflexivity).
  rewrite <- Htop. apply round_mono. lra.
Qed.

Section RetryFacts.
Context {W T : Type}.
Variable random : Z -> Q.
Variable operation : Operation W T.
Variables maxRetries baseDelayMs : Z.

Lemma spec_events_succ (attempt : Z) (n : nat) :
  (0 < n)%nat ->
  RetryPolicy.spec_events random baseDelayMs attempt (S n)
    = RetryPolicy.Invoked attempt
        :: RetryPolicy.Waited attempt
             (RetryPolicy.delay baseDelayMs attempt (random attempt))
        :: RetryPolicy.spec_events random baseDelayMs (attempt + 1) n.
Proof. destruct n; [lia|reflexivity]. Qed.

(** The loop: it ends, its log is the specified one, and it ends either
    with the value of the last invocation or, every iteration used up,
    with the exhaustion error built from the last thrown error. *)
Lemma attempts_spec (fuel : nat) :
  forall (attempt : Z) (lastError : option Thrown) (w : W) (log : list RetryPolicy.Event),
    Z.of_nat fuel = Z.max 0 (maxRetries - attempt) ->
    exists (n : nat) (r : Outcome T),
      RetryPolicy.attempts random fuel operation maxRetries baseDelayMs attempt
        lastError (w, log)
      = Some ((after_operations (replicate n operation) w,
               log ++ RetryPolicy.spec_events random baseDelayMs attempt n), r)
      /\ (n <= fuel)%nat
      /\ ((exists v,
             (0 < n)%nat
             /\ snd (operation (after_operations (replicate (n - 1) operation) w))
                = Returned v
             /\ r = Returned v)
          \/ (n = fuel
              /\ exists last,
                   r = Threw (RetryPolicy.exhausted maxRetries baseDelayMs last)
                   /\ ((n = 0%nat /\ last = lastError)
                       \/ ((0 < n)%nat
                           /\ exists e,
                                snd (operation
                                       (after_operations (replicate (n - 1) operation) w))
                                  = Threw e
                                /\ last = Some (as_error e))))).
Proof.
  induction fuel as [|fuel' IH]; intros attempt lastError w log Hfuel.
  - exists 0%nat, (Threw (RetryPolicy.exhausted maxRetries baseDelayMs lastError)).
    cbn [RetryPolicy.attempts].
    destruct (Z.ltb_spec attempt maxRetries); [lia|].
    cbn. rewrite app_nil_r. split; [reflexivity|]. split; [lia|].
    right. split; [reflexivity|]. eexists. split; [reflexivity|]. left. now split.
  - cbn [RetryPolicy.attempts].
    destruct (Z.ltb_spec attempt maxRetries); [|lia].
    destruct (operation w) as [w' [v|e]] eqn:Hop.
    + exists 1%nat, (Returned v). cbn. rewrite Hop. cbn.
      split; [reflexivity|]. split; [lia|].
      left. exists v. split; [lia|]. split; reflexivity.
    + destruct (IH (attempt + 1) (Some (as_error e)) w'
                  (if attempt <? maxRetries - 1
                   then (log ++ [RetryPolicy.Invoked attempt])
                          ++ [RetryPolicy.Waited attempt
                                (RetryPolicy.delay baseDelayMs attempt (random attempt))]
                   else log ++ [RetryPolicy.Invoked attempt]))
        as (n & r & Hrun & Hle & Hend); [lia|].
      exists (S n), r. rewrite Hrun.
      assert (Hw' : w' = fst (operation w)) by now rewrite Hop.
      assert (Hpos : (0 < fuel')%nat -> (0 < n)%nat).
      { intros Hf. destruct Hend as [(v & Hn & _)|(-> & _)]; lia. }
      split.
      { cbn [replicate after_operations foldl]. fold (after_operations (replicate n operation)).
        rewrite <- Hw'. f_equal. f_equal.
        destruct (Z.ltb_spec attempt (maxRetries - 1)).
        - rewrite spec_events_succ by (apply Hpos; lia).
          rewrite <- !app_assoc. reflexivity.
        - assert (n = 0%nat) as -> by lia. rewrite <- app_assoc. reflexivity. }
      split; [lia|].
      destruct n as [|n'].
      * destruct Hend as [(v & Hn & _)|(Hn & last & Hr & Hlast)]; [lia|].
        right. split; [lia|]. exists (Some (as_error e)).
        destruct Hlast as [[_ ->]|[Hn' _]]; [|lia].
        split; [exact Hr|]. right. split; [lia|].
        exists e. cbn. now rewrite Hop.
      * replace (S (S n') - 1)%nat with (S n') by lia.
        replace (S n' - 1)%nat with n' in Hend by lia.
        cbn [replicate after_operations foldl].
        fold (after_operations (replicate n' operation)). rewrite <- Hw'.
        destruct Hend as [(v & Hn & Hv & Hr)|(Hn & last & Hr & Hlast)].
        -- left. exists v. repeat split; [lia|exact Hv|exact Hr].
        -- right. split; [lia|]. exists last. split; [exact Hr|].
           right. split; [lia|].
           destruct Hlast as [[Hz _]|[_ Hlast]]; [lia|exact Hlast].
Qed.

Lemma spec_events_invocations (n : nat) :
  forall attempt,
    RetryPolicy.invocations (RetryPolicy.spec_events random baseDelayMs attempt n) = n.
Proof.
  induction n as [|n IH]; intros attempt; [reflexivity|].
  destruct n as [|n']; [reflexivity|].
  rewrite spec_events_succ by lia.
  specialize (IH (attempt + 1)). unfold RetryPolicy.invocations in *.
  rewrite filter_cons_True by exact I. rewrite filter_cons_False by (cbn; tauto).
  cbn [length]. now rewrite IH.
Qed.

Lemma spec_events_waits (n : nat) :
  forall attempt,
    Forall (fun ad =>
              attempt <= fst ad < attempt + Z.of_nat n - 1
              /\ snd ad = RetryPolicy.delay baseDelayMs (fst ad) (random (fst ad)))
      (RetryPolicy.waits (RetryPolicy.spec_events random baseDelayMs attempt n)).
Proof.
  induction n as [|n IH]; intros attempt; [constructor|].
  destruct n as [|n']; [constructor|].
  rewrite spec_events_succ by lia. cbn [RetryPolicy.waits omap].
  constructor.
  - cbn. split; [lia|reflexivity].
  - eapply Forall_impl; [apply (IH (attempt + 1))|].
    intros [a d] [Hr Hd]. cbn in *. split; [lia|exact Hd].
Qed.

Lemma spec_events_last (n : nat) :
  forall attempt,
    last (RetryPolicy.spec_events random baseDelayMs attempt (S n))
      = Some (RetryPolicy.Invoked (attempt + Z.of_nat n)).
Proof.
  induction n as [|n IH]; intros attempt.
  - cbn. f_equal. f_equal. lia.
  - rewrite spec_events_succ by lia.
    cbn [last]. specialize (IH (attempt + 1)).
    destruct (RetryPolicy.spec_events random baseDelayMs (attempt + 1) (S n)) eqn:E.
    + discriminate.
    + cbn [last] in *. rewrite IH. f_equal. f_equal. lia.
Qed.

End RetryFacts.

(** The largest draw of [Math.random()], [1 - 2^-53], is a double, and
    with it the jitter is the double [1.1], which is above [11/10]: the
    jitter is not confined to [[1.0, 1.1)].  In a run with base delay 1000
    the waits are then 1100 and 2200, that is [1000 * 2^attempt * 1.1]
    exactly, and no factor below [1.1] gives them. *)
Lemma retry_jitter_reaches_upper_bound :
  let r := (1 - (1 # 2 ^ 53))%Q in
  (0 <= r)%Q /\ (r < 1)%Q
  /\ (Double.round r == r)%Q
  /\ RetryPolicy.jitter r = Double.round (11 # 10)
  /\ (11 # 10 < RetryPolicy.jitter r)%Q
  /\ (exists w' log result,
        RetryPolicy.retryOperation (fun _ => r) failing_operation 3 1000 0%nat
        = Some ((w', log), result)
        /\ RetryPolicy.waits log = [(0, 1100%Q); (1, 2200%Q)])
  /\ ~ (exists j, (1 <= j)%Q /\ (j < 11 # 10)%Q
                  /\ (1100 == inject_Z 1000 * inject_Z (2 ^ 0) * j)%Q).
Proof.
  cbn zeta.
  split; [discriminate|]. split; [reflexivity|]. split; [reflexivity|].
  split; [vm_compute; reflexivity|]. split; [vm_compute; reflexivity|].
  split.
  - eexists _, _, _. split; [vm_compute; reflexivity|]. vm_compute. reflexivity.
  - intros (j & _ & Hj & Heq).
    change (inject_Z 1000 * inject_Z (2 ^ 0))%Q with (1000 * 1)%Q in Heq. lra.
Qed.

(** C5.  [retryOperation] always ends; it invokes the operation [n] times
    with [n] at most [maxRetries]; its log is the specified one: between two
    consecutive attempts, and not after the last, it waits
    [baseDelayMs * 2^attempt * jitter], the products taken in double
    arithmetic, with [jitter] between [1.0] and the double [1.1], both
    included.  For an operation that fails on every attempt and
    [maxRetries = 3] the operation is invoked exactly 3 times and the call
    fails with the operation-exhausted signal that wraps the last error:
    its cause is the error thrown by the third attempt (for a thrown value
    that is not an [Error], the [Error] made of its string), and it carries
    [maxRetries], [baseDelayMs] and the message of that error, with which
    its own message ends. *)
Theorem retry_policy_backoff {W T : Type} (random : Z -> Q) (operation : Operation W T)
    (maxRetries baseDelayMs : Z) (w : W) :
  (forall a, (0 <= random a)%Q /\ (random a < 1)%Q) ->
  exists (n : nat) (r : Outcome T),
    let log := RetryPolicy.spec_events random baseDelayMs 0 n in
    RetryPolicy.retryOperation random operation maxRetries baseDelayMs w
      = Some ((after_operations (replicate n operation) w, log), r)
    /\ RetryPolicy.invocations log = n
    /\ Z.of_nat n <= Z.max 0 maxRetries
    /\ Forall (fun ad =>
                 0 <= fst ad < Z.of_nat n - 1
                 /\ exists j,
                      (1 <= j)%Q /\ (j <= Double.round (11 # 10))%Q
                      /\ snd ad
                         = Double.mul
                             (Double.mul (inject_Z baseDelayMs) (inject_Z (2 ^ fst ad)))
                             j)
         (RetryPolicy.waits log)
    /\ (n = 0%nat \/ last log = Some (RetryPolicy.Invoked (Z.of_nat n - 1)))
    /\ (always_throws operation -> maxRetries = 3 ->
        n = 3%nat
        /\ exists e,
             snd (operation (after_operations [operation; operation] w)) = Threw e
             /\ r = Threw
                      (let (cause, text) :=
                         match e with
                         | NonError repr => (PlainError repr, repr)
                         | NetworkError m _ _ | ValidationError m _ | RateLimitError m _
                         | TimeoutError m _ | ServiceUnavailableError m _ _ _
                         | InternalServerError m _ _ _ _ | AbortError m | PlainError m =>
                             (e, m)
                         end in
                       InternalServerError
                         ("Operation failed after 3 attempts: " +:+ text)
                         (Some cause) 3 baseDelayMs (Some text))
             /\ match r with
                | Threw x => kind_of x = KOperationExhausted
                | Returned _ => False
                end).
Proof.
  intros Hrandom.
  destruct (attempts_spec random operation maxRetries baseDelayMs
              (Z.to_nat maxRetries) 0 None w []) as (n & r & Hrun & Hle & Hend); [lia|].
  exists n, r. cbn zeta.
  split; [exact Hrun|].
  split; [apply spec_events_invocations|].
  split; [lia|].
  split.
  { eapply Forall_impl; [apply spec_events_waits|].
    intros [a d] [Hr Hd]. cbn in *. split; [lia|].
    exists (RetryPolicy.jitter (random a)).
    destruct (Hrandom a) as [H0 H1].
    destruct (jitter_bounds (random a) H0 H1) as [Hj1 Hj2].
    split; [exact Hj1|]. split; [exact Hj2|exact Hd]. }
  split.
  { destruct n as [|n']; [now left|right].
    rewrite spec_events_last. f_equal. f_equal. lia. }
  intros Hthrows ->.
  destruct Hend as [(v & Hn & Hv & _)|(Hn & last & Hr & Hlast)].
  - destruct (Hthrows (after_operations (replicate (n - 1) operation) w)) as [e He].
    congruence.
  - change (Z.to_nat 3) with 3%nat in Hn. subst n. split; [reflexivity|].
    destruct Hlast as [[Hz _]|[_ (e & He & ->)]]; [discriminate|].
    exists e. split; [exact He|]. subst r.
    destruct e; split; reflexivity.
Qed.

(** Three attempts of the failing sample operation, base delay 1 s, every
    random draw 1/2: waits of 1050 and 2100 ms, and the refused connection
    wrapped in the exhaustion error. *)
Lemma retry_policy_backoff_witness :
  RetryPolicy.retryOperation (fun _ => 1 # 2) failing_operation 3 1000 0%nat
  = Some ((3%nat,
           [RetryPolicy.Invoked 0;
            RetryPolicy.Waited 0 1050;
            RetryPolicy.Invoked 1;
            RetryPolicy.Waited 1 2100;
            RetryPolicy.Invoked 2]),
          Threw (InternalServerError
                   "Operation failed after 3 attempts: connect ECONNREFUSED"
                   (Some (PlainError "connect ECONNREFUSED")) 3 1000
                   (Some "connect ECONNREFUSED"))).
Proof.
  destruct (retry_policy_backoff (fun _ => 1 # 2) failing_operation 3 1000 0%nat
              (fun _ => conj (Qle_bool_imp_le 0 (1 # 2) eq_refl) eq_refl))
    as (n & r & Hrun & _ & _ & _ & _ & Hfail).
  destruct (Hfail failing_operation_throws eq_refl) as (-> & e & He & Hr & _).
  injection He as <-. rewrite Hrun, Hr. reflexivity.
Defined.

(** ** The request deduplicator *)

Section DeduplicatorFacts.
Context {F T : Type}.

Lemma execute_preserves_wf (key : string) (fn : F) (now : Z)
    (st : RequestDeduplicator.State F T) :
  RequestDeduplicator.wf st ->
  RequestDeduplicator.wf (snd (RequestDeduplicator.execute key fn now st)).
Proof.
  intros Hwf. unfold RequestDeduplicator.execute.
  destruct (RequestDeduplicator.pendingRequests st !! key); [exact Hwf|].
  intros p Hp. cbn in *. apply Hwf. lia.
Qed.

End DeduplicatorFacts.

Section DeduplicatorSchedule.
Context {F T : Type}.
Variable o : RequestDeduplicator.RequestDeduplicatorOptions.
Variable key : string.
Variable p : nat.
Variable started : Z.

Lemma step_in_flight (count : nat) (t : RequestDeduplicator.Task F T)
    (st : RequestDeduplicator.State F T) :
  RequestDeduplicator.leaves_entry o key p started t ->
  RequestDeduplicator.in_flight key p started count st -> RequestDeduplicator.in_flight key p started count (RequestDeduplicator.step o t st).
Proof.
  intros Hquiet (Hentry & Hopen & Hcount & Hcreated).
  unfold RequestDeduplicator.in_flight.
  destruct t as [k fn now|k q r|now|]; cbn [RequestDeduplicator.step].
  - unfold RequestDeduplicator.execute.
    destruct (RequestDeduplicator.pendingRequests st !! k) as [existing|] eqn:Hk;
      [cbn [snd]; now repeat split|].
    assert (Hne : k <> key) by congruence.
    cbn [snd RequestDeduplicator.pendingRequests RequestDeduplicator.settled
         RequestDeduplicator.created].
    split; [now rewrite lookup_insert_ne|]. split; [exact Hopen|].
    split; [|lia].
    unfold RequestDeduplicator.invocation_count in *.
    cbn [RequestDeduplicator.invoked].
    rewrite filter_app, length_app, Hcount.
    rewrite filter_cons_False, filter_nil; [cbn; lia|].
    cbn. apply String.eqb_neq in Hne. now rewrite Hne.
  - destruct Hquiet as [Hk Hq].
    unfold RequestDeduplicator.resume.
    cbn [snd RequestDeduplicator.pendingRequests RequestDeduplicator.settled
         RequestDeduplicator.created].
    split; [now rewrite lookup_delete_ne|].
    split; [|now split].
    unfold RequestDeduplicator.settle_promise.
    destruct (RequestDeduplicator.settled st !! q); [exact Hopen|].
    now rewrite lookup_insert_ne.
  - cbn in Hquiet. unfold RequestDeduplicator.cleanup.
    cbn [RequestDeduplicator.pendingRequests RequestDeduplicator.settled
         RequestDeduplicator.created].
    split; [|now repeat split].
    apply map_lookup_filter_Some. split; [exact Hentry|].
    cbn. destruct (Z.gtb_spec (now - started) (RequestDeduplicator.maxAge o)); [lia|exact I].
  - contradiction.
Qed.

Lemma run_tasks_in_flight (count : nat) (ts : list (RequestDeduplicator.Task F T)) :
  forall st : RequestDeduplicator.State F T,
    Forall (RequestDeduplicator.leaves_entry o key p started) ts ->
    RequestDeduplicator.in_flight key p started count st -> RequestDeduplicator.in_flight key p started count (RequestDeduplicator.run_tasks o ts st).
Proof.
  induction ts as [|t ts IH]; intros st Hall Hst; [exact Hst|].
  inversion Hall as [|? ? Ht Hts]; subst.
  cbn. apply IH; [exact Hts|]. now apply step_in_flight.
Qed.

End DeduplicatorSchedule.




(** ** The cache *)

Section CacheFacts.
Context {T : Type}.
Implicit Types (m : Cache.Store T) (st : Cache.State T) (item : Cache.CacheItem T).

Lemma map_get_set_eq (key : string) item m :
  Cache.map_get key (Cache.map_set key item m) = Some item.
Proof.
  induction m as [|[k old] rest IH]; cbn.
  - now rewrite String.eqb_refl.
  - destruct (String.eqb k key) eqn:E; cbn; rewrite E; [reflexivity|exact IH].
Qed.

Lemma map_get_delete_eq (key : string) m :
  Cache.map_get key (Cache.map_delete key m) = None.
Proof.
  unfold Cache.map_delete. induction m as [|[k old] rest IH]; [reflexivity|].
  destruct (String.eqb k key) eqn:E.
  - rewrite filter_cons_False by (cbn; rewrite E; exact id). exact IH.
  - rewrite filter_cons_True by (cbn; rewrite E; exact I). cbn. now rewrite E.
Qed.

(** A [get] before the expiry returns the stored value and keeps the
    entry, with its expiry. *)
Lemma get_live (o : Cache.CacheOptions) (key : string) (now : Z) st item :
  Cache.map_get key (Cache.store st) = Some item ->
  now < Cache.expiresAt item ->
  fst (Cache.get o key now st) = Some (Cache.value item)
  /\ Cache.map_get key (Cache.store (snd (Cache.get o key now st)))
     = Some (Cache.mkItem (Cache.value item) (Cache.expiresAt item) now
               (Cache.isFetching item)).
Proof.
  intros Hget Hlive. unfold Cache.get. rewrite Hget.
  destruct (Z.leb_spec (Cache.expiresAt item) now); [lia|]. cbn.
  split; [reflexivity|apply map_get_set_eq].
Qed.

(** A [get] at or after the expiry, stale-while-revalidate disabled,
    returns [undefined] and deletes the entry. *)
Lemma get_expired (o : Cache.CacheOptions) (key : string) (now : Z) st item :
  Cache.staleWhileRevalidate o = false ->
  Cache.map_get key (Cache.store st) = Some item ->
  Cache.expiresAt item <= now ->
  fst (Cache.get o key now st) = None
  /\ Cache.map_get key (Cache.store (snd (Cache.get o key now st))) = None.
Proof.
  intros Hswr Hget Hexp. unfold Cache.get. rewrite Hget, Hswr.
  destruct (Z.leb_spec (Cache.expiresAt item) now); [|lia]. cbn.
  split; [reflexivity|apply map_get_delete_eq].
Qed.

Lemma get_absent (o : Cache.CacheOptions) (key : string) (now : Z) st :
  Cache.map_get key (Cache.store st) = None ->
  Cache.get o key now st = (None, st).
Proof. intros Hget. unfold Cache.get. now rewrite Hget. Qed.

Lemma set_stores (o : Cache.CacheOptions) (key : string) (v : T) (ttl : option Z)
    (now : Z) st :
  Cache.map_get key (Cache.store (Cache.set o key v ttl now st))
  = Some (Cache.mkItem v (now + default (Cache.ttl o) ttl) now false).
Proof. unfold Cache.set. cbn. apply map_get_set_eq. Qed.

Lemma compareAndSet_eq (stringify : T -> option string) (o : Cache.CacheOptions)
    (key : string) (newValue : T) (now_get now_set : Z) st :
  Cache.compareAndSet stringify o key newValue now_get now_set st
  = (match fst (Cache.get o key now_get st) with
     | None => Cache.initial
     | Some prev =>
         if decide (stringify prev = stringify newValue) then Cache.unchanged
         else Cache.changed
     end,
     Cache.set o key newValue None now_set (snd (Cache.get o key now_get st))).
Proof.
  unfold Cache.compareAndSet.
  destruct (Cache.get o key now_get st) as [[prev|] st1]; cbn; [|reflexivity].
  case_decide; reflexivity.
Qed.

End CacheFacts.

(** C7.  For every key [k], value [v] and [ttl > 0]: after [set(k, v, ttl)]
    a [get(k)] made before [ttl] has elapsed, in particular at once, returns
    [v]; a [get(k)] made once the clock has advanced by [ttl] or more, with
    stale-while-revalidate disabled, returns [undefined] and deletes the
    entry. *)
Theorem cache_ttl {T : Type} (o : Cache.CacheOptions) (k : string) (v : T)
    (ttl now soon later : Z) (st : Cache.State T) :
  0 < ttl ->
  soon < now + ttl ->
  now + ttl <= later ->
  Cache.staleWhileRevalidate o = false ->
  let st1 := Cache.set o k v (Some ttl) now st in
  fst (Cache.get o k now st1) = Some v
  /\ fst (Cache.get o k soon st1) = Some v
  /\ fst (Cache.get o k later (snd (Cache.get o k soon st1))) = None
  /\ Cache.map_get k
       (Cache.store (snd (Cache.get o k later (snd (Cache.get o k soon st1))))) = None.
Proof.
  intros Httl Hsoon Hlater Hswr st1.
  pose proof (set_stores o k v (Some ttl) now st) as Hset. fold st1 in Hset.
  cbn [default] in Hset.
  destruct (get_live o k now st1 _ Hset) as [Hnow _]; [cbn; lia|].
  destruct (get_live o k soon st1 _ Hset) as [Hval Hkept]; [cbn; lia|].
  split; [exact Hnow|]. split; [exact Hval|].
  apply (get_expired o k later _ _ Hswr Hkept). cbn. lia.
Qed.

(** An entry set at 5000 with a ttl of 1 s, read at 5000 and at 6001. *)
Lemma cache_ttl_witness :
  let st1 := Cache.set swr_off "fetch:https://example.org/form" "<html>" (Some 1000) 5000
               Cache.empty in
  fst (Cache.get swr_off "fetch:https://example.org/form" 5000 st1) = Some "<html>"
  /\ fst (Cache.get swr_off "fetch:https://example.org/form" 6001
            (snd (Cache.get swr_off "fetch:https://example.org/form" 5000 st1))) = None.
Proof.
  pose proof (cache_ttl swr_off "fetch:https://example.org/form" "<html>" 1000 5000 5000 6001
                Cache.empty eq_refl eq_refl ltac:(discriminate) eq_refl) as H.
  cbn zeta in H |- *. destruct H as (_ & H1 & H2 & _). split; [exact H1|exact H2].
Defined.



Section CleanupFacts.
Context {T : Type}.
Implicit Types (m entries : Cache.Store T) (st : Cache.State T).

Lemma filter_ext_in (P Q : string * Cache.CacheItem T -> Prop)
    `{!forall x, Decision (P x)} `{!forall x, Decision (Q x)} m :
  (forall x, x ∈ m -> P x <-> Q x) -> filter P m = filter Q m.
Proof.
  induction m as [|x rest IH]; intros Hext; [reflexivity|].
  assert (Hrest : filter P rest = filter Q rest).
  { apply IH. intros y Hy. apply Hext. now right. }
  destruct (decide (P x)) as [HP|HP].
  - rewrite !filter_cons_True; [now rewrite Hrest| |exact HP].
    apply Hext; [left|exact HP].
  - rewrite !filter_cons_False; [exact Hrest| |exact HP].
    intros HQ. apply HP. apply Hext; [left|exact HQ].
Qed.

Lemma filter_keep_all (P : string * Cache.CacheItem T -> Prop)
    `{!forall x, Decision (P x)} m :
  (forall x, x ∈ m -> P x) -> filter P m = m.
Proof.
  induction m as [|x rest IH]; intros Hall; [reflexivity|].
  rewrite filter_cons_True by (apply Hall; left).
  f_equal. apply IH. intros y Hy. apply Hall. now right.
Qed.

Lemma map_delete_filter (key : string) m :
  Cache.map_delete key m = filter (fun kv => fst kv <> key) m.
Proof.
  unfold Cache.map_delete. apply list_filter_iff. intros [k item]. cbn.
  destruct (String.eqb_spec k key); cbn; tauto.
Qed.

Lemma wf_store_filter (P : string * Cache.CacheItem T -> Prop)
    `{!forall x, Decision (P x)} m :
  Cache.wf_store m -> Cache.wf_store (filter P m).
Proof.
  unfold Cache.wf_store. intros Hnd.
  eapply sublist_NoDup; [exact Hnd|].
  apply fmap_sublist, sublist_filter.
Qed.

Lemma wf_store_unique m (k : string) (a b : Cache.CacheItem T) :
  Cache.wf_store m -> (k, a) ∈ m -> (k, b) ∈ m -> a = b.
Proof.
  unfold Cache.wf_store. induction m as [|[k' c] rest IH]; intros Hnd Ha Hb.
  - inversion Ha.
  - cbn in Hnd. apply NoDup_cons in Hnd as [Hnotin Hnd].
    apply elem_of_cons in Ha as [Ha|Ha]; apply elem_of_cons in Hb as [Hb|Hb].
    + congruence.
    + inversion Ha; subst. exfalso. apply Hnotin.
      apply list_elem_of_fmap. exists (k', b). now split.
    + inversion Hb; subst. exfalso. apply Hnotin.
      apply list_elem_of_fmap. exists (k', a). now split.
    + now apply IH.
Qed.

Lemma map_delete_length (key : string) (item : Cache.CacheItem T) m :
  Cache.wf_store m -> (key, item) ∈ m ->
  S (length (Cache.map_delete key m)) = length m.
Proof.
  rewrite map_delete_filter. unfold Cache.wf_store.
  induction m as [|[k c] rest IH]; intros Hnd Hin; [inversion Hin|].
  cbn in Hnd. apply NoDup_cons in Hnd as [Hnotin Hnd].
  apply elem_of_cons in Hin as [Hin|Hin].
  - inversion Hin; subst. rewrite filter_cons_False by (cbn; tauto).
    cbn. f_equal. f_equal. apply filter_keep_all.
    intros [k' c'] Hx. cbn. intros ->. apply Hnotin.
    apply list_elem_of_fmap. exists (k, c'). now split.
  - rewrite filter_cons_True.
    + cbn. f_equal. now apply IH.
    + cbn. intros ->. apply Hnotin. apply list_elem_of_fmap. exists (key, item). now split.
Qed.

(** The first loop of [cleanup]. *)
Lemma evict_expired_spec (now : Z) entries :
  forall st,
    Cache.store (Cache.evict_expired now entries st)
      = filter (fun kv => fst kv ∉ fst <$> filter (Cache.is_expired now) entries) (Cache.store st)
    /\ Cache.evictions (Cache.evict_expired now entries st)
       = Cache.evictions st ++ (Cache.reported <$> filter (Cache.is_expired now) entries).
Proof.
  induction entries as [|[k item] rest IH]; intros st.
  - cbn. split; [|now rewrite app_nil_r].
    symmetry. apply filter_keep_all. intros x _. apply not_elem_of_nil.
  - cbn [Cache.evict_expired].
    destruct (Z.leb_spec (Cache.expiresAt item) now) as [Hexp|Hlive].
    + rewrite filter_cons_True by exact Hexp.
      destruct (IH (Cache.evict k item st)) as [Hs He]. rewrite Hs, He. cbn.
      split; [|now rewrite <- app_assoc].
      rewrite map_delete_filter, list_filter_filter.
      apply list_filter_iff. intros [k' c]. cbn. rewrite not_elem_of_cons. tauto.
    + rewrite filter_cons_False by (unfold Cache.is_expired; cbn; lia). apply IH.
Qed.

(** The second loop of [cleanup]: as many entries of the sorted snapshot
    are evicted, from its head, as the store exceeds [maxSize]. *)
Lemma evict_oldest_spec (o : Cache.CacheOptions) entries :
  forall st,
    NoDup (fst <$> entries) ->
    Cache.wf_store (Cache.store st) ->
    (forall e, e ∈ entries -> e ∈ Cache.store st) ->
    let victims := take (Z.to_nat (Cache.size st - Cache.maxSize o)) entries in
    Cache.store (Cache.evict_oldest o entries st)
      = filter (fun kv => fst kv ∉ fst <$> victims) (Cache.store st)
    /\ Cache.evictions (Cache.evict_oldest o entries st)
       = Cache.evictions st ++ (Cache.reported <$> victims)
    /\ Cache.size (Cache.evict_oldest o entries st)
       = Cache.size st - Z.of_nat (length victims).
Proof.
  induction entries as [|[k item] rest IH]; intros st Hnd Hwf Hin; cbn zeta.
  - rewrite take_nil. cbn. rewrite app_nil_r. split; [|split; [reflexivity|lia]].
    symmetry. apply filter_keep_all. intros x _. apply not_elem_of_nil.
  - cbn [Cache.evict_oldest].
    cbn in Hnd. apply NoDup_cons in Hnd as [Hnotin Hnd].
    destruct (Z.gtb_spec (Cache.size st) (Cache.maxSize o)) as [Hover|Hfit].
    + assert (Hlen : S (length (Cache.map_delete k (Cache.store st)))
                     = length (Cache.store st)).
      { apply (map_delete_length k item); [exact Hwf|]. apply Hin. left. }
      assert (Hsize : Cache.size (Cache.evict k item st) = Cache.size st - 1).
      { unfold Cache.size, Cache.evict. cbn. lia. }
      destruct (IH (Cache.evict k item st)) as (Hs & He & Hz).
      * exact Hnd.
      * cbn. rewrite map_delete_filter. now apply wf_store_filter.
      * intros e He. cbn. rewrite map_delete_filter. apply list_elem_of_filter.
        split; [|apply Hin; now right].
        intros Hk. apply Hnotin. apply list_elem_of_fmap. exists e. now split.
      * replace (Z.to_nat (Cache.size st - Cache.maxSize o))
          with (S (Z.to_nat (Cache.size (Cache.evict k item st) - Cache.maxSize o)))
          by lia.
        cbn [take]. rewrite Hs, He, Hz. cbn [Cache.store Cache.evictions Cache.evict].
        split; [|split].
        -- rewrite map_delete_filter, list_filter_filter.
           apply list_filter_iff. intros [k' c]. cbn. rewrite not_elem_of_cons. tauto.
        -- now rewrite <- app_assoc.
        -- cbn [length]. unfold Cache.size in *. cbn in *. lia.
    + replace (Z.to_nat (Cache.size st - Cache.maxSize o)) with 0%nat by lia.
      cbn. rewrite app_nil_r. split; [|split; [reflexivity|lia]].
      symmetry. apply filter_keep_all. intros x _. apply not_elem_of_nil.
Qed.

Lemma sort_insert_perm (e : string * Cache.CacheItem T) m :
  Cache.sort_insert e m ≡ₚ e :: m.
Proof.
  induction m as [|x rest IH]; cbn; [reflexivity|].
  destruct (_ <=? _); [reflexivity|].
  rewrite IH. apply Permutation_swap.
Qed.

Lemma sort_perm m : Cache.sort_by_lastAccess m ≡ₚ m.
Proof.
  induction m as [|x rest IH]; cbn; [reflexivity|].
  rewrite sort_insert_perm. now rewrite IH.
Qed.

Lemma sort_insert_sorted (e : string * Cache.CacheItem T) m :
  StronglySorted Cache.older m -> StronglySorted Cache.older (Cache.sort_insert e m).
Proof.
  induction 1 as [|x rest Hsorted IH Hall]; cbn.
  - repeat constructor.
  - destruct (Z.leb_spec (Cache.lastAccess (snd e)) (Cache.lastAccess (snd x))).
    + constructor; [now constructor|].
      constructor; [assumption|].
      eapply Forall_impl; [exact Hall|]. unfold Cache.older. intros; cbn in *; lia.
    + constructor; [exact IH|].
      rewrite sort_insert_perm. constructor; [unfold Cache.older; lia|exact Hall].
Qed.

Lemma sort_sorted m : StronglySorted Cache.older (Cache.sort_by_lastAccess m).
Proof.
  induction m as [|x rest IH]; cbn; [constructor|]. now apply sort_insert_sorted.
Qed.

End CleanupFacts.

(** C9.  A [cleanup] pass first evicts every entry with [expiresAt <= now],
    in store order; then, if more than [maxSize] entries are left, it evicts
    the excess, oldest [lastAccess] first: the victims are in ascending
    [lastAccess] order, none of them was accessed later than a survivor, and
    there are exactly as many as the store was over [maxSize].  After the
    pass the store holds no expired entry and at most [maxSize] entries. *)
Theorem cleanup_evicts_expired_then_oldest {T : Type} (o : Cache.CacheOptions) (now : Z)
    (st : Cache.State T) :
  Cache.wf_store (Cache.store st) ->
  0 <= Cache.maxSize o ->
  let expired := filter (Cache.is_expired now) (Cache.store st) in
  let live := filter (fun kv => ¬ Cache.is_expired now kv) (Cache.store st) in
  exists victims,
    Cache.evictions (Cache.cleanup o now st)
      = Cache.evictions st ++ (Cache.reported <$> expired) ++ (Cache.reported <$> victims)
    /\ Cache.store (Cache.cleanup o now st)
       = filter (fun kv => fst kv ∉ fst <$> victims) live
    /\ (forall v, v ∈ victims -> v ∈ live)
    /\ Z.of_nat (length victims) = Z.max 0 (Z.of_nat (length live) - Cache.maxSize o)
    /\ StronglySorted Cache.older victims
    /\ (forall v s, v ∈ victims -> s ∈ Cache.store (Cache.cleanup o now st) ->
          Cache.older v s)
    /\ Cache.size (Cache.cleanup o now st)
       = Z.min (Z.of_nat (length live)) (Cache.maxSize o)
    /\ Cache.size (Cache.cleanup o now st) <= Cache.maxSize o.
Proof.
  intros Hwf Hmax expired live.
  set (st1 := Cache.evict_expired now (Cache.store st) st).
  destruct (evict_expired_spec now (Cache.store st) st) as [Hs1 He1].
  fold st1 in Hs1, He1. fold expired in He1.
  assert (Hlive : Cache.store st1 = live).
  { rewrite Hs1. apply filter_ext_in. intros [k item] Hin. split.
    - intros Hnot Hexp. apply Hnot. apply list_elem_of_fmap.
      exists (k, item). split; [reflexivity|]. now apply list_elem_of_filter.
    - intros Hnexp Hk. apply Hnexp.
      apply list_elem_of_fmap in Hk as ([k' item'] & Heq & Hin').
      apply list_elem_of_filter in Hin' as [Hexp Hin']. cbn in Heq. subst k'.
      now rewrite (wf_store_unique _ k item item' Hwf Hin Hin'). }
  assert (Hwf1 : Cache.wf_store (Cache.store st1)).
  { rewrite Hlive. now apply wf_store_filter. }
  assert (Hsize1 : Cache.size st1 = Z.of_nat (length live)).
  { unfold Cache.size. now rewrite Hlive. }
  unfold Cache.cleanup. fold st1.
  destruct (Z.gtb_spec (Cache.size st1) (Cache.maxSize o)) as [Hover|Hfit].
  - set (sorted := Cache.sort_by_lastAccess (Cache.store st1)).
    assert (Hperm : sorted ≡ₚ live).
    { unfold sorted. rewrite sort_perm. now rewrite Hlive. }
    set (j := Z.to_nat (Cache.size st1 - Cache.maxSize o)).
    destruct (evict_oldest_spec o sorted st1) as (Hs & He & Hz).
    { unfold Cache.wf_store in Hwf1. now rewrite Hperm, <- Hlive. }
    { exact Hwf1. }
    { intros e Hin. now rewrite Hlive, <- Hperm. }
    cbn zeta in Hs, He, Hz. fold j in Hs, He, Hz.
    assert (Hj : length (take j sorted) = j).
    { apply length_take_le. rewrite Hperm. unfold j. lia. }
    assert (Hsorted : StronglySorted Cache.older (take j sorted ++ drop j sorted)).
    { rewrite take_drop. apply sort_sorted. }
    exists (take j sorted).
    split; [rewrite He, He1; now rewrite <- app_assoc|].
    split; [now rewrite Hs, Hlive|].
    split; [intros v Hv; rewrite <- Hperm; exact (subseteq_take j sorted v Hv)|].
    split; [rewrite Hj; unfold j; lia|].
    split; [eapply StronglySorted_app_1_l; exact Hsorted|].
    split.
    { intros v s Hv Hsurv. rewrite Hs in Hsurv.
      apply list_elem_of_filter in Hsurv as [Hkey Hin].
      rewrite Hlive, <- Hperm, <- (take_drop j sorted) in Hin.
      apply elem_of_app in Hin as [Hin|Hin].
      - exfalso. apply Hkey. now apply list_elem_of_fmap_2.
      - eapply StronglySorted_app_1_elem_of; eassumption. }
    rewrite Hz, Hj. unfold j. lia.
  - exists []. cbn [fmap list_fmap length].
    rewrite app_nil_r.
    split; [exact He1|].
    split.
    { rewrite Hlive. symmetry. apply filter_keep_all. intros x _. apply not_elem_of_nil. }
    split; [intros v Hv; inversion Hv|].
    split; [lia|].
    split; [constructor|].
    split; [intros v s Hv; inversion Hv|].
    lia.
Qed.

(** The sample store of three live entries in a cache of capacity 2 loses
    its least recently accessed entry. *)
Lemma cleanup_evicts_expired_then_oldest_witness :
  Cache.wf_store (Cache.store crowded)
  /\ Cache.size (Cache.cleanup swr_off 100 crowded) <= 2
  /\ Cache.evictions (Cache.cleanup swr_off 100 crowded) = [("a", "A")].
Proof.
  assert (Hwf : Cache.wf_store (Cache.store crowded)) by (unfold Cache.wf_store; compute_done).
  split; [exact Hwf|].
  destruct (cleanup_evicts_expired_then_oldest swr_off 100 crowded Hwf ltac:(discriminate))
    as (victims & _ & _ & _ & _ & _ & _ & _ & Hsize).
  split; [exact Hsize|reflexivity].
Defined.

(** * Further properties *)

(** ** The cache: keys, frames and sizes *)

Section CacheStoreFacts.
Context {T : Type}.
Implicit Types (m : Cache.Store T) (st : Cache.State T) (item : Cache.CacheItem T).

Lemma map_get_set_ne (key k : string) item m :
  k <> key -> Cache.map_get k (Cache.map_set key item m) = Cache.map_get k m.
Proof.
  intros Hne. induction m as [|[k' old] rest IH]; cbn.
  - destruct (String.eqb_spec key k); [congruence|reflexivity].
  - destruct (String.eqb_spec k' key) as [->|Hk]; cbn.
    + destruct (String.eqb_spec key k); [congruence|reflexivity].
    + destruct (String.eqb_spec k' k); [reflexivity|exact IH].
Qed.

Lemma map_get_delete_ne (key k : string) m :
  k <> key -> Cache.map_get k (Cache.map_delete key m) = Cache.map_get k m.
Proof.
  intros Hne. unfold Cache.map_delete. induction m as [|[k' old] rest IH]; [reflexivity|].
  destruct (String.eqb_spec k' key) as [->|Hk].
  - rewrite filter_cons_False by (cbn; rewrite String.eqb_refl; exact id).
    cbn. destruct (String.eqb_spec key k); [congruence|exact IH].
  - rewrite filter_cons_True
      by (cbn; destruct (String.eqb_spec k' key); [contradiction|exact I]).
    cbn. destruct (String.eqb_spec k' k); [reflexivity|exact IH].
Qed.

Lemma map_get_Some_elem (key : string) item m :
  Cache.map_get key m = Some item -> (key, item) ∈ m.
Proof.
  induction m as [|[k old] rest IH]; cbn; [discriminate|].
  destruct (String.eqb_spec k key) as [->|Hk].
  - intros [= ->]. left.
  - intros H. right. now apply IH.
Qed.

Lemma map_get_None_keys (key : string) m :
  Cache.map_get key m = None <-> key ∉ fst <$> m.
Proof.
  induction m as [|[k old] rest IH]; cbn.
  - split; [intros _; apply not_elem_of_nil|reflexivity].
  - rewrite not_elem_of_cons. destruct (String.eqb_spec k key) as [->|Hk].
    + split; [discriminate|intros [Hne _]; congruence].
    + rewrite IH. split; [intros H; split; [congruence|exact H]|intros [_ H]; exact H].
Qed.

Lemma elem_map_get (key : string) item m :
  Cache.wf_store m -> (key, item) ∈ m -> Cache.map_get key m = Some item.
Proof.
  unfold Cache.wf_store. induction m as [|[k old] rest IH]; intros Hnd Hin.
  - inversion Hin.
  - cbn in Hnd. apply NoDup_cons in Hnd as [Hnotin Hnd]. cbn.
    apply elem_of_cons in Hin as [Hin|Hin].
    + inversion Hin; subst. now rewrite String.eqb_refl.
    + destruct (String.eqb_spec k key) as [->|Hk]; [|now apply IH].
      exfalso. apply Hnotin. apply list_elem_of_fmap. exists (key, item). now split.
Qed.

(** The keys after [Map.set]: unchanged, in their order, when the key is
    there; the key appended otherwise. *)
Lemma map_set_keys (key : string) item m :
  fst <$> Cache.map_set key item m
  = if decide (key ∈ fst <$> m) then fst <$> m else (fst <$> m) ++ [key].
Proof.
  induction m as [|[k old] rest IH]; cbn.
  - rewrite decide_False by apply not_elem_of_nil. reflexivity.
  - destruct (String.eqb_spec k key) as [->|Hk]; cbn.
    + rewrite decide_True by left. reflexivity.
    + rewrite IH. destruct (decide (key ∈ fst <$> rest)) as [Hin|Hout].
      * rewrite decide_True by now right. reflexivity.
      * rewrite decide_False; [reflexivity|].
        rewrite not_elem_of_cons. split; [congruence|exact Hout].
Qed.

Lemma wf_store_set (key : string) item m :
  Cache.wf_store m -> Cache.wf_store (Cache.map_set key item m).
Proof.
  unfold Cache.wf_store. intros Hnd. rewrite map_set_keys.
  case_decide; [exact Hnd|].
  apply NoDup_app. split; [exact Hnd|]. split; [|apply NoDup_singleton].
  intros x Hx Hx'. apply list_elem_of_singleton in Hx'. now subst.
Qed.

Lemma wf_store_delete (key : string) m :
  Cache.wf_store m -> Cache.wf_store (Cache.map_delete key m).
Proof. intros Hwf. rewrite map_delete_filter. now apply wf_store_filter. Qed.

Lemma map_set_length (key : string) item m :
  length (Cache.map_set key item m)
  = if decide (key ∈ fst <$> m) then length m else S (length m).
Proof.
  rewrite <- (length_fmap fst (Cache.map_set key item m)), map_set_keys.
  case_decide; rewrite ?length_app, length_fmap; cbn; lia.
Qed.

Lemma evict_oldest_sublist (o : Cache.CacheOptions) entries :
  forall st, Cache.store (Cache.evict_oldest o entries st) `sublist_of` Cache.store st.
Proof.
  induction entries as [|[k item] rest IH]; intros st; cbn; [reflexivity|].
  destruct (_ >? _); [|reflexivity].
  etransitivity; [apply IH|]. cbn. rewrite map_delete_filter. apply sublist_filter.
Qed.

Lemma cleanup_sublist (o : Cache.CacheOptions) (now : Z) st :
  Cache.store (Cache.cleanup o now st) `sublist_of` Cache.store st.
Proof.
  unfold Cache.cleanup.
  assert (H1 : Cache.store (Cache.evict_expired now (Cache.store st) st)
               `sublist_of` Cache.store st).
  { rewrite (proj1 (evict_expired_spec now (Cache.store st) st)). apply sublist_filter. }
  destruct (_ >? _); [|exact H1].
  etransitivity; [apply evict_oldest_sublist|exact H1].
Qed.

Lemma wf_store_sublist m m' :
  m' `sublist_of` m -> Cache.wf_store m -> Cache.wf_store m'.
Proof.
  unfold Cache.wf_store. intros Hsub Hnd.
  eapply sublist_NoDup; [exact Hnd|]. now apply fmap_sublist.
Qed.

Lemma get_store_cases (o : Cache.CacheOptions) (key : string) (now : Z) st :
  Cache.store (snd (Cache.get o key now st)) = Cache.store st
  \/ Cache.store (snd (Cache.get o key now st)) = Cache.map_delete key (Cache.store st)
  \/ exists item,
       Cache.store (snd (Cache.get o key now st)) = Cache.map_set key item (Cache.store st).
Proof.
  unfold Cache.get. destruct (Cache.map_get key (Cache.store st)) as [item|]; [|now left].
  destruct (_ <=? _); [destruct (_ || _)|]; cbn; eauto.
Qed.

Lemma get_evictions (o : Cache.CacheOptions) (key : string) (now : Z) st :
  Cache.evictions (snd (Cache.get o key now st)) = Cache.evictions st.
Proof.
  unfold Cache.get. destruct (Cache.map_get key (Cache.store st)) as [item|]; [|reflexivity].
  destruct (_ <=? _); [destruct (_ || _)|]; reflexivity.
Qed.

Lemma wf_store_get (o : Cache.CacheOptions) (key : string) (now : Z) st :
  Cache.wf_store (Cache.store st) ->
  Cache.wf_store (Cache.store (snd (Cache.get o key now st))).
Proof.
  intros Hwf. destruct (get_store_cases o key now st) as [->|[->|[item ->]]].
  - exact Hwf.
  - now apply wf_store_delete.
  - now apply wf_store_set.
Qed.

(** What [get] returns depends on the key's own entry only. *)
Lemma get_value_eq (o : Cache.CacheOptions) (key : string) (now : Z) st st' :
  Cache.map_get key (Cache.store st) = Cache.map_get key (Cache.store st') ->
  fst (Cache.get o key now st) = fst (Cache.get o key now st').
Proof.
  intros Heq. unfold Cache.get. rewrite Heq.
  destruct (Cache.map_get key (Cache.store st')) as [item|]; [|reflexivity].
  destruct (_ <=? _); [destruct (_ || _)|]; reflexivity.
Qed.

Lemma get_other_key (o : Cache.CacheOptions) (key k : string) (now : Z) st :
  k <> key ->
  Cache.map_get k (Cache.store (snd (Cache.get o key now st)))
  = Cache.map_get k (Cache.store st).
Proof.
  intros Hne. destruct (get_store_cases o key now st) as [->|[->|[item ->]]].
  - reflexivity.
  - now apply map_get_delete_ne.
  - now apply map_get_set_ne.
Qed.

Lemma get_None_gone (o : Cache.CacheOptions) (key : string) (now : Z) st :
  fst (Cache.get o key now st) = None ->
  Cache.map_get key (Cache.store (snd (Cache.get o key now st))) = None.
Proof.
  unfold Cache.get. destruct (Cache.map_get key (Cache.store st)) as [item|] eqn:Hget.
  - destruct (_ <=? _); [destruct (_ || _)|]; cbn; try discriminate.
    intros _. apply map_get_delete_eq.
  - intros _. exact Hget.
Qed.

End CacheStoreFacts.

(** X1.  The keys of the store stay pairwise distinct under every operation
    of the cache: [set], [get], [delete], [clear], [cleanup] and
    [compareAndSet]. *)
Theorem cache_keys_stay_distinct {T : Type} (stringify : T -> option string)
    (o : Cache.CacheOptions) (key : string) (v : T) (ttl : option Z) (now now' : Z)
    (st : Cache.State T) :
  Cache.wf_store (Cache.store st) ->
  Cache.wf_store (Cache.store (Cache.set o key v ttl now st))
  /\ Cache.wf_store (Cache.store (snd (Cache.get o key now st)))
  /\ Cache.wf_store (Cache.store (snd (Cache.delete key st)))
  /\ Cache.wf_store (Cache.store (Cache.clear st))
  /\ Cache.wf_store (Cache.store (Cache.cleanup o now st))
  /\ Cache.wf_store
       (Cache.store (snd (Cache.compareAndSet stringify o key v now now' st))).
Proof.
  intros Hwf.
  split; [now apply wf_store_set|].
  split; [now apply wf_store_get|].
  split.
  { unfold Cache.delete. destruct (Cache.map_get key (Cache.store st)); [|exact Hwf].
    now apply wf_store_delete. }
  split; [apply NoDup_nil_2|].
  split; [eapply wf_store_sublist; [apply cleanup_sublist|exact Hwf]|].
  rewrite compareAndSet_eq. cbn [snd]. apply wf_store_set. now apply wf_store_get.
Qed.

(** The sample store keeps distinct keys when "c" is overwritten. *)
Lemma cache_keys_stay_distinct_witness :
  Cache.wf_store (Cache.store crowded)
  /\ Cache.wf_store (Cache.store (Cache.set swr_off "c" "C2" None 50 crowded)).
Proof.
  assert (Hwf : Cache.wf_store (Cache.store crowded)) by (unfold Cache.wf_store; compute_done).
  split; [exact Hwf|].
  exact (proj1 (cache_keys_stay_distinct stringify_string swr_off "c" "C2" None 50 50
                  crowded Hwf)).
Defined.

(** X2.  [set], [get] and [delete] of one key never change what [get]
    returns for another key. *)
Theorem cache_operations_keep_other_keys {T : Type} (o : Cache.CacheOptions)
    (key k : string) (v : T) (ttl : option Z) (now now' : Z) (st : Cache.State T) :
  k <> key ->
  fst (Cache.get o k now' (Cache.set o key v ttl now st)) = fst (Cache.get o k now' st)
  /\ fst (Cache.get o k now' (snd (Cache.get o key now st))) = fst (Cache.get o k now' st)
  /\ fst (Cache.get o k now' (snd (Cache.delete key st))) = fst (Cache.get o k now' st).
Proof.
  intros Hne. repeat split; apply get_value_eq.
  - cbn. now apply map_get_set_ne.
  - now apply get_other_key.
  - unfold Cache.delete. destruct (Cache.map_get key (Cache.store st)); [|reflexivity].
    cbn. now apply map_get_delete_ne.
Qed.

(** Deleting "a" from the sample store leaves "b" readable. *)
Lemma cache_operations_keep_other_keys_witness :
  fst (Cache.get swr_off "b" 100 (snd (Cache.delete "a" crowded))) = Some "B".
Proof.
  rewrite (proj2 (proj2 (cache_operations_keep_other_keys swr_off "a" "b" "" None 0 100
                           crowded ltac:(discriminate)))).
  reflexivity.
Defined.

(** X3.  [set] never evicts and never looks at [maxSize]: it tells
    [onEvict] nothing, a new key makes the store one entry larger whatever
    its size, and an existing key is overwritten in place, so between two
    [cleanup] passes the store can hold more than [maxSize] entries. *)
Theorem cache_set_never_evicts {T : Type} (o : Cache.CacheOptions) (key : string) (v : T)
    (ttl : option Z) (now : Z) (st : Cache.State T) :
  Cache.evictions (Cache.set o key v ttl now st) = Cache.evictions st
  /\ (Cache.map_get key (Cache.store st) = None ->
      Cache.size (Cache.set o key v ttl now st) = Cache.size st + 1
      /\ (Cache.maxSize o <= Cache.size st ->
          Cache.maxSize o < Cache.size (Cache.set o key v ttl now st)))
  /\ (forall item, Cache.map_get key (Cache.store st) = Some item ->
        Cache.size (Cache.set o key v ttl now st) = Cache.size st
        /\ fst <$> Cache.store (Cache.set o key v ttl now st) = fst <$> Cache.store st).
Proof.
  split; [reflexivity|]. unfold Cache.size, Cache.set. cbn [Cache.store].
  rewrite map_set_length, map_set_keys. split.
  - intros Hnone. apply map_get_None_keys in Hnone.
    rewrite decide_False by exact Hnone. split; lia.
  - intros item Hsome. apply map_get_Some_elem in Hsome.
    rewrite !decide_True by (apply list_elem_of_fmap; exists (key, item); now split).
    split; reflexivity.
Qed.

(** A fourth key enters the full sample store of capacity 2. *)
Lemma cache_set_never_evicts_witness :
  Cache.size (Cache.set swr_off "d" "D" None 50 crowded) = 4
  /\ Cache.maxSize swr_off < Cache.size (Cache.set swr_off "d" "D" None 50 crowded).
Proof.
  destruct (cache_set_never_evicts swr_off "d" "D" None 50 crowded) as (_ & Hnew & _).
  destruct (Hnew eq_refl) as [Hsize Hover].
  split; [exact Hsize|]. apply Hover. discriminate.
Defined.

(** X4.  [delete(key)] returns [true] exactly when the store holds an entry
    for the key, expired or not; it then removes the entry and reports it to
    [onEvict] once, after which [get(key)] returns [undefined] and a second
    [delete(key)] returns [false] and changes nothing.  Without an entry it
    returns [false] and changes nothing. *)
Theorem cache_delete_semantics {T : Type} (o : Cache.CacheOptions) (key : string)
    (now : Z) (st : Cache.State T) :
  (forall item, Cache.map_get key (Cache.store st) = Some item ->
     fst (Cache.delete key st) = true
     /\ Cache.evictions (snd (Cache.delete key st))
        = Cache.evictions st ++ [(key, Cache.value item)]
     /\ Cache.map_get key (Cache.store (snd (Cache.delete key st))) = None
     /\ fst (Cache.get o key now (snd (Cache.delete key st))) = None
     /\ Cache.delete key (snd (Cache.delete key st)) = (false, snd (Cache.delete key st)))
  /\ (Cache.map_get key (Cache.store st) = None -> Cache.delete key st = (false, st)).
Proof.
  split.
  - intros item Hget.
    assert (Hdel : Cache.delete key st = (true, Cache.evict key item st)).
    { unfold Cache.delete. now rewrite Hget. }
    rewrite Hdel. cbn [fst snd].
    assert (Hgone : Cache.map_get key (Cache.store (Cache.evict key item st)) = None)
      by apply map_get_delete_eq.
    split; [reflexivity|]. split; [reflexivity|]. split; [exact Hgone|].
    split; [now rewrite get_absent|].
    unfold Cache.delete. now rewrite Hgone.
  - intros Hnone. unfold Cache.delete. now rewrite Hnone.
Qed.

(** Deleting "a" from the sample store, twice. *)
Lemma cache_delete_semantics_witness :
  fst (Cache.delete "a" crowded) = true
  /\ fst (Cache.delete "a" (snd (Cache.delete "a" crowded))) = false.
Proof.
  destruct (proj1 (cache_delete_semantics swr_off "a" 100 crowded)
              (Cache.mkItem "A" 1000 10 false) eq_refl) as (Htrue & _ & _ & _ & Hagain).
  split; [exact Htrue|]. now rewrite Hagain.
Defined.

(** X5.  With stale-while-revalidate enabled an expired entry is served
    once: the first [get] at or after the expiry returns the stale value,
    marks the entry as being fetched and leaves its last access as it was;
    the next [get], the clock not having gone back, returns [undefined] and
    drops the entry.  [onEvict] is told nothing of an entry that [get]
    drops. *)
Theorem stale_value_served_once {T : Type} (o : Cache.CacheOptions) (key : string)
    (now later : Z) (st : Cache.State T) (item : Cache.CacheItem T) :
  Cache.staleWhileRevalidate o = true ->
  Cache.map_get key (Cache.store st) = Some item ->
  Cache.isFetching item = false ->
  Cache.expiresAt item <= now ->
  now <= later ->
  let first := Cache.get o key now st in
  let second := Cache.get o key later (snd first) in
  fst first = Some (Cache.value item)
  /\ Cache.map_get key (Cache.store (snd first))
     = Some (Cache.mkItem (Cache.value item) (Cache.expiresAt item)
               (Cache.lastAccess item) true)
  /\ fst second = None
  /\ Cache.map_get key (Cache.store (snd second)) = None
  /\ Cache.evictions (snd second) = Cache.evictions st.
Proof.
  intros Hswr Hget Hfresh Hexp Hlater first second.
  assert (Hfirst : first
            = (Some (Cache.value item),
               {| Cache.store :=
                    Cache.map_set key
                      (Cache.mkItem (Cache.value item) (Cache.expiresAt item)
                         (Cache.lastAccess item) true) (Cache.store st);
                  Cache.evictions := Cache.evictions st |})).
  { unfold first, Cache.get. rewrite Hget, Hswr, Hfresh.
    destruct (Z.leb_spec (Cache.expiresAt item) now); [reflexivity|lia]. }
  assert (Hkept : Cache.map_get key (Cache.store (snd first))
                  = Some (Cache.mkItem (Cache.value item) (Cache.expiresAt item)
                            (Cache.lastAccess item) true)).
  { rewrite Hfirst. cbn. apply map_get_set_eq. }
  assert (Hsecond : fst second = None).
  { unfold second, Cache.get. rewrite Hkept. cbn.
    destruct (Z.leb_spec (Cache.expiresAt item) later); [|lia].
    now rewrite orb_true_r. }
  split; [now rewrite Hfirst|]. split; [exact Hkept|]. split; [exact Hsecond|].
  split; [now apply get_None_gone|].
  unfold second, first. rewrite !get_evictions. reflexivity.
Qed.

(** "a" of the sample store, read twice after its expiry at 1000. *)
Lemma stale_value_served_once_witness :
  fst (Cache.get swr_on "a" 2000 crowded) = Some "A"
  /\ fst (Cache.get swr_on "a" 2001 (snd (Cache.get swr_on "a" 2000 crowded))) = None.
Proof.
  pose proof (stale_value_served_once swr_on "a" 2000 2001 crowded
                (Cache.mkItem "A" 1000 10 false) eq_refl eq_refl eq_refl
                ltac:(discriminate) ltac:(discriminate)) as H.
  cbn zeta in H. destruct H as (H1 & _ & H2 & _). split; [exact H1|exact H2].
Defined.

(** ** The cache: [wrap] and [cleanup] *)

Section CacheCleanupFacts.
Context {T : Type}.
Implicit Types (m : Cache.Store T) (st : Cache.State T) (item : Cache.CacheItem T).

Lemma get_live_state (o : Cache.CacheOptions) (key : string) (now : Z) st item :
  Cache.map_get key (Cache.store st) = Some item ->
  now < Cache.expiresAt item ->
  Cache.get o key now st
  = (Some (Cache.value item),
     {| Cache.store :=
          Cache.map_set key
            (Cache.mkItem (Cache.value item) (Cache.expiresAt item) now
               (Cache.isFetching item)) (Cache.store st);
        Cache.evictions := Cache.evictions st |}).
Proof.
  intros Hget Hlive. unfold Cache.get. rewrite Hget.
  destruct (Z.leb_spec (Cache.expiresAt item) now); [lia|reflexivity].
Qed.

Lemma elem_map_set_other (key : string) item m (x : string * Cache.CacheItem T) :
  x ∈ Cache.map_set key item m -> fst x <> key -> x ∈ m.
Proof.
  induction m as [|[k old] rest IH]; cbn; intros Hx Hne.
  - apply list_elem_of_singleton in Hx. subst. cbn in Hne. congruence.
  - destruct (String.eqb_spec k key) as [->|Hk].
    + apply elem_of_cons in Hx as [->|Hx]; [cbn in Hne; congruence|now right].
    + apply elem_of_cons in Hx as [->|Hx]; [left|right; now apply IH].
Qed.

Lemma evict_expired_noop (now : Z) entries :
  (forall e, e ∈ entries -> ¬ Cache.is_expired now e) ->
  forall st, Cache.evict_expired now entries st = st.
Proof.
  induction entries as [|[k item] rest IH]; intros Hlive st; [reflexivity|].
  cbn. destruct (Z.leb_spec (Cache.expiresAt item) now) as [Hexp|_].
  - exfalso. apply (Hlive (k, item)); [left|exact Hexp].
  - apply IH. intros e He. apply Hlive. now right.
Qed.

(** What a [cleanup] pass leaves in the store. *)
Lemma cleanup_store_spec (o : Cache.CacheOptions) (now : Z) st :
  Cache.wf_store (Cache.store st) ->
  0 <= Cache.maxSize o ->
  let live := filter (fun kv => ¬ Cache.is_expired now kv) (Cache.store st) in
  exists victims : Cache.Store T,
    Cache.store (Cache.cleanup o now st) = filter (fun kv => fst kv ∉ fst <$> victims) live
    /\ (forall v, v ∈ victims -> v ∈ live)
    /\ (forall v s, v ∈ victims -> s ∈ Cache.store (Cache.cleanup o now st) ->
          Cache.older v s)
    /\ Cache.size (Cache.cleanup o now st)
       = Z.min (Z.of_nat (length live)) (Cache.maxSize o).
Proof.
  intros Hwf Hmax live.
  set (st1 := Cache.evict_expired now (Cache.store st) st).
  destruct (evict_expired_spec now (Cache.store st) st) as [Hs1 _]. fold st1 in Hs1.
  assert (Hlive : Cache.store st1 = live).
  { rewrite Hs1. apply filter_ext_in. intros [k item] Hin. split.
    - intros Hnot Hexp. apply Hnot. apply list_elem_of_fmap.
      exists (k, item). split; [reflexivity|]. now apply list_elem_of_filter.
    - intros Hnexp Hk. apply Hnexp.
      apply list_elem_of_fmap in Hk as ([k' item'] & Heq & Hin').
      apply list_elem_of_filter in Hin' as [Hexp Hin']. cbn in Heq. subst k'.
      now rewrite (wf_store_unique _ k item item' Hwf Hin Hin'). }
  assert (Hwf1 : Cache.wf_store (Cache.store st1)).
  { rewrite Hlive. now apply wf_store_filter. }
  unfold Cache.cleanup. fold st1.
  destruct (Z.gtb_spec (Cache.size st1) (Cache.maxSize o)) as [Hover|Hfit].
  - set (sorted := Cache.sort_by_lastAccess (Cache.store st1)).
    assert (Hperm : sorted ≡ₚ live).
    { unfold sorted. rewrite sort_perm. now rewrite Hlive. }
    set (j := Z.to_nat (Cache.size st1 - Cache.maxSize o)).
    destruct (evict_oldest_spec o sorted st1) as (Hs & _ & Hz).
    { unfold Cache.wf_store in Hwf1. now rewrite Hperm, <- Hlive. }
    { exact Hwf1. }
    { intros e Hin. now rewrite Hlive, <- Hperm. }
    cbn zeta in Hs, Hz. fold j in Hs, Hz.
    assert (Hsize1 : Cache.size st1 = Z.of_nat (length live)).
    { unfold Cache.size. now rewrite Hlive. }
    assert (Hj : length (take j sorted) = j).
    { apply length_take_le. rewrite Hperm. unfold j. lia. }
    assert (Hsorted : StronglySorted Cache.older (take j sorted ++ drop j sorted)).
    { rewrite take_drop. apply sort_sorted. }
    exists (take j sorted).
    split; [now rewrite Hs, Hlive|].
    split; [intros v Hv; rewrite <- Hperm; exact (subseteq_take j sorted v Hv)|].
    split.
    { intros v s Hv Hsurv. rewrite Hs in Hsurv.
      apply list_elem_of_filter in Hsurv as [Hkey Hin].
      rewrite Hlive, <- Hperm, <- (take_drop j sorted) in Hin.
      apply elem_of_app in Hin as [Hin|Hin].
      - exfalso. apply Hkey. now apply list_elem_of_fmap_2.
      - eapply StronglySorted_app_1_elem_of; eassumption. }
    rewrite Hz, Hj. unfold j. lia.
  - exists []. cbn [fmap list_fmap].
    split.
    { rewrite Hlive. symmetry. apply filter_keep_all. intros x _. apply not_elem_of_nil. }
    split; [intros v Hv; inversion Hv|].
    split; [intros v s Hv; inversion Hv|].
    unfold Cache.size in *. rewrite Hlive in *. lia.
Qed.

End CacheCleanupFacts.

(** X6.  [wrap] is a cache-aside read: on a hit the function is not
    invoked and the cached value is returned; on a miss the function is
    invoked, an error of the function is passed on with nothing cached
    under the key, and a value of the function is returned and cached, so
    that a [wrap] of the same key before that entry expires returns the
    value without invoking its function. *)
Theorem wrap_memoizes {W T : Type} (o : Cache.CacheOptions) (key : string)
    (ttl_arg : option Z) (now_get now_set again again_set : Z) (fn fn' : Operation W T)
    (st : Cache.State T) (w : W) :
  let run := Cache.wrap o key ttl_arg now_get now_set fn (st, w) in
  (forall v, fst (Cache.get o key now_get st) = Some v ->
     run = ((snd (Cache.get o key now_get st), w), Returned v))
  /\ (fst (Cache.get o key now_get st) = None ->
      snd (fst run) = fst (fn w)
      /\ (forall e, snd (fn w) = Threw e ->
            snd run = Threw e
            /\ Cache.map_get key (Cache.store (fst (fst run))) = None)
      /\ (forall v, snd (fn w) = Returned v ->
            snd run = Returned v
            /\ (again < now_set + default (Cache.ttl o) ttl_arg ->
                snd (Cache.wrap o key ttl_arg again again_set fn' (fst run)) = Returned v
                /\ snd (fst (Cache.wrap o key ttl_arg again again_set fn' (fst run)))
                   = fst (fn w)))).
Proof.
  cbn zeta. unfold Cache.wrap at 1 2 3 4 5 7 9.
  destruct (Cache.get o key now_get st) as [[cached|] s1] eqn:Hget; cbn [fst snd].
  - split; [now intros v [= ->]|discriminate].
  - split; [discriminate|]. intros _.
    assert (Hgone : Cache.map_get key (Cache.store s1) = None).
    { pose proof (get_None_gone o key now_get st) as H. rewrite Hget in H. now apply H. }
    destruct (fn w) as [w' [v|e]]; cbn [fst snd].
    + split; [reflexivity|]. split; [discriminate|].
      intros v' [= <-]. split; [reflexivity|]. intros Hlive.
      unfold Cache.wrap.
      rewrite (get_live_state o key again (Cache.set o key v ttl_arg now_set s1) _
                 (set_stores o key v ttl_arg now_set s1)) by (cbn; lia).
      split; reflexivity.
    + split; [reflexivity|]. split; [|discriminate].
      intros e' [= <-]. split; [reflexivity|exact Hgone].
Qed.

(** A first [wrap] of the succeeding sample operation on an empty cache, and
    a second one, of the failing operation, one minute later. *)
Lemma wrap_memoizes_witness :
  let run := Cache.wrap swr_off "Form.load:7" None 0 10 succeeding_operation
               (Cache.empty, 0%nat) in
  snd run = Returned 200
  /\ snd (Cache.wrap swr_off "Form.load:7" None 60000 60010 failing_operation (fst run))
     = Returned 200
  /\ snd (fst (Cache.wrap swr_off "Form.load:7" None 60000 60010 failing_operation (fst run)))
     = 1%nat.
Proof.
  pose proof (proj2 (wrap_memoizes swr_off "Form.load:7" None 0 10 60000 60010
                       succeeding_operation failing_operation Cache.empty 0%nat) eq_refl)
    as (_ & _ & Hret).
  destruct (Hret 200 eq_refl) as [Hfirst Hnext].
  destruct (Hnext ltac:(vm_compute; reflexivity)) as [Hsecond Hworld].
  cbn zeta. split; [exact Hfirst|]. split; [exact Hsecond|exact Hworld].
Defined.

(** X7.  A second [cleanup] pass at the same clock reading changes nothing:
    the first pass leaves no expired entry and at most [maxSize] entries. *)
Theorem cleanup_idempotent {T : Type} (o : Cache.CacheOptions) (now : Z)
    (st : Cache.State T) :
  Cache.wf_store (Cache.store st) ->
  0 <= Cache.maxSize o ->
  Cache.cleanup o now (Cache.cleanup o now st) = Cache.cleanup o now st.
Proof.
  intros Hwf Hmax.
  destruct (cleanup_store_spec o now st Hwf Hmax) as (victims & Hstore & _ & _ & Hsize).
  set (st' := Cache.cleanup o now st) in *.
  unfold Cache.cleanup at 1.
  rewrite evict_expired_noop.
  - destruct (Z.gtb_spec (Cache.size st') (Cache.maxSize o)); [lia|reflexivity].
  - intros e He. rewrite Hstore in He.
    apply list_elem_of_filter in He as [_ He].
    now apply list_elem_of_filter in He as [He _].
Qed.

(** Two passes over the sample store. *)
Lemma cleanup_idempotent_witness :
  Cache.cleanup swr_off 100 (Cache.cleanup swr_off 100 crowded)
  = Cache.cleanup swr_off 100 crowded
  /\ Cache.evictions (Cache.cleanup swr_off 100 (Cache.cleanup swr_off 100 crowded))
     = [("a", "A")].
Proof.
  assert (Hwf : Cache.wf_store (Cache.store crowded)) by (unfold Cache.wf_store; compute_done).
  pose proof (cleanup_idempotent swr_off 100 crowded Hwf ltac:(discriminate)) as H.
  split; [exact H|]. rewrite H. reflexivity.
Defined.

(** X8.  A read protects an entry from the next [cleanup]: if [get] finds
    the entry unexpired at a clock reading later than the last access of
    every other entry, and the entry is still unexpired when [cleanup]
    runs, then with [maxSize >= 1] the entry survives the pass, whatever
    the number of entries. *)
Theorem get_protects_from_eviction {T : Type} (o : Cache.CacheOptions) (key : string)
    (now_get now : Z) (st : Cache.State T) (item : Cache.CacheItem T) :
  Cache.wf_store (Cache.store st) ->
  1 <= Cache.maxSize o ->
  Cache.map_get key (Cache.store st) = Some item ->
  now_get < Cache.expiresAt item ->
  now < Cache.expiresAt item ->
  (forall other, other ∈ Cache.store st -> fst other <> key ->
     Cache.lastAccess (snd other) < now_get) ->
  Cache.map_get key (Cache.store (Cache.cleanup o now (snd (Cache.get o key now_get st))))
  = Some (Cache.mkItem (Cache.value item) (Cache.expiresAt item) now_get
            (Cache.isFetching item)).
Proof.
  intros Hwf Hmax Hget Hfresh Hlive Hnewest.
  set (item' := Cache.mkItem (Cache.value item) (Cache.expiresAt item) now_get
                  (Cache.isFetching item)).
  rewrite (get_live_state o key now_get st item Hget Hfresh). cbn [snd]. fold item'.
  set (st2 := {| Cache.store := Cache.map_set key item' (Cache.store st);
                 Cache.evictions := Cache.evictions st |}).
  assert (Hwf2 : Cache.wf_store (Cache.store st2)) by now apply wf_store_set.
  assert (Hin2 : (key, item') ∈ Cache.store st2).
  { apply map_get_Some_elem. cbn. apply map_get_set_eq. }
  destruct (cleanup_store_spec o now st2 Hwf2 ltac:(lia))
    as (victims & Hstore & Hvict & Holder & Hsize).
  set (live := filter (fun kv => ¬ Cache.is_expired now kv) (Cache.store st2)) in *.
  assert (Hlive2 : (key, item') ∈ live).
  { apply list_elem_of_filter. split; [|exact Hin2]. unfold Cache.is_expired. cbn. lia. }
  assert (Hsafe : key ∉ fst <$> victims).
  { intros Hk. apply list_elem_of_fmap in Hk as ([k' v] & Heq & Hv). cbn in Heq. subst k'.
    assert (v = item').
    { apply Hvict in Hv. apply list_elem_of_filter in Hv as [_ Hv].
      exact (wf_store_unique _ key v item' Hwf2 Hv Hin2). }
    subst v.
    assert (Hnonempty : 0 < Cache.size (Cache.cleanup o now st2)).
    { rewrite Hsize. destruct live; [inversion Hlive2|cbn; lia]. }
    unfold Cache.size in Hnonempty.
    destruct (Cache.store (Cache.cleanup o now st2)) as [|s rest] eqn:Hs; [cbn in *; lia|].
    assert (Hs_in : s ∈ s :: rest) by left.
    pose proof (Holder _ s Hv Hs_in) as Hold.
    rewrite Hstore in Hs_in. apply list_elem_of_filter in Hs_in as [Hskey Hs_live].
    apply list_elem_of_filter in Hs_live as [_ Hs_st2].
    assert (Hne : fst s <> key).
    { intros Heq. apply Hskey. apply list_elem_of_fmap. exists (key, item'). now split. }
    pose proof (Hnewest s (elem_map_set_other key item' _ s Hs_st2 Hne) Hne).
    unfold Cache.older in Hold. cbn in Hold. lia. }
  apply elem_map_get.
  - eapply wf_store_sublist; [apply cleanup_sublist|exact Hwf2].
  - rewrite Hstore. apply list_elem_of_filter. split; [exact Hsafe|exact Hlive2].
Qed.

(** "a", the oldest entry of the sample store, is read at 50 and survives
    the pass at 100. *)
Lemma get_protects_from_eviction_witness :
  Cache.map_get "a"
    (Cache.store (Cache.cleanup swr_off 100 (snd (Cache.get swr_off "a" 50 crowded))))
  = Some (Cache.mkItem "A" 1000 50 false).
Proof.
  assert (Hwf : Cache.wf_store (Cache.store crowded)) by (unfold Cache.wf_store; compute_done).
  apply (get_protects_from_eviction swr_off "a" 50 100 crowded
           (Cache.mkItem "A" 1000 10 false) Hwf);
    [discriminate|reflexivity|reflexivity|reflexivity|].
  intros other Hother Hne.
  repeat (apply elem_of_cons in Hother as [->|Hother]); cbn in *;
    [congruence|lia|lia|inversion Hother].
Defined.

(** ** The circuit breaker: isolation, invariant, trial calls *)

Lemma getState_setState_ne (key k : string) (s : CircuitBreaker.CircuitState)
    (states : gmap string CircuitBreaker.CircuitState) :
  k <> key ->
  CircuitBreaker.getState k (CircuitBreaker.setState key s states)
  = CircuitBreaker.getState k states.
Proof.
  intros Hne. unfold CircuitBreaker.getState, CircuitBreaker.setState.
  now rewrite lookup_insert_ne by congruence.
Qed.

Section CircuitBreakerMore.
Context {W T : Type}.
Variable o : CircuitBreaker.CircuitBreakerOptions.
Variable key : string.

Lemma on_entry_other (k : string) (now : Z)
    (states states1 : gmap string CircuitBreaker.CircuitState) :
  k <> key ->
  CircuitBreaker.on_entry o key now states = inr states1 ->
  CircuitBreaker.getState k states1 = CircuitBreaker.getState k states.
Proof.
  intros Hne. unfold CircuitBreaker.on_entry.
  destruct (CircuitBreaker.isOpen _); [destruct (_ && _)|]; intros [= <-];
    [now apply getState_setState_ne|reflexivity].
Qed.

(** After its entry test has let a call through, the circuit is not open. *)
Lemma on_entry_passed (now : Z) (states states1 : gmap string CircuitBreaker.CircuitState) :
  CircuitBreaker.on_entry o key now states = inr states1 ->
  CircuitBreaker.isOpen (CircuitBreaker.getState key states1) = false
  /\ CircuitBreaker.failures (CircuitBreaker.getState key states1)
     = CircuitBreaker.failures (CircuitBreaker.getState key states).
Proof.
  unfold CircuitBreaker.on_entry.
  destruct (CircuitBreaker.isOpen (CircuitBreaker.getState key states)) eqn:Hopen;
    [destruct (_ && _)|]; intros [= <-].
  - rewrite getState_setState. now split.
  - now split.
Qed.

Lemma execute_other (k : string) (now : Z) (operation : Operation W T)
    (states : gmap string CircuitBreaker.CircuitState) (w : W) :
  k <> key ->
  CircuitBreaker.getState k (fst (fst (CircuitBreaker.execute o key now operation (states, w))))
  = CircuitBreaker.getState k states.
Proof.
  intros Hne. unfold CircuitBreaker.execute.
  destruct (CircuitBreaker.on_entry o key now states) as [e|states1] eqn:Hentry;
    [reflexivity|].
  pose proof (on_entry_other k now states states1 Hne Hentry) as Hsame.
  destruct (operation w) as [w' [v|e]]; cbn [fst];
    unfold CircuitBreaker.on_success, CircuitBreaker.on_failure;
    try destruct (_ >=? _); now rewrite getState_setState_ne.
Qed.

(** Failing calls through a circuit that is not open, as long as the
    failure count stays within the threshold: every operation is invoked,
    the count climbs by one per call, and the circuit is open at the end
    exactly if the count has reached the threshold. *)
Lemma run_failures (calls : list (Z * Operation W T)) :
  Forall (fun c => always_throws (snd c)) calls ->
  forall (states : gmap string CircuitBreaker.CircuitState) (w : W),
    CircuitBreaker.isOpen (CircuitBreaker.getState key states) = false ->
    CircuitBreaker.failures (CircuitBreaker.getState key states) + Z.of_nat (length calls)
      <= CircuitBreaker.failureThreshold o ->
    exists states' es,
      CircuitBreaker.run o key calls (states, w)
        = ((states', after_operations (map snd calls) w), map Threw es)
      /\ length es = length calls
      /\ CircuitBreaker.failures (CircuitBreaker.getState key states')
         = CircuitBreaker.failures (CircuitBreaker.getState key states)
           + Z.of_nat (length calls)
      /\ (calls = [] -> states' = states)
      /\ (calls <> [] ->
          CircuitBreaker.successCount (CircuitBreaker.getState key states') = 0
          /\ CircuitBreaker.isOpen (CircuitBreaker.getState key states')
             = (CircuitBreaker.failures (CircuitBreaker.getState key states')
                  >=? CircuitBreaker.failureThreshold o)).
Proof.
  induction 1 as [|[now operation] rest Hthrow Hrest IH]; intros states w Hclosed Hroom.
  - exists states, []. cbn.
    split; [reflexivity|]. split; [reflexivity|]. split; [lia|].
    split; [reflexivity|]. intros Hne. congruence.
  - cbn [CircuitBreaker.run]. rewrite execute_closed by exact Hclosed.
    destruct (Hthrow w) as [e He]. cbn in He. rewrite He.
    set (s1 := CircuitBreaker.on_failure o key now states).
    assert (G1 : CircuitBreaker.getState key s1
                 = {| CircuitBreaker.failures :=
                        CircuitBreaker.failures (CircuitBreaker.getState key states) + 1;
                      CircuitBreaker.lastFailureTime := Some now;
                      CircuitBreaker.isOpen :=
                        CircuitBreaker.failures (CircuitBreaker.getState key states) + 1
                          >=? CircuitBreaker.failureThreshold o;
                      CircuitBreaker.successCount := 0 |}).
    { unfold s1, CircuitBreaker.on_failure. now rewrite getState_setState. }
    cbn [length] in Hroom.
    destruct rest as [|c rest'].
    + exists s1, [e]. cbn. rewrite G1. cbn.
      split; [reflexivity|]. split; [reflexivity|]. split; [lia|].
      split; [discriminate|]. intros _. split; reflexivity.
    + destruct (IH s1 (fst (operation w))) as (states' & es & Hrun & Hlen & Hf & _ & Hlast).
      * rewrite G1. cbn. cbn [length] in Hroom.
        destruct (Z.geb_spec
                    (CircuitBreaker.failures (CircuitBreaker.getState key states) + 1)
                    (CircuitBreaker.failureThreshold o)); [lia|reflexivity].
      * rewrite G1. cbn [CircuitBreaker.failures]. cbn [length] in Hroom |- *. lia.
      * rewrite Hrun. exists states', (e :: es).
        split; [reflexivity|]. split; [cbn; now rewrite Hlen|].
        split; [rewrite Hf, G1; cbn [CircuitBreaker.failures length]; lia|].
        split; [discriminate|]. intros _. apply Hlast. discriminate.
Qed.

End CircuitBreakerMore.

(** X9.  The breaker tracks keys independently: calls for one key, however
    many and however they end, never change the state of another key. *)
Theorem breaker_keys_are_isolated {W T : Type} (o : CircuitBreaker.CircuitBreakerOptions)
    (key k : string) (calls : list (Z * Operation W T))
    (states : gmap string CircuitBreaker.CircuitState) (w : W) :
  k <> key ->
  CircuitBreaker.getState k (fst (fst (CircuitBreaker.run o key calls (states, w))))
  = CircuitBreaker.getState k states.
Proof.
  intros Hne. revert states w.
  induction calls as [|[now operation] rest IH]; intros states w;
    cbn [CircuitBreaker.run]; [reflexivity|].
  pose proof (execute_other o key k now operation states w Hne) as Hstep.
  destruct (CircuitBreaker.execute o key now operation (states, w)) as [[states1 w1] r].
  specialize (IH states1 w1).
  destruct (CircuitBreaker.run o key rest (states1, w1)) as [[states2 w2] rs].
  cbn [fst] in *. now rewrite IH.
Qed.

(** Three failures of "form-2" leave the tripped circuit of "form-1" as it is. *)
Lemma breaker_keys_are_isolated_witness :
  CircuitBreaker.getState "form-1"
    (fst (fst (CircuitBreaker.run default_breaker_options "form-2"
                 [(100, failing_operation); (200, failing_operation);
                  (300, failing_operation)] (tripped_states, 0%nat))))
  = CircuitBreaker.getState "form-1" tripped_states.
Proof.
  apply (breaker_keys_are_isolated default_breaker_options "form-2" "form-1"). discriminate.
Defined.

(** X10.  If every open circuit has reached the failure threshold and has
    recorded the time of its last failure, the same holds after any call,
    for every key; and after a call whose operation succeeded the circuit
    of its key is not open. *)
Theorem breaker_state_stays_consistent {W T : Type}
    (o : CircuitBreaker.CircuitBreakerOptions) (key : string) (now : Z)
    (operation : Operation W T) (states : gmap string CircuitBreaker.CircuitState) (w : W) :
  (forall k, CircuitBreaker.consistent o (CircuitBreaker.getState k states)) ->
  (forall k,
     CircuitBreaker.consistent o
       (CircuitBreaker.getState k
          (fst (fst (CircuitBreaker.execute o key now operation (states, w))))))
  /\ (forall v,
        snd (CircuitBreaker.execute o key now operation (states, w)) = Returned v ->
        CircuitBreaker.isOpen
          (CircuitBreaker.getState key
             (fst (fst (CircuitBreaker.execute o key now operation (states, w))))) = false).
Proof.
  intros Hinv.
  assert (Hkey :
    CircuitBreaker.consistent o
      (CircuitBreaker.getState key
         (fst (fst (CircuitBreaker.execute o key now operation (states, w)))))
    /\ (forall v,
          snd (CircuitBreaker.execute o key now operation (states, w)) = Returned v ->
          CircuitBreaker.isOpen
            (CircuitBreaker.getState key
               (fst (fst (CircuitBreaker.execute o key now operation (states, w)))))
          = false)).
  { unfold CircuitBreaker.execute.
    destruct (CircuitBreaker.on_entry o key now states) as [e|states1] eqn:Hentry.
    - cbn. split; [apply Hinv|discriminate].
    - destruct (on_entry_passed o key now states states1 Hentry) as [Hclosed _].
      destruct (operation w) as [w' [v|e]]; cbn [fst snd].
      + assert (Hnot : CircuitBreaker.isOpen
                         (CircuitBreaker.getState key
                            (CircuitBreaker.on_success o key states1)) = false).
        { unfold CircuitBreaker.on_success. destruct (_ >=? _);
            rewrite getState_setState; [reflexivity|exact Hclosed]. }
        split; [|intros _ _; exact Hnot].
        intros Hopen. congruence.
      + split; [|discriminate].
        unfold CircuitBreaker.on_failure. rewrite getState_setState.
        intros Hopen. cbn in *. split; [lia|eauto]. }
  split; [|exact (proj2 Hkey)].
  intros k. destruct (decide (k = key)) as [->|Hne]; [exact (proj1 Hkey)|].
  rewrite execute_other by exact Hne. apply Hinv.
Qed.

Lemma tripped_states_consistent (k : string) :
  CircuitBreaker.consistent default_breaker_options
    (CircuitBreaker.getState k tripped_states).
Proof.
  unfold CircuitBreaker.getState, tripped_states.
  destruct (decide (k = "form-1")) as [->|Hne].
  - rewrite lookup_singleton_eq. intros _. cbn. split; [lia|eauto].
  - rewrite lookup_singleton_ne by congruence. discriminate.
Qed.

(** A successful call at 20000 closes the sample circuit. *)
Lemma breaker_state_stays_consistent_witness :
  CircuitBreaker.isOpen
    (CircuitBreaker.getState "form-1"
       (fst (fst (CircuitBreaker.execute default_breaker_options "form-1" 20000
                    succeeding_operation (tripped_states, 0%nat))))) = false.
Proof.
  exact (proj2 (breaker_state_stays_consistent default_breaker_options "form-1" 20000
                  succeeding_operation tripped_states 0%nat tripped_states_consistent)
           200 ltac:(vm_compute; reflexivity)).
Defined.

(** X11.  A failed trial call re-opens the circuit: when the circuit is open,
    its timeout has elapsed and the operation let through fails, the error
    is passed on, the failure is counted with the clock reading of the
    call, the circuit is open again, and a call made within [timeoutMs] of
    that reading is rejected without invoking its operation. *)
Theorem failed_trial_reopens {W T : Type} (o : CircuitBreaker.CircuitBreakerOptions)
    (key : string) (t now next : Z) (operation probe : Operation W T) (e : Thrown)
    (states : gmap string CircuitBreaker.CircuitState) (w : W) :
  CircuitBreaker.isOpen (CircuitBreaker.getState key states) = true ->
  CircuitBreaker.lastFailureTime (CircuitBreaker.getState key states) = Some t ->
  t <> 0 ->
  CircuitBreaker.timeoutMs o < now - t ->
  CircuitBreaker.failureThreshold o
    <= CircuitBreaker.failures (CircuitBreaker.getState key states) + 1 ->
  snd (operation w) = Threw e ->
  next - now <= CircuitBreaker.timeoutMs o ->
  let trial := CircuitBreaker.execute o key now operation (states, w) in
  snd trial = Threw e
  /\ snd (fst trial) = fst (operation w)
  /\ CircuitBreaker.getState key (fst (fst trial))
     = {| CircuitBreaker.failures :=
            CircuitBreaker.failures (CircuitBreaker.getState key states) + 1;
          CircuitBreaker.lastFailureTime := Some now;
          CircuitBreaker.isOpen := true;
          CircuitBreaker.successCount := 0 |}
  /\ exists message retryAfter,
       CircuitBreaker.execute o key next probe (fst trial)
       = (fst trial, Threw (ServiceUnavailableError message retryAfter key (Some now))).
Proof.
  intros Hopen Ht Hne Hpast Hthr He Hnext trial.
  assert (Htrial : trial
            = ((CircuitBreaker.on_failure o key now
                  (CircuitBreaker.setState key
                     {| CircuitBreaker.failures :=
                          CircuitBreaker.failures (CircuitBreaker.getState key states);
                        CircuitBreaker.lastFailureTime := Some t;
                        CircuitBreaker.isOpen := false;
                        CircuitBreaker.successCount := 0 |} states),
                fst (operation w)), Threw e)).
  { unfold trial. rewrite (execute_elapsed o key now t) by assumption.
    rewrite execute_closed by now rewrite getState_setState.
    now rewrite He. }
  assert (Hstate : CircuitBreaker.getState key (fst (fst trial))
            = {| CircuitBreaker.failures :=
                   CircuitBreaker.failures (CircuitBreaker.getState key states) + 1;
                 CircuitBreaker.lastFailureTime := Some now;
                 CircuitBreaker.isOpen := true;
                 CircuitBreaker.successCount := 0 |}).
  { rewrite Htrial. cbn [fst]. unfold CircuitBreaker.on_failure.
    rewrite !getState_setState. cbn [CircuitBreaker.failures]. f_equal.
    destruct (Z.geb_spec
                (CircuitBreaker.failures (CircuitBreaker.getState key states) + 1)
                (CircuitBreaker.failureThreshold o)); [reflexivity|lia]. }
  split; [now rewrite Htrial|]. split; [now rewrite Htrial|]. split; [exact Hstate|].
  eexists _, _. destruct (fst trial) as [states1 w1] eqn:Hfst. cbn [fst] in Hstate.
  apply execute_open_within; [now rewrite Hstate|now rewrite Hstate|exact Hnext].
Qed.

(** The sample circuit, tripped at 300: a trial at 20000 fails, a call at
    25000 is rejected unseen. *)
Lemma failed_trial_reopens_witness :
  exists message retryAfter,
    CircuitBreaker.execute default_breaker_options "form-1" 25000 succeeding_operation
      (fst (CircuitBreaker.execute default_breaker_options "form-1" 20000 failing_operation
              (tripped_states, 0%nat)))
    = (fst (CircuitBreaker.execute default_breaker_options "form-1" 20000 failing_operation
              (tripped_states, 0%nat)),
       Threw (ServiceUnavailableError message retryAfter "form-1" (Some 20000))).
Proof.
  pose proof (failed_trial_reopens default_breaker_options "form-1" 300 20000 25000
                failing_operation succeeding_operation (PlainError "connect ECONNREFUSED")
                tripped_states 0%nat eq_refl eq_refl ltac:(discriminate) eq_refl
                ltac:(vm_compute; discriminate) eq_refl ltac:(vm_compute; discriminate))
    as H.
  cbn zeta in H. exact (proj2 (proj2 (proj2 H))).
Defined.

(** X12.  The failure count is not a count of consecutive failures: with
    [successThreshold >= 2] a single success between failures leaves the
    count as it is.  On a key with no failures and a circuit that is not
    open, failing calls, one successful call and further failing calls,
    [failureThreshold] failures in all, invoke every operation and leave
    the circuit open. *)
Theorem isolated_success_keeps_failures {W T : Type}
    (o : CircuitBreaker.CircuitBreakerOptions) (key : string)
    (before after : list (Z * Operation W T)) (t : Z) (g : Operation W T)
    (states : gmap string CircuitBreaker.CircuitState) (w : W) :
  2 <= CircuitBreaker.successThreshold o ->
  CircuitBreaker.isOpen (CircuitBreaker.getState key states) = false ->
  CircuitBreaker.failures (CircuitBreaker.getState key states) = 0 ->
  Forall (fun c => always_throws (snd c)) before ->
  Forall (fun c => always_throws (snd c)) after ->
  always_returns g ->
  before <> [] -> after <> [] ->
  Z.of_nat (length before + length after) = CircuitBreaker.failureThreshold o ->
  let calls := before ++ (t, g) :: after in
  let done := CircuitBreaker.run o key calls (states, w) in
  snd (fst done) = after_operations (map snd calls) w
  /\ CircuitBreaker.isOpen (CircuitBreaker.getState key (fst (fst done))) = true
  /\ CircuitBreaker.failures (CircuitBreaker.getState key (fst (fst done)))
     = CircuitBreaker.failureThreshold o.
Proof.
  intros Hsucc Hclosed Hzero Hbefore Hafter Hg Hb Ha Hlen calls done.
  rewrite Nat2Z.inj_add in Hlen.
  assert (Hla : (0 < length after)%nat) by (destruct after; [congruence|cbn; lia]).
  destruct (run_failures o key before Hbefore states w Hclosed ltac:(lia))
    as (s1 & es1 & Hrun1 & _ & Hf1 & _ & Hlast1).
  destruct (Hlast1 Hb) as [Hsc1 Hopen1].
  assert (Hclosed1 : CircuitBreaker.isOpen (CircuitBreaker.getState key s1) = false).
  { rewrite Hopen1.
    destruct (Z.geb_spec (CircuitBreaker.failures (CircuitBreaker.getState key s1))
                (CircuitBreaker.failureThreshold o)); [lia|reflexivity]. }
  set (w1 := after_operations (map snd before) w) in *.
  destruct (Hg w1) as [v Hv].
  set (s2 := CircuitBreaker.on_success o key s1).
  assert (Hstep : CircuitBreaker.execute o key t g (s1, w1)
                  = ((s2, fst (g w1)), Returned v)).
  { rewrite execute_closed by exact Hclosed1. now rewrite Hv. }
  assert (G2 : CircuitBreaker.isOpen (CircuitBreaker.getState key s2) = false
               /\ CircuitBreaker.failures (CircuitBreaker.getState key s2)
                  = CircuitBreaker.failures (CircuitBreaker.getState key s1)).
  { unfold s2, CircuitBreaker.on_success. rewrite Hsc1.
    destruct (Z.geb_spec (0 + 1) (CircuitBreaker.successThreshold o)); [lia|].
    rewrite getState_setState. now split. }
  destruct G2 as [Hclosed2 Hf2].
  destruct (run_failures o key after Hafter s2 (fst (g w1)) Hclosed2 ltac:(lia))
    as (s3 & es3 & Hrun3 & _ & Hf3 & _ & Hlast3).
  destruct (Hlast3 Ha) as [_ Hopen3].
  assert (Hdone : done
            = ((s3, after_operations (map snd calls) w),
               map Threw es1 ++ Returned v :: map Threw es3)).
  { unfold done, calls. rewrite run_app, Hrun1. cbn [CircuitBreaker.run].
    rewrite Hstep, Hrun3. unfold after_operations, w1.
    rewrite map_app, foldl_app. reflexivity. }
  rewrite Hdone. cbn [fst snd].
  split; [reflexivity|]. split.
  - rewrite Hopen3.
    destruct (Z.geb_spec (CircuitBreaker.failures (CircuitBreaker.getState key s3))
                (CircuitBreaker.failureThreshold o)); [reflexivity|lia].
  - lia.
Qed.

(** Fail, succeed, fail, fail: the default breaker is open. *)
Lemma isolated_success_keeps_failures_witness :
  CircuitBreaker.isOpen
    (CircuitBreaker.getState "form-1"
       (fst (fst (CircuitBreaker.run default_breaker_options "form-1"
                    ([(100, failing_operation)] ++ (200, succeeding_operation)
                       :: [(300, failing_operation); (400, failing_operation)])
                    (no_circuits, 0%nat))))) = true.
Proof.
  pose proof (isolated_success_keeps_failures default_breaker_options "form-1"
                [(100, failing_operation)]
                [(300, failing_operation); (400, failing_operation)]
                200 succeeding_operation no_circuits 0%nat
                ltac:(vm_compute; discriminate)
                (f_equal CircuitBreaker.isOpen (no_circuits_closed "form-1"))
                (f_equal CircuitBreaker.failures (no_circuits_closed "form-1"))
                ltac:(repeat constructor; exact failing_operation_throws)
                ltac:(repeat constructor; exact failing_operation_throws)
                succeeding_operation_returns ltac:(discriminate) ltac:(discriminate)
                eq_refl) as H.
  cbn zeta in H. exact (proj1 (proj2 H)).
Defined.

(** X13.  The retry-after of a rejection is honest and tight, in whole
    seconds: when the clock has not gone back since the last failure it lies
    between 0 and [ceil(timeoutMs / 1000)]; any call made more than
    [retryAfter] seconds after the rejected one is let through to its
    operation, and any call made no later than [retryAfter - 1] seconds
    after it is rejected again. *)
Theorem retry_after_is_honest {W T : Type} (o : CircuitBreaker.CircuitBreakerOptions)
    (key : string) (t now later : Z) (operation : Operation W T)
    (states : gmap string CircuitBreaker.CircuitState) (w : W) :
  CircuitBreaker.isOpen (CircuitBreaker.getState key states) = true ->
  CircuitBreaker.lastFailureTime (CircuitBreaker.getState key states) = Some t ->
  t <> 0 ->
  t <= now ->
  now - t <= CircuitBreaker.timeoutMs o ->
  let retryAfter := ceil_div (CircuitBreaker.timeoutMs o - (now - t)) 1000 in
  0 <= retryAfter <= ceil_div (CircuitBreaker.timeoutMs o) 1000
  /\ (now + 1000 * retryAfter < later ->
      snd (fst (CircuitBreaker.execute o key later operation (states, w)))
      = fst (operation w)
      /\ snd (CircuitBreaker.execute o key later operation (states, w))
         = snd (operation w))
  /\ (later <= now + 1000 * (retryAfter - 1) ->
      exists message again,
        CircuitBreaker.execute o key later operation (states, w)
        = ((states, w), Threw (ServiceUnavailableError message again key (Some t)))).
Proof.
  intros Hopen Ht Hne Hmono Hwithin retryAfter.
  pose proof (ceil_div_1000 (CircuitBreaker.timeoutMs o - (now - t))) as Hra.
  pose proof (ceil_div_1000 (CircuitBreaker.timeoutMs o)) as Hmax.
  fold retryAfter in Hra.
  split; [lia|]. split.
  - intros Hlater.
    rewrite (execute_elapsed o key later t) by (try assumption; lia).
    rewrite execute_closed by now rewrite getState_setState.
    destruct (snd (operation w)); split; reflexivity.
  - intros Hearly. eexists _, _.
    apply execute_open_within; [exact Hopen|exact Ht|lia].
Qed.

(** The sample circuit, tripped at 300 with a timeout of 10 s: rejected at
    300 with a retry-after of 10, a call at 10301 goes through. *)
Lemma retry_after_is_honest_witness :
  ceil_div (CircuitBreaker.timeoutMs default_breaker_options - (300 - 300)) 1000 = 10
  /\ snd (CircuitBreaker.execute default_breaker_options "form-1" 10301 succeeding_operation
            (tripped_states, 0%nat)) = Returned 200.
Proof.
  split; [reflexivity|].
  pose proof (retry_after_is_honest default_breaker_options "form-1" 300 300 10301
                succeeding_operation tripped_states 0%nat eq_refl eq_refl
                ltac:(discriminate) ltac:(discriminate) ltac:(vm_compute; discriminate))
    as H.
  cbn zeta in H. destruct H as (_ & Hlater & _).
  exact (proj2 (Hlater eq_refl)).
Defined.

(** ** The rate limiter: what [execute] records *)

Lemma isAllowed_within_window (o : RateLimiter.InternalRateLimitOptions) (key : string)
    (now : Z) (states : gmap string RateLimiter.RateLimitState)
    (s : RateLimiter.RateLimitState) :
  states !! key = Some s ->
  now <= RateLimiter.resetTime s ->
  RateLimiter.isAllowed o key now states = (RateLimiter.verdict_of o s, states).
Proof.
  intros Hs Hle. unfold RateLimiter.isAllowed, RateLimiter.roll. rewrite Hs.
  destruct (Z.gtb_spec now (RateLimiter.resetTime s)); [lia|].
  now rewrite insert_id.
Qed.

(** X14.  When the function fails with a rate-limit error that carries a
    non-zero retry-after, [execute] passes the error on and records for the
    key the state [{count: maxRequests, resetTime: caught + retryAfter * 1000}].
    Until that reset time a check still reports [allowed], with nothing
    remaining, and leaves the state alone; the first check after it reports
    the full quota and starts a new window. *)
Theorem rate_limit_recorded_then_reported {W T : Type}
    (o : RateLimiter.InternalRateLimitOptions) (key message : string)
    (now now_caught check secs : Z) (fn : Operation W T)
    (states : gmap string RateLimiter.RateLimitState) (w : W) :
  snd (fn w) = Threw (RateLimitError message (Some (Fin secs))) ->
  secs <> 0 ->
  let done := RateLimiter.execute o key now now_caught fn (states, w) in
  let recorded := {| RateLimiter.count := RateLimiter.maxRequests o;
                     RateLimiter.resetTime := now_caught + secs * 1000 |} in
  snd done = Threw (RateLimitError message (Some (Fin secs)))
  /\ RateLimiter.getState key (fst (fst done)) = Some recorded
  /\ (check <= now_caught + secs * 1000 ->
      RateLimiter.isAllowed o key check (fst (fst done))
      = ({| RateLimiter.allowed := true; RateLimiter.remaining := 0;
            RateLimiter.retryAfter := 0;
            RateLimiter.verdictResetTime := now_caught + secs * 1000 |},
         fst (fst done)))
  /\ (now_caught + secs * 1000 < check ->
      RateLimiter.remaining (fst (RateLimiter.isAllowed o key check (fst (fst done))))
      = Z.max 0 (RateLimiter.maxRequests o)
      /\ RateLimiter.getState key
           (snd (RateLimiter.isAllowed o key check (fst (fst done))))
         = Some {| RateLimiter.count := 0;
                   RateLimiter.resetTime := check + RateLimiter.timeWindow o |}).
Proof.
  intros Hfn Hsecs done recorded.
  assert (Hdone : done
            = ((<[key := recorded]> (snd (RateLimiter.isAllowed o key now states)),
                fst (fn w)),
               Threw (RateLimitError message (Some (Fin secs))))).
  { unfold done, RateLimiter.execute.
    pose proof (isAllowed_allowed o key now states) as Ha.
    destruct (RateLimiter.isAllowed o key now states) as [v states1]. cbn in Ha.
    rewrite Ha. cbn [negb]. destruct (fn w) as [w' r]. cbn in Hfn. subst r.
    cbn. destruct (Z.eqb_spec secs 0); [contradiction|]. reflexivity. }
  rewrite Hdone. cbn [fst snd].
  set (states' := <[key := recorded]> (snd (RateLimiter.isAllowed o key now states))).
  assert (Hrec : states' !! key = Some recorded) by apply lookup_insert_eq.
  split; [reflexivity|]. split; [exact Hrec|]. split.
  - intros Hcheck. rewrite (isAllowed_within_window o key check states' recorded Hrec Hcheck).
    unfold RateLimiter.verdict_of. cbn. f_equal. f_equal. lia.
  - intros Hcheck. unfold RateLimiter.getState.
    rewrite isAllowed_lookup, Hrec, decide_True by reflexivity.
    unfold RateLimiter.isAllowed, RateLimiter.roll. rewrite Hrec. cbn.
    destruct (Z.gtb_spec check (now_caught + secs * 1000)); [|lia].
    cbn. split; [f_equal; lia|reflexivity].
Qed.

(** The limit is recorded at 1000 for the sample key and reported at 2000. *)
Lemma rate_limit_recorded_then_reported_witness :
  RateLimiter.remaining
    (fst (RateLimiter.isAllowed default_limiter_options "api" 2000
            (fst (fst (RateLimiter.execute default_limiter_options "api" 900 1000
                         throttled_operation (limited_states, 0%nat)))))) = 0.
Proof.
  pose proof (rate_limit_recorded_then_reported default_limiter_options "api"
                "Rate limit exceeded" 900 1000 2000 30 throttled_operation limited_states
                0%nat eq_refl ltac:(discriminate)) as H.
  cbn zeta in H. destruct H as (_ & _ & Hwithin & _).
  now rewrite (Hwithin ltac:(discriminate)).
Defined.

(** X15.  [execute] records nothing else: when the function returns, or
    fails with anything but a rate-limit error carrying a non-zero numeric
    retry-after (so also for a rate-limit error whose retry-after is 0,
    [NaN] or missing), the outcome is passed on and the state map is the one
    the admission check left. *)
Theorem only_rate_limit_errors_are_recorded {W T : Type}
    (o : RateLimiter.InternalRateLimitOptions) (key : string) (now now_caught : Z)
    (fn : Operation W T) (states : gmap string RateLimiter.RateLimitState) (w : W) :
  (forall message secs,
     snd (fn w) = Threw (RateLimitError message (Some (Fin secs))) -> secs = 0) ->
  RateLimiter.execute o key now now_caught fn (states, w)
  = ((snd (RateLimiter.isAllowed o key now states), fst (fn w)), snd (fn w)).
Proof.
  intros Hother. unfold RateLimiter.execute.
  pose proof (isAllowed_allowed o key now states) as Ha.
  destruct (RateLimiter.isAllowed o key now states) as [v states1]. cbn in Ha.
  rewrite Ha. cbn [negb snd]. destruct (fn w) as [w' [x|error]]; [reflexivity|].
  cbn [fst snd] in *. f_equal. f_equal.
  destruct error as [| |m [[|secs]|]| | | | | |]; try reflexivity.
  cbn. rewrite (Hother m secs eq_refl). reflexivity.
Qed.

(** A connection failure leaves the sample limiter as it is. *)
Lemma only_rate_limit_errors_are_recorded_witness :
  fst (fst (RateLimiter.execute default_limiter_options "api" 500 600 failing_operation
              (limited_states, 0%nat))) = limited_states.
Proof.
  rewrite (only_rate_limit_errors_are_recorded default_limiter_options "api" 500 600
             failing_operation limited_states 0%nat ltac:(discriminate)).
  vm_compute. reflexivity.
Defined.

(** X16.  [reset(key)] forgets what was recorded for the key and nothing
    else: [getState(key)] is undefined afterwards, every other key keeps its
    state, and the next check of the key reports the full quota in a window
    that starts at the check.  [resetAll()] forgets every key. *)
Theorem reset_forgets_key (o : RateLimiter.InternalRateLimitOptions) (key k : string)
    (now : Z) (states : gmap string RateLimiter.RateLimitState) :
  RateLimiter.getState key (RateLimiter.reset key states) = None
  /\ (k <> key ->
      RateLimiter.getState k (RateLimiter.reset key states) = RateLimiter.getState k states)
  /\ RateLimiter.isAllowed o key now (RateLimiter.reset key states)
     = (RateLimiter.verdict_of o
          (RateLimiter.roll o now
             {| RateLimiter.count := 0; RateLimiter.resetTime := now + RateLimiter.timeWindow o |}),
        RateLimiter.reset key states)
  /\ (0 <= RateLimiter.timeWindow o ->
      RateLimiter.remaining (fst (RateLimiter.isAllowed o key now (RateLimiter.reset key states)))
      = Z.max 0 (RateLimiter.maxRequests o)
      /\ RateLimiter.verdictResetTime
           (fst (RateLimiter.isAllowed o key now (RateLimiter.reset key states)))
         = now + RateLimiter.timeWindow o)
  /\ RateLimiter.getState k (RateLimiter.resetAll states) = None.
Proof.
  unfold RateLimiter.getState, RateLimiter.reset, RateLimiter.resetAll.
  split; [apply lookup_delete_eq|].
  split; [intros Hne; now apply lookup_delete_ne|].
  assert (Hcheck : RateLimiter.isAllowed o key now (base.delete key states)
            = (RateLimiter.verdict_of o
                 (RateLimiter.roll o now
                    {| RateLimiter.count := 0;
                       RateLimiter.resetTime := now + RateLimiter.timeWindow o |}),
               base.delete key states)).
  { unfold RateLimiter.isAllowed. now rewrite lookup_delete_eq. }
  split; [exact Hcheck|]. split; [|apply lookup_empty].
  intros Hwin. rewrite Hcheck. unfold RateLimiter.roll. cbn.
  destruct (Z.gtb_spec now (now + RateLimiter.timeWindow o)); [lia|].
  cbn. split; [f_equal; lia|reflexivity].
Qed.

(** The sample key after a reset. *)
Lemma reset_forgets_key_witness :
  RateLimiter.remaining
    (fst (RateLimiter.isAllowed default_limiter_options "api" 500
            (RateLimiter.reset "api" limited_states))) = 100.
Proof.
  destruct (reset_forgets_key default_limiter_options "api" "other" 500 limited_states)
    as (_ & _ & _ & Hfull & _).
  exact (proj1 (Hfull ltac:(discriminate))).
Defined.

(** ** The retry policy: success, growth of the waits, no attempts *)

Section RetryMore.
Context {W T : Type}.
Variable random : Z -> Q.
Variable operation : Operation W T.
Variables maxRetries baseDelayMs : Z.

(** The loop when the operation fails [k] times and then succeeds. *)
Lemma attempts_success (k : nat) :
  forall (fuel : nat) (attempt : Z) (lastError : option Thrown) (w : W)
         (log : list RetryPolicy.Event) (v : T),
    (k < fuel)%nat ->
    attempt + Z.of_nat k < maxRetries ->
    (forall i, (i < k)%nat ->
       exists e, snd (operation (after_operations (replicate i operation) w)) = Threw e) ->
    snd (operation (after_operations (replicate k operation) w)) = Returned v ->
    RetryPolicy.attempts random fuel operation maxRetries baseDelayMs attempt lastError
      (w, log)
    = Some ((after_operations (replicate (S k) operation) w,
             log ++ RetryPolicy.spec_events random baseDelayMs attempt (S k)),
            Returned v).
Proof.
  induction k as [|k IH]; intros fuel attempt lastError w log v Hfuel Hroom Hfail Hok;
    (destruct fuel as [|fuel']; [lia|]); cbn [RetryPolicy.attempts];
    (destruct (Z.ltb_spec attempt maxRetries); [|lia]).
  - cbn in Hok. destruct (operation w) as [w' r] eqn:Hop. cbn in Hok. subst r.
    cbn. now rewrite Hop.
  - destruct (Hfail 0%nat ltac:(lia)) as [e He]. cbn in He.
    destruct (operation w) as [w' r] eqn:Hop. cbn in He. subst r.
    destruct (Z.ltb_spec attempt (maxRetries - 1)); [|lia].
    rewrite (IH fuel' (attempt + 1) _ w' _ v); try lia.
    + rewrite (spec_events_succ random baseDelayMs attempt (S k)) by lia.
      cbn [replicate after_operations foldl]. rewrite Hop. cbn [fst].
      rewrite <- !app_assoc. reflexivity.
    + intros i Hi. destruct (Hfail (S i) ltac:(lia)) as [e' He'].
      cbn [replicate after_operations foldl] in He'. rewrite Hop in He'. eauto.
    + cbn [replicate after_operations foldl] in Hok. now rewrite Hop in Hok.
Qed.

End RetryMore.

Lemma delay_grows (baseDelayMs a a' : Z) (r r' : Q) :
  0 < baseDelayMs -> 0 <= a -> a < a' ->
  (0 <= r)%Q -> (r < 1)%Q -> (0 <= r')%Q ->
  (RetryPolicy.delay baseDelayMs a r < RetryPolicy.delay baseDelayMs a' r')%Q.
Proof.
  intros Hbase Ha Hlt Hr0 Hr1 Hr'. unfold RetryPolicy.delay, Double.mul.
  assert (Hpow : 2 * 2 ^ a <= 2 ^ a').
  { rewrite <- Z.pow_succ_r by lia. apply Z.pow_le_mono_r; lia. }
  assert (Hpos : 0 < 2 ^ a) by (apply Z.pow_pos_nonneg; lia).
  assert (HB : (0 < inject_Z baseDelayMs)%Q) by (change 0%Q with (inject_Z 0); now rewrite <- Zlt_Qlt).
  assert (HP : (0 < inject_Z (2 ^ a))%Q) by (change 0%Q with (inject_Z 0); now rewrite <- Zlt_Qlt).
  assert (HP' : (2 * inject_Z (2 ^ a) <= inject_Z (2 ^ a'))%Q).
  { change 2%Q with (inject_Z 2). rewrite <- inject_Z_mult. now rewrite <- Zle_Qle. }
  destruct (jitter_bounds r Hr0 Hr1) as [Hj1 Hj2].
  pose proof (jitter_at_least_one r' Hr') as Hj'.
  assert (HJ : (Double.round (11 # 10) <= 9 # 8)%Q) by (vm_compute; discriminate).
  generalize dependent (Double.round (11 # 10)). intros J Hj2 HJ.
  generalize dependent (RetryPolicy.jitter r). intros j Hj1 Hj2.
  generalize dependent (RetryPolicy.jitter r'). intros j' Hj'.
  generalize dependent (inject_Z baseDelayMs). intros B HB.
  generalize dependent (inject_Z (2 ^ a)). generalize dependent (inject_Z (2 ^ a')).
  intros P' P HP HP'.
  assert (Ht : (0 < B * P)%Q) by (apply Qmult_lt_0_compat; assumption).
  assert (Ht' : (2 * (B * P) <= B * P')%Q).
  { assert (Hstep : (B * (2 * P) <= B * P')%Q) by (apply Qmult_le_l; assumption). lra. }
  destruct (round_error (B * P) ltac:(lra)) as [HX1 HX2].
  destruct (round_error (B * P') ltac:(lra)) as [HX1' _].
  generalize dependent (Double.round (B * P)). generalize dependent (Double.round (B * P')).
  intros X' HX1' X HX1 HX2.
  generalize dependent (B * P')%Q. generalize dependent (B * P)%Q.
  intros t Ht HX1 HX2 t' Ht' HX1'.
  assert (HXpos : (0 < X)%Q) by lra.
  assert (HXj : (0 <= X * j)%Q) by (apply Qmult_le_0_compat; lra).
  assert (HX'pos : (0 < X')%Q) by lra.
  assert (HX'j : (0 <= X' * j')%Q) by (apply Qmult_le_0_compat; lra).
  destruct (round_error (X * j) HXj) as [_ Hleft].
  destruct (round_error (X' * j') HX'j) as [Hright _].
  (* left <= t * (5/4), right >= t * (3/2) *)
  assert (Hl1 : (X * j <= t * (9 # 8) * (1 + (1 # 9007199254740992)))%Q).
  { apply Qle_trans with (X * (9 # 8))%Q.
    - apply Qmult_le_l; [exact HXpos|lra].
    - assert (E : (t * (9 # 8) * (1 + (1 # 9007199254740992)) == t * (1 + (1 # 9007199254740992)) * (9 # 8))%Q) by ring.
      rewrite E. apply Qmult_le_r; [reflexivity|exact HX2]. }
  assert (Hr1' : (t' * (1 - (1 # 9007199254740992)) <= X' * j')%Q).
  { apply Qle_trans with (X' * 1)%Q; [lra|].
    apply Qmult_le_l; [exact HX'pos|exact Hj']. }
  apply Qle_lt_trans with (t * (5 # 4))%Q.
  - apply Qle_trans with (X * j * (1 + (1 # 9007199254740992)))%Q; [exact Hleft|].
    apply Qle_trans with (t * (9 # 8) * (1 + (1 # 9007199254740992)) * (1 + (1 # 9007199254740992)))%Q.
    + apply Qmult_le_r; [reflexivity|exact Hl1].
    + assert (E : (t * (9 # 8) * (1 + (1 # 9007199254740992)) * (1 + (1 # 9007199254740992))
                   == t * ((9 # 8) * (1 + (1 # 9007199254740992)) * (1 + (1 # 9007199254740992))))%Q) by ring.
      rewrite E. apply Qmult_le_l; [exact Ht|]. vm_compute. discriminate.
  - apply Qlt_le_trans with (t' * (3 # 4))%Q; [lra|].
    apply Qle_trans with (X' * j' * (1 - (1 # 9007199254740992)))%Q; [|exact Hright].
    apply Qle_trans with (t' * (1 - (1 # 9007199254740992)) * (1 - (1 # 9007199254740992)))%Q.
    + assert (E : (t' * (1 - (1 # 9007199254740992)) * (1 - (1 # 9007199254740992))
                   == t' * ((1 - (1 # 9007199254740992)) * (1 - (1 # 9007199254740992))))%Q) by ring.
      rewrite E. apply Qmult_le_l; [lra|]. vm_compute. discriminate.
    + apply Qmult_le_r; [reflexivity|exact Hr1'].
Qed.

(** X17.  Retry with eventual success: when the operation fails on its
    first [k] attempts and succeeds on the next, [k] being less than
    [maxRetries], [retryOperation] returns that value after exactly [k + 1]
    invocations, having waited between the attempts and not after the
    successful one. *)
Theorem retry_eventual_success {W T : Type} (random : Z -> Q) (operation : Operation W T)
    (maxRetries baseDelayMs : Z) (w : W) (k : nat) (v : T) :
  Z.of_nat k < maxRetries ->
  (forall i, (i < k)%nat ->
     exists e, snd (operation (after_operations (replicate i operation) w)) = Threw e) ->
  snd (operation (after_operations (replicate k operation) w)) = Returned v ->
  RetryPolicy.retryOperation random operation maxRetries baseDelayMs w
  = Some ((after_operations (replicate (S k) operation) w,
           RetryPolicy.spec_events random baseDelayMs 0 (S k)), Returned v)
  /\ RetryPolicy.invocations (RetryPolicy.spec_events random baseDelayMs 0 (S k)) = S k
  /\ length (RetryPolicy.waits (RetryPolicy.spec_events random baseDelayMs 0 (S k))) = k.
Proof.
  intros Hk Hfail Hok. split; [|split].
  - unfold RetryPolicy.retryOperation.
    rewrite (attempts_success random operation maxRetries baseDelayMs k
               (Z.to_nat maxRetries) 0 None w [] v) by (assumption || lia).
    reflexivity.
  - apply spec_events_invocations.
  - clear. generalize 0. induction k as [|k IH]; intros attempt; [reflexivity|].
    rewrite spec_events_succ by lia. cbn [RetryPolicy.waits omap]. cbn. f_equal. apply IH.
Qed.

(** The flaky sample operation under three retries. *)
Lemma retry_eventual_success_witness :
  RetryPolicy.retryOperation (fun _ => 1 # 2) flaky_operation 3 1000 0%nat
  = Some ((3%nat,
           [RetryPolicy.Invoked 0;
            RetryPolicy.Waited 0 (RetryPolicy.delay 1000 0 (1 # 2));
            RetryPolicy.Invoked 1;
            RetryPolicy.Waited 1 (RetryPolicy.delay 1000 1 (1 # 2));
            RetryPolicy.Invoked 2]), Returned 200).
Proof.
  refine (proj1 (retry_eventual_success (fun _ => 1 # 2) flaky_operation 3 1000 0%nat 2 200
                   eq_refl _ eq_refl)).
  intros [|[|i]] Hi; [eexists; reflexivity|eexists; reflexivity|lia].
Defined.



(** X19.  With [maxRetries <= 0] the operation is never invoked and
    [retryOperation] fails at once with the operation-exhausted signal,
    which then wraps no cause and reports the last error as [undefined]. *)
Theorem retry_without_attempts {W T : Type} (random : Z -> Q) (operation : Operation W T)
    (maxRetries baseDelayMs : Z) (w : W) :
  maxRetries <= 0 ->
  RetryPolicy.retryOperation random operation maxRetries baseDelayMs w
  = Some ((w, []),
          @Threw T (InternalServerError
                   ("Operation failed after " +:+ pretty maxRetries
                      +:+ " attempts: undefined")
                   None maxRetries baseDelayMs None)).
Proof.
  intros Hle. unfold RetryPolicy.retryOperation.
  replace (Z.to_nat maxRetries) with 0%nat by lia. cbn [RetryPolicy.attempts].
  destruct (Z.ltb_spec 0 maxRetries); [lia|reflexivity].
Qed.

(** No retries configured. *)
Lemma retry_without_attempts_witness :
  RetryPolicy.retryOperation (fun _ => 1 # 2) failing_operation 0 1000 0%nat
  = Some ((0%nat, []),
          Threw (InternalServerError "Operation failed after 0 attempts: undefined"
                   None 0 1000 None)).
Proof.
  exact (retry_without_attempts (fun _ => 1 # 2) failing_operation 0 1000 0%nat
           ltac:(discriminate)).
Defined.

(** ** The request deduplicator: keys, sweep, clear *)

Section DeduplicatorMore.
Context {F T : Type}.
Implicit Types (st : RequestDeduplicator.State F T).

Lemma execute_fresh (key : string) (fn : F) (now : Z) st :
  RequestDeduplicator.pendingRequests st !! key = None ->
  RequestDeduplicator.execute key fn now st
  = (RequestDeduplicator.Awaits (RequestDeduplicator.created st),
     {| RequestDeduplicator.pendingRequests :=
          <[key := {| RequestDeduplicator.promise := RequestDeduplicator.created st;
                      RequestDeduplicator.timestamp := now |}]>
            (RequestDeduplicator.pendingRequests st);
        RequestDeduplicator.settled := RequestDeduplicator.settled st;
        RequestDeduplicator.created := S (RequestDeduplicator.created st);
        RequestDeduplicator.invoked := RequestDeduplicator.invoked st ++ [(key, fn)] |}).
Proof. intros Hnone. unfold RequestDeduplicator.execute. now rewrite Hnone. Qed.

Lemma invocation_count_app (key : string) st (more : list (string * F)) :
  length (filter (fun kf => String.eqb (fst kf) key)
            (RequestDeduplicator.invoked st ++ more))
  = (RequestDeduplicator.invocation_count key st
     + length (filter (fun kf => String.eqb (fst kf) key) more))%nat.
Proof.
  unfold RequestDeduplicator.invocation_count. now rewrite filter_app, length_app.
Qed.

Lemma cleanup_lookup (o : RequestDeduplicator.RequestDeduplicatorOptions) (now : Z)
    (key : string) st :
  RequestDeduplicator.pendingRequests (RequestDeduplicator.cleanup o now st) !! key
  = match RequestDeduplicator.pendingRequests st !! key with
    | Some e =>
        if decide (RequestDeduplicator.maxAge o < now - RequestDeduplicator.timestamp e)
        then None else Some e
    | None => None
    end.
Proof.
  unfold RequestDeduplicator.cleanup. cbn [RequestDeduplicator.pendingRequests].
  destruct (RequestDeduplicator.pendingRequests st !! key) as [e|] eqn:He.
  - case_decide as Hold.
    + apply map_lookup_filter_None_2. right. intros x Hx. rewrite He in Hx. inversion Hx; subst.
      cbn. destruct (Z.gtb_spec (now - RequestDeduplicator.timestamp x)
                       (RequestDeduplicator.maxAge o)); [exact id|lia].
    + apply map_lookup_filter_Some_2; [exact He|]. cbn.
      destruct (Z.gtb_spec (now - RequestDeduplicator.timestamp e)
                  (RequestDeduplicator.maxAge o)); [lia|exact I].
  - apply map_lookup_filter_None_2. now left.
Qed.

End DeduplicatorMore.

(** X20.  Different keys do not share: a call for one key leaves the pending
    entry of every other key as it is, and two calls for two keys without a
    pending entry each invoke their function and hold promises of their
    own. *)
Theorem deduplicator_keys_are_independent {F T : Type} (key k : string) (fn fn' : F)
    (now now' : Z) (st : RequestDeduplicator.State F T) :
  k <> key ->
  RequestDeduplicator.pendingRequests (snd (RequestDeduplicator.execute key fn now st)) !! k
  = RequestDeduplicator.pendingRequests st !! k
  /\ (RequestDeduplicator.pendingRequests st !! key = None ->
      RequestDeduplicator.pendingRequests st !! k = None ->
      let first := RequestDeduplicator.execute key fn now st in
      let second := RequestDeduplicator.execute k fn' now' (snd first) in
      fst first = RequestDeduplicator.Awaits (RequestDeduplicator.created st)
      /\ fst second = RequestDeduplicator.Awaits (S (RequestDeduplicator.created st))
      /\ RequestDeduplicator.invoked (snd second)
         = RequestDeduplicator.invoked st ++ [(key, fn); (k, fn')]
      /\ RequestDeduplicator.getPendingRequestCount (snd second)
         = S (S (RequestDeduplicator.getPendingRequestCount st))).
Proof.
  intros Hne. split.
  - unfold RequestDeduplicator.execute.
    destruct (RequestDeduplicator.pendingRequests st !! key); [reflexivity|].
    cbn. now rewrite lookup_insert_ne by congruence.
  - intros Hkey Hk. cbn zeta. rewrite (execute_fresh key fn now st Hkey). cbn [fst snd].
    rewrite execute_fresh
      by (cbn; now rewrite lookup_insert_ne by congruence).
    cbn [fst snd RequestDeduplicator.created RequestDeduplicator.invoked
           RequestDeduplicator.pendingRequests].
    split; [reflexivity|]. split; [reflexivity|]. split; [now rewrite <- app_assoc|].
    unfold RequestDeduplicator.getPendingRequestCount. cbn.
    rewrite !map_size_insert_None; [reflexivity|exact Hkey|].
    now rewrite lookup_insert_ne by congruence.
Qed.

(** Two URLs on a new deduplicator. *)
Lemma deduplicator_keys_are_independent_witness :
  RequestDeduplicator.invoked
    (snd (RequestDeduplicator.execute "fetch:https://example.org/b" "opB" 1
            (snd (RequestDeduplicator.execute "fetch:https://example.org/a" "opA" 0
                    (@RequestDeduplicator.init string Z)))))
  = [("fetch:https://example.org/a", "opA"); ("fetch:https://example.org/b", "opB")].
Proof.
  pose proof (proj2 (deduplicator_keys_are_independent "fetch:https://example.org/a"
                       "fetch:https://example.org/b" "opA" "opB" 0 1
                       (@RequestDeduplicator.init string Z) ltac:(discriminate))
                (lookup_empty _) (lookup_empty _)) as H.
  cbn zeta in H. exact (proj1 (proj2 (proj2 H))).
Defined.

(** X21.  A sweep leaves a request alone that is not older than [maxAge]:
    a call made after the sweep still shares its promise and invokes
    nothing.  The sweep itself invokes nothing and settles nothing. *)
Theorem sweep_keeps_young_requests {F T : Type}
    (o : RequestDeduplicator.RequestDeduplicatorOptions) (key : string) (fn : F)
    (sweep now : Z) (st : RequestDeduplicator.State F T)
    (existing : RequestDeduplicator.PendingRequest) :
  RequestDeduplicator.pendingRequests st !! key = Some existing ->
  sweep - RequestDeduplicator.timestamp existing <= RequestDeduplicator.maxAge o ->
  RequestDeduplicator.execute key fn now (RequestDeduplicator.cleanup o sweep st)
  = (RequestDeduplicator.Shares (RequestDeduplicator.promise existing),
     RequestDeduplicator.cleanup o sweep st)
  /\ RequestDeduplicator.invoked (RequestDeduplicator.cleanup o sweep st)
     = RequestDeduplicator.invoked st
  /\ RequestDeduplicator.settled (RequestDeduplicator.cleanup o sweep st)
     = RequestDeduplicator.settled st.
Proof.
  intros Hex Hyoung. split; [|split; reflexivity].
  unfold RequestDeduplicator.execute.
  rewrite cleanup_lookup, Hex, decide_False by lia. reflexivity.
Qed.

(** A request started at 0, swept at 30000, joined at 30001. *)
Lemma sweep_keeps_young_requests_witness :
  fst (RequestDeduplicator.execute "fetch:https://example.org/form" "slowOp" 30001
         (RequestDeduplicator.cleanup default_dedup_options 30000
            (snd (RequestDeduplicator.execute "fetch:https://example.org/form" "slowOp" 0
                    (@RequestDeduplicator.init string Z)))))
  = RequestDeduplicator.Shares 0.
Proof.
  rewrite (proj1 (sweep_keeps_young_requests default_dedup_options
                    "fetch:https://example.org/form" "slowOp" 30000 30001
                    (snd (RequestDeduplicator.execute "fetch:https://example.org/form"
                            "slowOp" 0 (@RequestDeduplicator.init string Z)))
                    {| RequestDeduplicator.promise := 0; RequestDeduplicator.timestamp := 0 |}
                    ltac:(vm_compute; reflexivity) ltac:(vm_compute; discriminate))).
  reflexivity.
Defined.

(** X22.  A sweep removes a request older than [maxAge] although it has not
    settled, and from then on the key is no longer deduplicated: the next
    call invokes its function while the first is still running; when the
    first settles, its [finally] block deletes the entry of the second,
    which has not settled; and a third call then invokes its function as
    well.  A caller that shares the first promise still observes the first
    result. *)
Theorem swept_request_is_duplicated {F T : Type}
    (o : RequestDeduplicator.RequestDeduplicatorOptions) (key : string) (fn1 fn2 fn3 : F)
    (now1 sweep now2 now3 : Z) (r1 : Outcome T) (st : RequestDeduplicator.State F T) :
  RequestDeduplicator.wf st ->
  RequestDeduplicator.pendingRequests st !! key = None ->
  RequestDeduplicator.maxAge o < sweep - now1 ->
  let p1 := RequestDeduplicator.created st in
  let st1 := snd (RequestDeduplicator.execute key fn1 now1 st) in
  let st2 := RequestDeduplicator.cleanup o sweep st1 in
  let second := RequestDeduplicator.execute key fn2 now2 st2 in
  let st4 := snd (RequestDeduplicator.resume key p1 r1 (snd second)) in
  let third := RequestDeduplicator.execute key fn3 now3 st4 in
  RequestDeduplicator.pendingRequests st2 !! key = None
  /\ RequestDeduplicator.settled st2 !! p1 = None
  /\ fst second = RequestDeduplicator.Awaits (S p1)
  /\ RequestDeduplicator.invocation_count key (snd second)
     = S (S (RequestDeduplicator.invocation_count key st))
  /\ RequestDeduplicator.pendingRequests st4 !! key = None
  /\ RequestDeduplicator.settled st4 !! S p1 = None
  /\ RequestDeduplicator.observed (RequestDeduplicator.Shares p1) None st4 = Some r1
  /\ fst third = RequestDeduplicator.Awaits (S (S p1))
  /\ RequestDeduplicator.invocation_count key (snd third)
     = S (S (S (RequestDeduplicator.invocation_count key st))).
Proof.
  intros Hwf Hnone Hold p1 st1 st2 second st4 third.
  assert (Hst1 : st1 = snd (RequestDeduplicator.execute key fn1 now1 st)) by reflexivity.
  rewrite (execute_fresh key fn1 now1 st Hnone) in Hst1. cbn [snd] in Hst1.
  assert (Hswept : RequestDeduplicator.pendingRequests st2 !! key = None).
  { unfold st2. rewrite cleanup_lookup, Hst1. cbn [RequestDeduplicator.pendingRequests].
    rewrite lookup_insert_eq. cbn. now rewrite decide_True by lia. }
  assert (Hp1 : RequestDeduplicator.settled st !! p1 = None) by (unfold p1; apply Hwf; lia).
  assert (Hp2 : RequestDeduplicator.settled st !! S p1 = None) by (unfold p1; apply Hwf; lia).
  assert (Hsettled2 : RequestDeduplicator.settled st2 = RequestDeduplicator.settled st)
    by (unfold st2; now rewrite Hst1).
  assert (Hcreated2 : RequestDeduplicator.created st2 = S p1)
    by (unfold st2; now rewrite Hst1).
  assert (Hinvoked2 : RequestDeduplicator.invoked st2
                      = RequestDeduplicator.invoked st ++ [(key, fn1)])
    by (unfold st2; now rewrite Hst1).
  assert (Hsecond : second = RequestDeduplicator.execute key fn2 now2 st2) by reflexivity.
  rewrite (execute_fresh key fn2 now2 st2 Hswept) in Hsecond.
  rewrite Hsettled2, Hcreated2, Hinvoked2 in Hsecond.
  assert (Hst4 : st4 = snd (RequestDeduplicator.resume key p1 r1 (snd second)))
    by reflexivity.
  rewrite Hsecond in Hst4. unfold RequestDeduplicator.resume in Hst4.
  cbn [snd RequestDeduplicator.pendingRequests RequestDeduplicator.settled
         RequestDeduplicator.created RequestDeduplicator.invoked] in Hst4.
  unfold RequestDeduplicator.settle_promise in Hst4. rewrite Hp1 in Hst4.
  assert (Hgone : RequestDeduplicator.pendingRequests st4 !! key = None).
  { rewrite Hst4. cbn. apply lookup_delete_eq. }
  assert (Hcount : forall more,
            length (filter (fun kf : string * F => String.eqb (fst kf) key)
                      (RequestDeduplicator.invoked st ++ more))
            = (RequestDeduplicator.invocation_count key st
               + length (filter (fun kf : string * F => String.eqb (fst kf) key) more))%nat).
  { intros more. apply invocation_count_app. }
  split; [exact Hswept|]. split; [now rewrite Hsettled2|].
  split; [now rewrite Hsecond|].
  split.
  { rewrite Hsecond. unfold RequestDeduplicator.invocation_count at 1.
    cbn [snd RequestDeduplicator.invoked]. rewrite <- app_assoc, Hcount. cbn [app].
    rewrite !filter_cons_True by (cbn; now rewrite String.eqb_refl). cbn. lia. }
  split; [exact Hgone|].
  split; [rewrite Hst4; cbn; rewrite lookup_insert_ne by lia; exact Hp2|].
  split; [rewrite Hst4; cbn; apply lookup_insert_eq|].
  unfold third. rewrite (execute_fresh key fn3 now3 st4 Hgone). cbn [fst snd].
  split; [now rewrite Hst4|].
  unfold RequestDeduplicator.invocation_count at 1. cbn [RequestDeduplicator.invoked].
  rewrite Hst4. cbn [RequestDeduplicator.invoked].
  rewrite <- !app_assoc, Hcount. cbn [app].
  rewrite !filter_cons_True by (cbn; now rewrite String.eqb_refl). cbn. lia.
Qed.

(** A request started at 0 and swept at 60000 while it is still running. *)
Lemma swept_request_is_duplicated_witness :
  RequestDeduplicator.invocation_count "fetch:https://example.org/form"
    (snd (RequestDeduplicator.execute "fetch:https://example.org/form" "slowOp" 60001
            (RequestDeduplicator.cleanup default_dedup_options 60000
               (snd (RequestDeduplicator.execute "fetch:https://example.org/form" "slowOp" 0
                       (@RequestDeduplicator.init string Z)))))) = 2%nat.
Proof.
  pose proof (swept_request_is_duplicated default_dedup_options
                "fetch:https://example.org/form" "slowOp" "slowOp" "slowOp" 0 60000 60001
                60002 slow_result (@RequestDeduplicator.init string Z)
                (fun p _ => lookup_empty p) (lookup_empty _) eq_refl) as H.
  cbn zeta in H. exact (proj1 (proj2 (proj2 (proj2 H)))).
Defined.

(** X23.  [clear()] empties the pending map and leaves what is in flight to
    itself: the pending count is 0, a call for a key that was pending
    invokes its function anew, and the call that was in flight still
    completes with its outcome and settles its promise, so that callers
    sharing it observe that outcome. *)
Theorem clear_forgets_in_flight {F T : Type} (key : string) (fn : F) (now : Z)
    (r : Outcome T) (st : RequestDeduplicator.State F T)
    (existing : RequestDeduplicator.PendingRequest) :
  RequestDeduplicator.pendingRequests st !! key = Some existing ->
  RequestDeduplicator.settled st !! RequestDeduplicator.promise existing = None ->
  let cleared := RequestDeduplicator.clear st in
  RequestDeduplicator.getPendingRequestCount cleared = 0%nat
  /\ fst (RequestDeduplicator.execute key fn now cleared)
     = RequestDeduplicator.Awaits (RequestDeduplicator.created st)
  /\ RequestDeduplicator.invoked (snd (RequestDeduplicator.execute key fn now cleared))
     = RequestDeduplicator.invoked st ++ [(key, fn)]
  /\ fst (RequestDeduplicator.resume key (RequestDeduplicator.promise existing) r cleared) = r
  /\ RequestDeduplicator.observed
       (RequestDeduplicator.Shares (RequestDeduplicator.promise existing)) None
       (snd (RequestDeduplicator.resume key (RequestDeduplicator.promise existing) r cleared))
     = Some r.
Proof.
  intros Hex Hunsettled cleared.
  assert (Hnone : RequestDeduplicator.pendingRequests cleared !! key = None)
    by apply lookup_empty.
  split; [apply map_size_empty|].
  rewrite (execute_fresh key fn now cleared Hnone). cbn [fst snd].
  split; [reflexivity|]. split; [reflexivity|]. split; [reflexivity|].
  cbn. unfold RequestDeduplicator.settle_promise. rewrite Hunsettled.
  apply lookup_insert_eq.
Qed.

(** A request in flight when the deduplicator is cleared. *)
Lemma clear_forgets_in_flight_witness :
  let st1 := snd (RequestDeduplicator.execute "fetch:https://example.org/form" "slowOp" 0
                    (@RequestDeduplicator.init string Z)) in
  RequestDeduplicator.getPendingRequestCount (RequestDeduplicator.clear st1) = 0%nat
  /\ RequestDeduplicator.observed (RequestDeduplicator.Shares 0) None
       (snd (RequestDeduplicator.resume "fetch:https://example.org/form" 0 slow_result
               (RequestDeduplicator.clear st1))) = Some slow_result.
Proof.
  pose proof (clear_forgets_in_flight "fetch:https://example.org/form" "slowOp" 5 slow_result
                (snd (RequestDeduplicator.execute "fetch:https://example.org/form" "slowOp" 0
                        (@RequestDeduplicator.init string Z)))
                {| RequestDeduplicator.promise := 0; RequestDeduplicator.timestamp := 0 |}
                ltac:(vm_compute; reflexivity) ltac:(vm_compute; reflexivity)) as H.
  cbn zeta in H |- *. destruct H as (Hcount & _ & _ & _ & Hobs).
  split; [exact Hcount|exact Hobs].
Defined.

(** ** Validation, user agents and the HTTP client *)

Lemma prefix_spec (a s : string) :
  String.prefix a s = true <-> exists post, s = a +:+ post.
Proof.
  revert s. induction a as [|c a IH]; intros s.
  - destruct s; cbn; split; eauto.
  - destruct s as [|d s]; cbn.
    + split; [discriminate|intros [post H]; discriminate].
    + destruct (Ascii.ascii_dec c d) as [->|Hne].
      * rewrite IH. split; intros [post H]; exists post; [now rewrite H|].
        now inversion H.
      * split; [discriminate|intros [post H]; inversion H; congruence].
Qed.

Lemma includes_spec (needle s : string) :
  Fetch.includes needle s = true <-> exists pre post, s = pre +:+ needle +:+ post.
Proof.
  induction s as [|c rest IH]; cbn [Fetch.includes].
  - rewrite orb_false_r, prefix_spec. split.
    + intros [post H]. exists "", post. exact H.
    + intros (pre & post & H). destruct pre; [now exists post|discriminate].
  - rewrite orb_true_iff, prefix_spec, IH. split.
    + intros [[post H]|(pre & post & H)].
      * exists "", post. exact H.
      * exists (String c pre), post. cbn. now rewrite H.
    + intros (pre & post & H). destruct pre as [|d pre].
      * left. now exists post.
      * right. exists pre, post. now inversion H.
Qed.

(** X24.  [validateUrl] returns the URL it is given exactly when the URL
    parses, its protocol is [https:] and its host name is non-empty and
    contains neither [..] nor [localhost] anywhere; every other URL fails
    with a validation signal whose message starts with [Invalid URL: ],
    whatever went wrong. *)
Theorem validateUrl_accepts_only_safe_https (parse_url : string -> Outcome Fetch.ParsedURL)
    (url : string) :
  (Fetch.validateUrl parse_url url = Returned url <->
   exists parsed,
     parse_url url = Returned parsed
     /\ Fetch.protocol parsed = "https:"
     /\ Fetch.hostname parsed <> ""
     /\ (forall pre post, Fetch.hostname parsed <> pre +:+ ".." +:+ post)
     /\ (forall pre post, Fetch.hostname parsed <> pre +:+ "localhost" +:+ post))
  /\ (Fetch.validateUrl parse_url url = Returned url
      \/ exists detail,
           Fetch.validateUrl parse_url url
           = Threw (ValidationError ("Invalid URL: " +:+ detail) None)).
Proof.
  unfold Fetch.validateUrl.
  destruct (parse_url url) as [parsed|e].
  2:{ split; [|right; eauto].
      split; [discriminate|intros (parsed & H & _); discriminate]. }
  destruct (String.eqb_spec (Fetch.protocol parsed) "https:") as [Hp|Hp]; cbn [negb].
  2:{ split; [|right; eauto].
      split; [discriminate|]. intros (parsed' & [= <-] & Hp' & _). congruence. }
  destruct (String.eqb_spec (Fetch.hostname parsed) "") as [Hh|Hh]; cbn [orb].
  { split; [|right; eauto].
    split; [discriminate|]. intros (parsed' & [= <-] & _ & Hh' & _). congruence. }
  destruct (Fetch.includes ".." (Fetch.hostname parsed)) eqn:Hdots; cbn [orb].
  { split; [|right; eauto].
    split; [discriminate|]. intros (parsed' & [= <-] & _ & _ & Hno & _).
    apply includes_spec in Hdots as (pre & post & H). exfalso. exact (Hno pre post H). }
  destruct (Fetch.includes "localhost" (Fetch.hostname parsed)) eqn:Hlocal.
  { split; [|right; eauto].
    split; [discriminate|]. intros (parsed' & [= <-] & _ & _ & _ & Hno).
    apply includes_spec in Hlocal as (pre & post & H). exfalso. exact (Hno pre post H). }
  split; [|now left]. split; [intros _|reflexivity].
  exists parsed. repeat split; try assumption.
  - intros pre post H. assert (Fetch.includes ".." (Fetch.hostname parsed) = true)
      by (apply includes_spec; eauto). congruence.
  - intros pre post H. assert (Fetch.includes "localhost" (Fetch.hostname parsed) = true)
      by (apply includes_spec; eauto). congruence.
Qed.

(** A host name that merely contains [localhost] is refused. *)
Lemma validateUrl_accepts_only_safe_https_witness :
  Fetch.validateUrl sample_parse "https://mylocalhost.example.org/"
  <> Returned "https://mylocalhost.example.org/".
Proof.
  intros Hok.
  apply (proj1 (validateUrl_accepts_only_safe_https sample_parse
                  "https://mylocalhost.example.org/")) in Hok
    as (parsed & Hparsed & _ & _ & _ & Hno).
  vm_compute in Hparsed. inversion Hparsed; subst.
  exact (Hno "my" ".example.org" eq_refl).
Defined.

(** X25.  [randomAgent] never reads outside the pool: for a non-empty pool
    and a draw in [[0, 1)] it returns one of the pool's user agents; for an
    empty pool it returns [undefined]. *)
Theorem randomAgent_in_pool (userAgents : list string) (r : Q) :
  (0 <= r)%Q -> (r < 1)%Q ->
  (userAgents <> [] ->
   exists agent, Fetch.randomAgent userAgents r = Some agent /\ agent ∈ userAgents)
  /\ (userAgents = [] -> Fetch.randomAgent userAgents r = None).
Proof.
  intros H0 H1. split.
  - intros Hne. unfold Fetch.randomAgent.
    set (n := Z.of_nat (length userAgents)).
    assert (Hn : 0 < n) by (unfold n; destruct userAgents; [congruence|cbn; lia]).
    assert (HnQ : (0 < inject_Z n)%Q)
      by (change 0%Q with (inject_Z 0); now rewrite <- Zlt_Qlt).
    assert (Hlow : 0 <= Qfloor (r * inject_Z n)).
    { change 0 with (Qfloor 0). apply Qfloor_resp_le.
      apply Qmult_le_0_compat; [exact H0|apply Qlt_le_weak; exact HnQ]. }
    assert (Hhigh : Qfloor (r * inject_Z n) < n).
    { rewrite Zlt_Qlt. eapply Qle_lt_trans; [apply Qfloor_le|].
      rewrite <- (Qmult_1_l (inject_Z n)) at 2. now apply Qmult_lt_r. }
    destruct (lookup_lt_is_Some_2 userAgents (Z.to_nat (Qfloor (r * inject_Z n))))
      as [agent Hagent]; [unfold n in *; lia|].
    exists agent. split; [exact Hagent|]. eapply list_elem_of_lookup_2. exact Hagent.
  - intros ->. reflexivity.
Qed.

(** A pool of two and the draw 3/4. *)
Lemma randomAgent_in_pool_witness :
  Fetch.randomAgent ["Mozilla/5.0 (X11)"; "Mozilla/5.0 (Macintosh)"] (3 # 4)
  = Some "Mozilla/5.0 (Macintosh)".
Proof.
  destruct (proj1 (randomAgent_in_pool ["Mozilla/5.0 (X11)"; "Mozilla/5.0 (Macintosh)"]
                     (3 # 4) ltac:(discriminate) eq_refl) ltac:(discriminate))
    as (agent & Hagent & _).
  rewrite Hagent. vm_compute in Hagent. symmetry. exact Hagent.
Defined.

(** X26.  [HttpClient.request] normalises every failure: whatever the
    network call does, a failed request ends with a network, rate-limited,
    validation or timeout signal, and never with another error; it returns
    exactly when the call was answered with a status from 200 to 299, and
    then with that status. *)
Theorem request_failures_are_typed (url : string) (timeout : Z)
    (net : Outcome Fetch.Response) :
  match Fetch.request url timeout net with
  | Returned (status, _) =>
      exists res, net = Returned res /\ Fetch.status res = status
                  /\ 200 <= status < 300
  | Threw e =>
      (kind_of e = KNetwork \/ kind_of e = KRateLimited
       \/ kind_of e = KValidation \/ kind_of e = KTimeout)
      /\ (forall res, net = Returned res -> ~ 200 <= Fetch.status res < 300)
  end.
Proof.
  unfold Fetch.request. destruct net as [res|e].
  - unfold Fetch.classify, Fetch.ok.
    destruct (Z.leb_spec 200 (Fetch.status res));
      destruct (Z.ltb_spec (Fetch.status res) 300); cbn [andb negb].
    + exists res. repeat split; lia.
    + destruct (_ =? 429); [|destruct (_ >=? 500); [|destruct (_ >=? 400)]]; cbn;
        (split; [tauto|intros res' [= <-]; lia]).
    + destruct (_ =? 429); [|destruct (_ >=? 500); [|destruct (_ >=? 400)]]; cbn;
        (split; [tauto|intros res' [= <-]; lia]).
    + destruct (_ =? 429); [|destruct (_ >=? 500); [|destruct (_ >=? 400)]]; cbn;
        (split; [tauto|intros res' [= <-]; lia]).
  - split; [|discriminate]. destruct e; cbn; tauto.
Qed.

(** A 503 is a network signal. *)
Lemma request_failures_are_typed_witness :
  exists e,
    Fetch.request "https://example.org/form" 10000
      (Returned {| Fetch.status := 503; Fetch.statusText := "Service Unavailable";
                   Fetch.url := "https://example.org/form";
                   Fetch.retryAfterHeader := None; Fetch.body := "" |}) = Threw e
    /\ (kind_of e = KNetwork \/ kind_of e = KRateLimited
        \/ kind_of e = KValidation \/ kind_of e = KTimeout).
Proof.
  pose proof (request_failures_are_typed "https://example.org/form" 10000
                (Returned {| Fetch.status := 503; Fetch.statusText := "Service Unavailable";
                             Fetch.url := "https://example.org/form";
                             Fetch.retryAfterHeader := None; Fetch.body := "" |})) as H.
  destruct (Fetch.request _ _ _) as [[s b]|e] eqn:Hreq.
  - exfalso. destruct H as (res & [= <-] & Hs & Hrange). cbn in Hs. lia.
  - exists e. split; [reflexivity|exact (proj1 H)].
Defined.

(** ** The fetch pipeline *)

Section PipelineFacts.
Variable name : string.
Variable userAgents : list string.
Variable o : Cache.CacheOptions.
Variable net : nat -> Outcome Fetch.Response.
Variable arrival : nat -> Z.
Variable agent_draw : nat -> Q.
Variable jitter_draw : Z -> Q.

Lemma attempt_fails (url : string) (w : Fetch.World) :
  Fetch.failed_attempt (net (length (Fetch.sent w))) ->
  Fetch.attempt userAgents o net arrival agent_draw url w
  = ({| Fetch.cache := Fetch.cache w; Fetch.dedup := Fetch.dedup w;
        Fetch.counters := Fetch.counters w;
        Fetch.sent := Fetch.sent w
                        ++ [Fetch.randomAgent userAgents
                              (agent_draw (length (Fetch.sent w)))] |},
     Threw (Fetch.attempt_error url (net (length (Fetch.sent w))))).
Proof.
  intros Hfail. unfold Fetch.attempt, Fetch.fetchWithRetry.
  destruct (net (length (Fetch.sent w))) as [res|e]; cbn in *; [|reflexivity].
  now rewrite Hfail.
Qed.

Lemma attempt_succeeds (url : string) (w : Fetch.World) (res : Fetch.Response) :
  net (length (Fetch.sent w)) = Returned res ->
  Fetch.ok res = true ->
  let result := {| Fetch.content := Fetch.body res;
                   Fetch.finalUrl :=
                     if String.eqb (Fetch.url res) "" then url else Fetch.url res |} in
  Fetch.attempt userAgents o net arrival agent_draw url w
  = ({| Fetch.cache :=
          Cache.set o ("fetch:" +:+ url) result None (arrival (length (Fetch.sent w)))
            (Fetch.cache w);
        Fetch.dedup := Fetch.dedup w;
        Fetch.counters := Fetch.counters w;
        Fetch.sent := Fetch.sent w
                        ++ [Fetch.randomAgent userAgents
                              (agent_draw (length (Fetch.sent w)))] |},
     Returned result).
Proof.
  intros Hnet Hok result. unfold Fetch.attempt, Fetch.fetchWithRetry.
  rewrite Hnet, Hok. reflexivity.
Qed.

End PipelineFacts.

(** X27.  End to end, cache miss then hit.  For a URL that the validator
    accepts and that is not cached and not being fetched, whose first request is answered with a
    success status: [fetch] sends exactly one request, counts one cache
    miss, returns the body with the final URL, and leaves no pending entry
    behind; a second [fetch] of the URL before the cached entry expires
    sends no request, counts one cache hit and returns the same result. *)
Theorem fetch_miss_then_hit (validate : string -> Outcome string)
    (name : string) (userAgents : list string) (o : Cache.CacheOptions)
    (net : nat -> Outcome Fetch.Response) (arrival : nat -> Z)
    (agent_draw : nat -> Q) (jitter_draw : Z -> Q)
    (url checked : string) (now again : Z) (w : Fetch.World) (res : Fetch.Response) :
  validate url = Returned checked ->
  fst (Cache.get o ("fetch:" +:+ url) now (Fetch.cache w)) = None ->
  RequestDeduplicator.pendingRequests (Fetch.dedup w) !! ("fetch:" +:+ url) = None ->
  net (length (Fetch.sent w)) = Returned res ->
  Fetch.ok res = true ->
  again < arrival (length (Fetch.sent w)) + Cache.ttl o ->
  let run := Fetch.fetch validate name userAgents o net arrival agent_draw jitter_draw in
  let result := {| Fetch.content := Fetch.body res;
                   Fetch.finalUrl :=
                     if String.eqb (Fetch.url res) "" then url else Fetch.url res |} in
  exists w1 w2,
    run url now w = Some ((w1, [RetryPolicy.Invoked 0]), Fetch.Settled (Returned result))
    /\ length (Fetch.sent w1) = S (length (Fetch.sent w))
    /\ Fetch.counters w1 = Fetch.counters w ++ [("fetch_cache_misses_total", name)]
    /\ RequestDeduplicator.pendingRequests (Fetch.dedup w1) !! ("fetch:" +:+ url) = None
    /\ run url again w1 = Some ((w2, []), Fetch.Settled (Returned result))
    /\ Fetch.sent w2 = Fetch.sent w1
    /\ Fetch.counters w2 = Fetch.counters w1 ++ [("fetch_cache_hits_total", name)].
Proof.
  intros Hvalid Hcold Hidle Hnet Hok Hsoon run result.
  set (key := "fetch:" +:+ url) in *.
  destruct (Cache.get o key now (Fetch.cache w)) as [cached cache1] eqn:Hget.
  cbn in Hcold. subst cached.
  set (w0 := {| Fetch.cache := cache1;
                Fetch.dedup :=
                  snd (RequestDeduplicator.execute key url now (Fetch.dedup w));
                Fetch.counters := Fetch.counters w ++ [("fetch_cache_misses_total", name)];
                Fetch.sent := Fetch.sent w |}).
  pose proof (attempt_succeeds userAgents o net arrival agent_draw url w0 res Hnet Hok)
    as Hattempt. cbn zeta in Hattempt. fold result key in Hattempt.
  assert (Hretry :
    RetryPolicy.retryOperation jitter_draw
      (Fetch.attempt userAgents o net arrival agent_draw url) 3 1000 w0
    = Some ((fst (Fetch.attempt userAgents o net arrival agent_draw url w0),
             [RetryPolicy.Invoked 0]), Returned result)).
  { unfold RetryPolicy.retryOperation.
    rewrite (attempts_success jitter_draw _ 3 1000 0 (Z.to_nat 3) 0 None w0 [] result).
    - reflexivity.
    - cbn. lia.
    - lia.
    - intros i Hi. lia.
    - cbn [replicate after_operations foldl]. now rewrite Hattempt. }
  assert (Hfirst : exists w1,
    run url now w = Some ((w1, [RetryPolicy.Invoked 0]), Fetch.Settled (Returned result))
    /\ Fetch.cache w1
       = Cache.set o key result None (arrival (length (Fetch.sent w))) cache1
    /\ Fetch.sent w1
       = Fetch.sent w ++ [Fetch.randomAgent userAgents (agent_draw (length (Fetch.sent w)))]
    /\ Fetch.counters w1 = Fetch.counters w ++ [("fetch_cache_misses_total", name)]
    /\ RequestDeduplicator.pendingRequests (Fetch.dedup w1) !! key = None).
  { unfold run, Fetch.fetch. rewrite Hvalid. fold key. rewrite Hget.
    rewrite (execute_fresh key url now (Fetch.dedup w) Hidle).
    unfold w0 in Hretry. rewrite (execute_fresh key url now (Fetch.dedup w) Hidle) in Hretry.
    cbn [snd] in Hretry. rewrite Hretry.
    unfold w0 in Hattempt.
    rewrite (execute_fresh key url now (Fetch.dedup w) Hidle) in Hattempt.
    cbn [snd] in Hattempt. rewrite Hattempt. cbn [fst snd].
    unfold RequestDeduplicator.resume.
    eexists. split; [reflexivity|]. cbn.
    repeat split. apply lookup_delete_eq. }
  destruct Hfirst as (w1 & Hrun1 & Hcache1 & Hsent1 & Hcount1 & Hpending1).
  assert (Hhit : Cache.get o key again (Fetch.cache w1)
                 = (Some result,
                    {| Cache.store :=
                         Cache.map_set key
                           (Cache.mkItem result
                              (arrival (length (Fetch.sent w)) + Cache.ttl o) again false)
                           (Cache.store (Fetch.cache w1));
                       Cache.evictions := Cache.evictions (Fetch.cache w1) |})).
  { rewrite (get_live_state o key again (Fetch.cache w1)
               (Cache.mkItem result (arrival (length (Fetch.sent w)) + Cache.ttl o)
                  (arrival (length (Fetch.sent w))) false)).
    - reflexivity.
    - rewrite Hcache1. apply set_stores.
    - cbn. lia. }
  eexists w1, _.
  split; [exact Hrun1|].
  split; [rewrite Hsent1, length_app; cbn; lia|].
  split; [exact Hcount1|]. split; [exact Hpending1|].
  split; [unfold run, Fetch.fetch; rewrite Hvalid; fold key; rewrite Hhit; reflexivity|].
  split; reflexivity.
Qed.

(** The sample URL fetched at 900, answered at 1000, fetched again at 2000. *)
Lemma fetch_miss_then_hit_witness :
  exists w1 w2,
    Fetch.fetch (Fetch.validateUrl sample_parse) "HtmlSnippetWatcher" ["Mozilla/5.0 (X11)"] swr_off
      (fun _ => Returned page) (fun _ => 1000) (fun _ => 1 # 2) (fun _ => 1 # 2)
      "https://example.org/form" 900 idle_world
    = Some ((w1, [RetryPolicy.Invoked 0]),
            Fetch.Settled (Returned {| Fetch.content := "<form>open</form>";
                                       Fetch.finalUrl := "https://example.org/form" |}))
    /\ Fetch.fetch (Fetch.validateUrl sample_parse) "HtmlSnippetWatcher" ["Mozilla/5.0 (X11)"] swr_off
         (fun _ => Returned page) (fun _ => 1000) (fun _ => 1 # 2) (fun _ => 1 # 2)
         "https://example.org/form" 2000 w1
       = Some ((w2, []),
               Fetch.Settled (Returned {| Fetch.content := "<form>open</form>";
                                          Fetch.finalUrl := "https://example.org/form" |}))
    /\ Fetch.sent w2 = [Some "Mozilla/5.0 (X11)"].
Proof.
  destruct (fetch_miss_then_hit (Fetch.validateUrl sample_parse) "HtmlSnippetWatcher"
              ["Mozilla/5.0 (X11)"]
              swr_off (fun _ => Returned page) (fun _ => 1000) (fun _ => 1 # 2)
              (fun _ => 1 # 2) "https://example.org/form" "https://example.org/form"
              900 2000 idle_world page
              ltac:(vm_compute; reflexivity) eq_refl (lookup_empty _) eq_refl eq_refl
              eq_refl)
    as (w1 & w2 & Hrun1 & _ & _ & _ & Hrun2 & Hsent & _).
  exists w1, w2. split; [exact Hrun1|]. split; [exact Hrun2|].
  rewrite Hsent. vm_compute in Hrun1. now inversion Hrun1.
Defined.

Section RetrySteps.
Context {W T : Type}.
Variable random : Z -> Q.
Variable operation : Operation W T.
Variables maxRetries baseDelayMs : Z.

Lemma attempts_fail_step (fuel : nat) (attempt : Z) (lastError : option Thrown)
    (w w' : W) (e : Thrown) (log : list RetryPolicy.Event) :
  attempt < maxRetries ->
  operation w = (w', Threw e) ->
  RetryPolicy.attempts random (S fuel) operation maxRetries baseDelayMs attempt lastError
    (w, log)
  = RetryPolicy.attempts random fuel operation maxRetries baseDelayMs (attempt + 1)
      (Some (as_error e))
      (w', if attempt <? maxRetries - 1
           then (log ++ [RetryPolicy.Invoked attempt])
                  ++ [RetryPolicy.Waited attempt
                        (RetryPolicy.delay baseDelayMs attempt (random attempt))]
           else log ++ [RetryPolicy.Invoked attempt]).
Proof.
  intros Hlt Hop. cbn [RetryPolicy.attempts].
  destruct (Z.ltb_spec attempt maxRetries); [|lia]. now rewrite Hop.
Qed.

Lemma attempts_done (fuel : nat) (attempt : Z) (lastError : option Thrown)
    (st : W * list RetryPolicy.Event) :
  maxRetries <= attempt ->
  RetryPolicy.attempts random fuel operation maxRetries baseDelayMs attempt lastError st
  = Some (st, Threw (RetryPolicy.exhausted maxRetries baseDelayMs lastError)).
Proof.
  intros Hge. destruct fuel; cbn [RetryPolicy.attempts];
    (destruct (Z.ltb_spec attempt maxRetries); [lia|reflexivity]).
Qed.

End RetrySteps.

(** X28.  End to end, exhaustion.  For a URL that the validator accepts
    and that is not cached and
    not being fetched, three requests that each fail (a non-success status
    or a rejected network call) make [fetch] fail with the
    operation-exhausted signal, whose cause is the error of the third
    attempt; the network or status error itself never reaches the caller.
    Exactly three requests are sent, one cache miss is counted, nothing is
    cached and no pending entry is left behind. *)
Theorem fetch_exhausts_after_three_failures
    (validate : string -> Outcome string)
    (name : string) (userAgents : list string) (o : Cache.CacheOptions)
    (net : nat -> Outcome Fetch.Response) (arrival : nat -> Z)
    (agent_draw : nat -> Q) (jitter_draw : Z -> Q)
    (url checked : string) (now : Z) (w : Fetch.World) :
  validate url = Returned checked ->
  fst (Cache.get o ("fetch:" +:+ url) now (Fetch.cache w)) = None ->
  RequestDeduplicator.pendingRequests (Fetch.dedup w) !! ("fetch:" +:+ url) = None ->
  Fetch.failed_attempt (net (length (Fetch.sent w))) ->
  Fetch.failed_attempt (net (S (length (Fetch.sent w)))) ->
  Fetch.failed_attempt (net (S (S (length (Fetch.sent w))))) ->
  let cause := as_error (Fetch.attempt_error url (net (S (S (length (Fetch.sent w)))))) in
  exists w' log message,
    Fetch.fetch validate name userAgents o net arrival agent_draw jitter_draw url now w
    = Some ((w', log),
            Fetch.Settled
              (Threw (InternalServerError message (Some cause) 3 1000 (message_of cause))))
    /\ RetryPolicy.invocations log = 3%nat
    /\ length (Fetch.sent w') = S (S (S (length (Fetch.sent w))))
    /\ Fetch.cache w' = snd (Cache.get o ("fetch:" +:+ url) now (Fetch.cache w))
    /\ Fetch.counters w' = Fetch.counters w ++ [("fetch_cache_misses_total", name)]
    /\ RequestDeduplicator.pendingRequests (Fetch.dedup w') !! ("fetch:" +:+ url) = None.
Proof.
  intros Hvalid Hcold Hidle Hf0 Hf1 Hf2 cause.
  set (key := "fetch:" +:+ url) in *.
  set (n := length (Fetch.sent w)) in *.
  destruct (Cache.get o key now (Fetch.cache w)) as [cached cache1] eqn:Hget.
  cbn in Hcold. subst cached. cbn [snd].
  unfold Fetch.fetch. rewrite Hvalid. fold key. rewrite Hget.
  rewrite (execute_fresh key url now (Fetch.dedup w) Hidle).
  set (d1 := {| RequestDeduplicator.pendingRequests :=
                  <[key := {| RequestDeduplicator.promise :=
                                RequestDeduplicator.created (Fetch.dedup w);
                              RequestDeduplicator.timestamp := now |}]>
                    (RequestDeduplicator.pendingRequests (Fetch.dedup w));
                RequestDeduplicator.settled := RequestDeduplicator.settled (Fetch.dedup w);
                RequestDeduplicator.created := S (RequestDeduplicator.created (Fetch.dedup w));
                RequestDeduplicator.invoked :=
                  RequestDeduplicator.invoked (Fetch.dedup w) ++ [(key, url)] |}).
  set (counted := Fetch.counters w ++ [("fetch_cache_misses_total", name)]).
  set (a0 := Fetch.randomAgent userAgents (agent_draw n)).
  set (a1 := Fetch.randomAgent userAgents (agent_draw (S n))).
  set (a2 := Fetch.randomAgent userAgents (agent_draw (S (S n)))).
  set (mk := fun agents => {| Fetch.cache := cache1; Fetch.dedup := d1;
                              Fetch.counters := counted; Fetch.sent := agents |}).
  set (op := Fetch.attempt userAgents o net arrival agent_draw url).
  assert (Hstep : forall agents i,
            length agents = i -> Fetch.failed_attempt (net i) ->
            op (mk agents)
            = (mk (agents ++ [Fetch.randomAgent userAgents (agent_draw i)]),
               Threw (Fetch.attempt_error url (net i)))).
  { intros agents i <- Hfail. unfold op. now rewrite attempt_fails. }
  change {| Fetch.cache := cache1; Fetch.dedup := d1; Fetch.counters := counted;
            Fetch.sent := Fetch.sent w |} with (mk (Fetch.sent w)).
  unfold RetryPolicy.retryOperation. change (Z.to_nat 3) with 3%nat.
  rewrite (attempts_fail_step jitter_draw op 3 1000 2 0 None _ _ _ []
             ltac:(lia) (Hstep (Fetch.sent w) n eq_refl Hf0)).
  rewrite (attempts_fail_step jitter_draw op 3 1000 1 (0 + 1) _ _ _ _ _
             ltac:(lia)
             (Hstep (Fetch.sent w ++ [a0]) (S n)
                ltac:(rewrite length_app; cbn; unfold n; lia) Hf1)).
  rewrite (attempts_fail_step jitter_draw op 3 1000 0 (0 + 1 + 1) _ _ _ _ _
             ltac:(lia)
             (Hstep ((Fetch.sent w ++ [a0]) ++ [a1]) (S (S n))
                ltac:(rewrite !length_app; cbn; unfold n; lia) Hf2)).
  rewrite attempts_done by lia.
  cbn [Fetch.dedup Fetch.cache Fetch.counters Fetch.sent mk].
  unfold RequestDeduplicator.resume. fold a2.
  eexists _, _, _. split; [reflexivity|].
  cbn [Fetch.dedup Fetch.cache Fetch.counters Fetch.sent
         RequestDeduplicator.pendingRequests].
  split; [reflexivity|].
  split; [rewrite !length_app; cbn; unfold n; lia|].
  split; [reflexivity|]. split; [reflexivity|]. apply lookup_delete_eq.
Qed.

(** A server that answers every request with 429. *)
Lemma fetch_exhausts_after_three_failures_witness :
  exists w' log message,
    Fetch.fetch (Fetch.validateUrl sample_parse) "HtmlSnippetWatcher" ["Mozilla/5.0 (X11)"] swr_off
      (fun _ => Returned too_many_requests) (fun _ => 1000) (fun _ => 1 # 2)
      (fun _ => 1 # 2) "https://example.org/form" 900 idle_world
    = Some ((w', log),
            Fetch.Settled
              (Threw (InternalServerError message
                        (Some (NetworkError "Failed to fetch content"
                                 (Some "https://example.org/form") (Some 429)))
                        3 1000 (Some "Failed to fetch content"))))
    /\ length (Fetch.sent w') = 3%nat.
Proof.
  destruct (fetch_exhausts_after_three_failures (Fetch.validateUrl sample_parse)
              "HtmlSnippetWatcher"
              ["Mozilla/5.0 (X11)"] swr_off (fun _ => Returned too_many_requests)
              (fun _ => 1000) (fun _ => 1 # 2) (fun _ => 1 # 2)
              "https://example.org/form" "https://example.org/form" 900 idle_world
              ltac:(vm_compute; reflexivity) eq_refl (lookup_empty _) eq_refl eq_refl
              eq_refl)
    as (w' & log & message & Hrun & _ & Hsent & _).
  exists w', log, message. split; [exact Hrun|exact Hsent].
Defined.
